(** * ILD-features: box-counting fractal dimension and branch tortuosity

    A shallow embedding of [fractal_dimension_3D] (fractal.py) and of
    [compute_tortuosity] (batch_tortuosity.py, per_lobe_tortuosity.py),
    together with the numpy / pandas routines they call.

    Numeric conventions.  The programs compute in IEEE binary64.  Here
    - box edge lengths ("scales") are integer-valued after [np.floor] and
      are kept in [Z]; exponents, offsets and bin edges are exact rationals
      ([Q]); [floor (2 ** q)] is computed exactly by an integer root;
    - branch coordinates and lengths are real numbers ([R]) and arithmetic
      on them is exact; the values a division can produce in numpy
      (a finite number, an infinity, NaN) are kept apart in [float].
    Rounding error of binary64 is therefore not part of the model. *)

From Stdlib Require Import ZArith QArith Reals List Bool Lia Lra Sorted.
Import ListNotations.

Open Scope Z_scope.

(** ** Python outcomes: a value or a raised exception *)

Module Py.

Inductive exn : Type :=
| ValueError | TypeError | OverflowError | AxisError | IndexError | LinAlgError
| ZeroDivisionError.

Inductive outcome (A : Type) : Type :=
| Ok (a : A)
| Raise (e : exn).

Arguments Ok {A} a.
Arguments Raise {A} e.

Definition bind {A B} (m : outcome A) (k : A -> outcome B) : outcome B :=
  match m with
  | Ok a => k a
  | Raise e => Raise e
  end.

Definition raises {A} (m : outcome A) : Prop := exists e, m = Raise e.

Definition returns {A} (m : outcome A) : Prop := exists a, m = Ok a.

(** A loop or comprehension whose body may raise: the first exception
    leaves the loop. *)
Fixpoint mapM {A B} (f : A -> outcome B) (l : list A) : outcome (list B) :=
  match l with
  | [] => Ok []
  | x :: t =>
      bind (f x) (fun y => bind (mapM f t) (fun ys => Ok (y :: ys)))
  end.

End Py.
Import Py.

Notation "x <- m ;; k" := (bind m (fun x => k))
  (at level 61, m at next level, right associativity).

(** ** The numpy routines used by the two estimators *)

Module Np.

(** [np.unique]: the sorted (ascending) distinct values. *)
Fixpoint insert_unique (x : Z) (l : list Z) : list Z :=
  match l with
  | [] => [x]
  | y :: t =>
      if x <? y then x :: l
      else if x =? y then l
      else y :: insert_unique x t
  end.

Definition unique (l : list Z) : list Z := fold_right insert_unique [] l.

(** [np.min] of a 1-D array; a zero-size array has no minimum. *)
Definition min (l : list Z) : outcome Z :=
  match l with
  | [] => Raise ValueError
  | x :: t => Ok (fold_left Z.min t x)
  end.

(** [a[mask]] with a boolean mask of the same length. *)
Fixpoint mask_select (a : list Z) (mask : list bool) : outcome (list Z) :=
  match a, mask with
  | [], [] => Ok []
  | x :: a', b :: mask' =>
      r <- mask_select a' mask' ;;
      Ok (if b then x :: r else r)
  | _, _ => Raise IndexError
  end.

(** [np.linspace(start, stop, num)] for integral end points: [num] evenly
    spaced rationals, [start + i * (stop - start) / (num - 1)]. *)
Definition linspace (start stop : Z) (num : nat) : list Q :=
  match num with
  | O => []
  | S O => [inject_Z start]
  | S (S d) =>
      let div := Pos.of_succ_nat d in
      map (fun i : nat =>
             Qmake (start * Zpos div + Z.of_nat i * (stop - start)) div)
          (seq 0 num)
  end.

(** [floor (2 ** q)]: bit by bit, the largest [r] with
    [r ^ den <= 2 ^ num]. *)
Fixpoint iroot_bits (den target : Z) (b : nat) (r : Z) : Z :=
  match b with
  | O => r
  | S b' =>
      let r' := r + 2 ^ Z.of_nat b' in
      iroot_bits den target b' (if r' ^ den <=? target then r' else r)
  end.

Definition floor_pow2 (q : Q) : Z :=
  let num := Qnum q in
  let den := Zpos (Qden q) in
  if num <? 0 then 0
  else iroot_bits den (2 ^ num) (S (Z.to_nat (num / den))) 0.

(** [np.floor(np.logspace(start, stop, num=num, base=2))]. *)
Definition floor_logspace2 (start stop : Z) (num : nat) : list Z :=
  map floor_pow2 (linspace start stop num).

(** [np.arange(0, stop, step)] for an integral extent and an
    integer-valued step: [0, step, 2*step, ...] below [stop].  A zero
    step has no length. *)
Definition arange (stop step : Z) : outcome (list Z) :=
  if step =? 0 then Raise ValueError
  else if (step <? 0) || (stop <=? 0) then Ok []
  else Ok (map (fun k : nat => Z.of_nat k * step)
               (seq 0 (Z.to_nat ((stop + step - 1) / step)))).

(** [np.searchsorted(edges, v, side='right')] on a sorted array. *)
Definition searchsorted_right (edges : list Q) (v : Q) : nat :=
  length (filter (fun e => Qle_bool e v) edges).

Fixpoint monotonic (edges : list Q) : bool :=
  match edges with
  | [] => true
  | e :: t =>
      match t with
      | [] => true
      | e' :: _ => Qle_bool e e' && monotonic t
      end
  end.

Definition cell : Type := (nat * nat * nat)%type.

Definition cell_eqb (c c' : cell) : bool :=
  let '(a, b, d) := c in
  let '(a', b', d') := c' in
  Nat.eqb a a' && Nat.eqb b b' && Nat.eqb d d'.

(** The bin number of a coordinate along one axis, as histogramdd computes
    it: the count of edges not above it, moved one bin to the left when the
    coordinate sits on the rightmost edge.  Number 0 and number
    [length edges] are the two outlier bins. *)
Definition bin_number (edges : list Q) (v : Z) : nat :=
  let n := searchsorted_right edges (inject_Z v) in
  if Qeq_bool (inject_Z v) (last edges 0%Q) then Nat.pred n else n.

Definition Ncount (ex ey ez : list Q) (p : Z * Z * Z) : cell :=
  let '(x, y, z) := p in
  (bin_number ex x, bin_number ey y, bin_number ez z).

(** The cells that remain after the outlier bins are removed. *)
Definition core_cells (ex ey ez : list Q) : list cell :=
  let axis (e : list Q) := seq 1 (Nat.pred (length e)) in
  flat_map (fun a =>
    flat_map (fun b =>
      map (fun d => (a, b, d)) (axis ez)) (axis ey)) (axis ex).

Definition count_cell (c : cell) (l : list cell) : nat :=
  length (filter (cell_eqb c) l).

(** [np.histogramdd(sample, bins=[ex, ey, ez])[0]], flattened (numpy 1.15
    and later, where edges may repeat).  An empty coordinate list is a 1-D
    array, whose dimension does not match the three bin arrays; edges that
    decrease are refused. *)
Definition histogramdd (sample : list (Z * Z * Z)) (ex ey ez : list Q)
  : outcome (list nat) :=
  match sample with
  | [] => Raise ValueError
  | _ =>
      if monotonic ex && monotonic ey && monotonic ez then
        let hits := map (Ncount ex ey ez) sample in
        Ok (map (fun c => count_cell c hits) (core_cells ex ey ez))
      else Raise ValueError
  end.

(** [np.sum(H > 0)]. *)
Definition sum_positive (H : list nat) : Z :=
  Z.of_nat (length (filter (fun n => Nat.ltb 0 n) H)).

(** [np.sum] of a 1-D array of reals. *)
Definition Rsum (l : list R) : R := fold_right Rplus 0%R l.

(** [np.polyfit(x, y, 1)]: the coefficients [(slope, intercept)] of the
    least-squares line.  An empty [x] is refused.  With a design matrix of
    full rank this is the ordinary least-squares solution.  When every
    abscissa is the same [x0] the matrix has rank 1 and lstsq returns the
    solution of least norm of the column-scaled system (a RankWarning is
    issued, no exception); at [x0 = 0] the scaling divides 0 by 0 and the
    SVD of the resulting matrix does not converge. *)
Definition polyfit1 (x y : list R) : outcome (R * R) :=
  match x with
  | [] => Raise TypeError
  | x0 :: _ =>
      if negb (Nat.eqb (length x) (length y)) then Raise TypeError
      else
        let n := INR (length x) in
        let sx := Rsum x in
        let sy := Rsum y in
        let sxx := Rsum (map (fun u => u * u) x) in
        let sxy := Rsum (map (fun p => fst p * snd p) (combine x y)) in
        let det := n * sxx - sx * sx in
        if Req_dec_T det 0 then
          if Req_dec_T x0 0 then Raise LinAlgError
          else Ok (sy / n / (2 * x0), sy / n / 2)
        else
          let m := (n * sxy - sx * sy) / det in
          Ok (m, (sy - m * sx) / n)
  end%R.

End Np.

(** ** fractal.py *)

Module Fractal.

(** A 3-D array: its shape and its cell values (a mask or a label
    volume); cells outside the shape are never read. *)
Record ndarray : Type := {
  shape : nat * nat * nat;
  item : nat -> nat -> nat -> Z
}.

Definition min_shape (a : ndarray) : Z :=
  let '(d0, d1, d2) := shape a in
  Z.min (Z.of_nat d0) (Z.min (Z.of_nat d1) (Z.of_nat d2)).

(** Lines 11-15: the scales. *)
Definition scale_sequence (a : ndarray) (max_box_size : option Z)
    (min_box_size : Z) (n_samples : nat) : outcome (list Z) :=
  mb <- match max_box_size with
        | Some m => Ok m
        | None =>
            if min_shape a =? 0 then Raise OverflowError
            else Ok (Z.log2 (min_shape a))
        end ;;
  Ok (Np.unique (Np.floor_logspace2 mb min_box_size n_samples)).

(** Lines 18-19: the coordinates of the cells above zero, row-major. *)
Definition voxels_of (a : ndarray) : list (Z * Z * Z) :=
  let '(d0, d1, d2) := shape a in
  flat_map (fun x =>
    flat_map (fun y =>
      flat_map (fun z =>
        if 0 <? item a x y z
        then [(Z.of_nat x, Z.of_nat y, Z.of_nat z)]
        else [])
      (seq 0 d2)) (seq 0 d1)) (seq 0 d0).

(** Lines 27-30. *)
Definition offsets_of (n_offsets : nat) (scale : Z) : list Q :=
  match n_offsets with
  | O => [0%Q]
  | _ => Np.linspace 0 scale n_offsets
  end.

(** Lines 33-34, one axis. *)
Definition bin_edges (i : nat) (scale : Z) (offset : Q) : outcome (list Q) :=
  x <- Np.arange (Z.of_nat i) scale ;;
  Ok ((0 - offset)%Q :: map (fun e => (inject_Z e + offset)%Q) x).

(** Lines 33-36: the boxes touched at one scale and one offset. *)
Definition touched_at (shp : nat * nat * nat) (voxels : list (Z * Z * Z))
    (scale : Z) (offset : Q) : outcome Z :=
  let '(d0, d1, d2) := shp in
  ex <- bin_edges d0 scale offset ;;
  ey <- bin_edges d1 scale offset ;;
  ez <- bin_edges d2 scale offset ;;
  H1 <- Np.histogramdd voxels ex ey ez ;;
  Ok (Np.sum_positive H1).

(** Lines 26-37: the row of counts of one scale. *)
Definition touched_row (shp : nat * nat * nat) (voxels : list (Z * Z * Z))
    (n_offsets : nat) (scale : Z) : outcome (list Z) :=
  mapM (touched_at shp voxels scale) (offsets_of n_offsets scale).

(** The count recorded for one scale: the minimum of its row. *)
Definition box_count (shp : nat * nat * nat) (voxels : list (Z * Z * Z))
    (n_offsets : nat) (scale : Z) : outcome Z :=
  row <- touched_row shp voxels n_offsets scale ;;
  Np.min row.

(** Lines 22-40.  With no scale at all [Ns] is a 1-D empty array and has
    no axis 1. *)
Definition min_counts (shp : nat * nat * nat) (voxels : list (Z * Z * Z))
    (n_offsets : nat) (scales : list Z) : outcome (list Z) :=
  Ns <- mapM (touched_row shp voxels n_offsets) scales ;;
  match Ns with
  | [] => Raise AxisError
  | _ => mapM Np.min Ns
  end.

(** Lines 42-46: the reduction of the (scale, count) samples. *)
Definition reduce (scales Ns : list Z) : outcome (list Z * list Z) :=
  scales1 <- mapM (fun x =>
                     sel <- Np.mask_select scales (map (Z.eqb x) Ns) ;;
                     Np.min sel)
                  (Np.unique Ns) ;;
  let Ns1 := Np.unique Ns in
  let Ns2 := filter (fun n => 0 <? n) Ns1 in
  Ok (firstn (length Ns2) scales1, Ns2).

(** Lines 11-46: the two arrays handed to the fit. *)
Definition fit_input (a : ndarray) (max_box_size : option Z)
    (min_box_size : Z) (n_samples n_offsets : nat)
  : outcome (list Z * list Z) :=
  scales <- scale_sequence a max_box_size min_box_size n_samples ;;
  Ns <- min_counts (shape a) (voxels_of a) n_offsets scales ;;
  reduce scales Ns.

(** Lines 9-63.  The plot is a side channel and is left out. *)
Definition fractal_dimension_3D (a : ndarray) (max_box_size : option Z)
    (min_box_size : Z) (n_samples n_offsets : nat) : outcome R :=
  pts <- fit_input a max_box_size min_box_size n_samples n_offsets ;;
  coeffs <- Np.polyfit1 (map (fun s => ln (1 / IZR s)) (fst pts))
                        (map (fun n => ln (IZR n)) (snd pts)) ;;
  Ok (fst coeffs).

End Fractal.

(** ** Floating-point values with their special cases

    A finite value is a real number; the two infinities and NaN are what
    numpy returns where real arithmetic has no value.  The two zeros of
    binary64 are not told apart. *)

Module Float.

Inductive float : Type :=
| Fin (r : R)
| PInf
| NInf
| NaN.

Definition is_nan (f : float) : bool :=
  match f with NaN => true | _ => false end.

Definition is_finite (f : float) : Prop := exists r, f = Fin r.

(** The infinity with the sign of [r], NaN for zero. *)
Definition signed_inf (r : R) : float :=
  if Req_dec_T r 0 then NaN
  else if Rlt_dec 0 r then PInf else NInf.

Definition fneg (f : float) : float :=
  match f with
  | Fin r => Fin (- r)
  | PInf => NInf
  | NInf => PInf
  | NaN => NaN
  end.

Definition fadd (a b : float) : float :=
  match a, b with
  | NaN, _ | _, NaN => NaN
  | Fin x, Fin y => Fin (x + y)
  | PInf, NInf | NInf, PInf => NaN
  | PInf, _ | _, PInf => PInf
  | NInf, _ | _, NInf => NInf
  end.

Definition fmul (a b : float) : float :=
  match a, b with
  | NaN, _ | _, NaN => NaN
  | Fin x, Fin y => Fin (x * y)
  | Fin x, PInf | PInf, Fin x => signed_inf x
  | Fin x, NInf | NInf, Fin x => fneg (signed_inf x)
  | PInf, PInf | NInf, NInf => PInf
  | PInf, NInf | NInf, PInf => NInf
  end.

(** Division as numpy does it: a zero divisor gives an infinity or NaN and
    a RuntimeWarning, never an exception. *)
Definition fdiv (a b : float) : float :=
  match a, b with
  | NaN, _ | _, NaN => NaN
  | Fin x, Fin y => if Req_dec_T y 0 then signed_inf x else Fin (x / y)
  | Fin _, PInf | Fin _, NInf => Fin 0
  | PInf, Fin y => if Rlt_dec y 0 then NInf else PInf
  | NInf, Fin y => if Rlt_dec y 0 then PInf else NInf
  | PInf, PInf | PInf, NInf | NInf, PInf | NInf, NInf => NaN
  end.

End Float.

(** ** batch_tortuosity.py, per_lobe_tortuosity.py *)

Module Tortuosity.
Import Float.

(** One row of the branch table. *)
Record branch : Type := {
  coord_src_0 : R; coord_src_1 : R; coord_src_2 : R;
  coord_dst_0 : R; coord_dst_1 : R; coord_dst_2 : R;
  branch_distance : R
}.

(** The branch table.  The columns of the table that skan derives from a
    skeleton are float64, also when it has no row.  A table created with
    the column names only ([pd.DataFrame(columns=[...])]) has no row and
    columns of dtype object. *)
Inductive DataFrame : Type :=
| Float64 (branches : list branch)
| EmptyObject.

Definition rows (df : DataFrame) : list branch :=
  match df with
  | Float64 branches => branches
  | EmptyObject => []
  end.

(** [Series.sum()]: NaN entries are skipped; the empty sum is 0. *)
Definition series_sum (s : list float) : float :=
  fold_right fadd (Fin 0) (filter (fun f => negb (is_nan f)) s).

(** [Series.mean()]: the mean of the entries that are not NaN; NaN when
    there is none. *)
Definition series_mean (s : list float) : float :=
  let kept := filter (fun f => negb (is_nan f)) s in
  match kept with
  | [] => NaN
  | _ => fdiv (fold_right fadd (Fin 0) kept) (Fin (INR (length kept)))
  end.

(** [np.linalg.norm(xyz_start - xyz_end, axis=1)], one row. *)
Definition euclid_length (b : branch) : R :=
  sqrt ((coord_src_0 b - coord_dst_0 b) * (coord_src_0 b - coord_dst_0 b)
        + (coord_src_1 b - coord_dst_1 b) * (coord_src_1 b - coord_dst_1 b)
        + (coord_src_2 b - coord_dst_2 b) * (coord_src_2 b - coord_dst_2 b)).

(** The rows of [df[df["euclid-length"] > length_threshold]]. *)
Definition df_tort (df : DataFrame) (length_threshold : R) : list branch :=
  filter (fun b => if Rlt_dec length_threshold (euclid_length b)
                   then true else false) (rows df).

(** The column [df_tort["tortuosity"]], one row. *)
Definition tortuosity (b : branch) : float :=
  fdiv (Fin (branch_distance b)) (Fin (euclid_length b)).

Definition default_length_threshold : R := 1 / 1000000.

(** Lines 11-21.  On float64 columns the two sums are numpy floats and
    the division of line 19 is a numpy division, which does not raise.  On
    the table without rows and with object columns the two sums are the
    Python integer 0, and the division of line 19 raises. *)
Definition compute_tortuosity (df : DataFrame) (length_threshold : R)
  : outcome (float * float) :=
  match df with
  | EmptyObject => Raise ZeroDivisionError
  | Float64 _ =>
      let rows := df_tort df length_threshold in
      let global_tort_weighted :=
        fdiv (series_sum
                (map (fun b => fmul (Fin (branch_distance b)) (tortuosity b))
                     rows))
             (series_sum (map (fun b => Fin (branch_distance b)) rows)) in
      let global_tort_simple := series_mean (map tortuosity rows) in
      Ok (global_tort_simple, global_tort_weighted)
  end.

End Tortuosity.

(** ** The scale generator as the specification words it *)

Module Spec.

(** Duplicates removed, the order of first occurrences kept. *)
Fixpoint dedup (l : list Z) : list Z :=
  match l with
  | [] => []
  | x :: t => x :: filter (fun y => negb (y =? x)) (dedup t)
  end.

(** [n_samples] values geometrically spaced in base 2 between
    [2^max_box_size] and [2^min_box_size], floored, deduplicated in
    descending order; an absent [max_box_size] is [floor(log2(min(shape)))]. *)
Definition scale_generator (a : Fractal.ndarray) (max_box_size : option Z)
    (min_box_size : Z) (n_samples : nat) : list Z :=
  let mb := match max_box_size with
            | Some m => m
            | None => Z.log2 (Fractal.min_shape a)
            end in
  dedup (Np.floor_logspace2 mb min_box_size n_samples).

End Spec.

(** ** Concrete volumes and branch tables *)

Module Examples.
Import Fractal Tortuosity.

Definition at_cells (n : nat) (cells : list (nat * nat * nat)) (v : Z)
  : ndarray :=
  {| shape := (n, n, n);
     item := fun x y z =>
       if existsb (fun c => let '(a, b, d) := c in
                            Nat.eqb x a && Nat.eqb y b && Nat.eqb z d) cells
       then v else 0 |}.

(** A single occupied voxel at the origin of an 8 x 8 x 8 grid. *)
Definition origin_voxel : ndarray := at_cells 8 [(0, 0, 0)%nat] 1.

(** The same occupancy with a label value other than 1. *)
Definition origin_voxel_label : ndarray := at_cells 8 [(0, 0, 0)%nat] 255.

(** Two neighbouring voxels on the first axis of an 8 x 8 x 8 grid. *)
Definition two_voxels : ndarray :=
  at_cells 8 [(2, 0, 0)%nat; (3, 0, 0)%nat] 1.

(** The 2 x 2 x 2 block {2,3} x {2,3} x {4,5} in an 11 x 11 x 11 grid. *)
Definition block : ndarray :=
  at_cells 11 [(2, 2, 4)%nat; (2, 2, 5)%nat; (2, 3, 4)%nat; (2, 3, 5)%nat;
              (3, 2, 4)%nat; (3, 2, 5)%nat; (3, 3, 4)%nat; (3, 3, 5)%nat] 1.

(** No occupied voxel. *)
Definition empty_volume : ndarray := at_cells 8 [] 1.

Definition straight (len path : R) : branch :=
  {| coord_src_0 := 0; coord_src_1 := 0; coord_src_2 := 0;
     coord_dst_0 := 0; coord_dst_1 := 0; coord_dst_2 := len;
     branch_distance := path |}.

(** src=(0,0,0), dst=(0,0,10), len 10 and src=(0,0,0), dst=(0,0,5),
    len 10. *)
Definition two_branches : DataFrame :=
  Float64 [straight 10 10; straight 5 10].

End Examples.


(** Further volumes used by the later sections. *)

Module Volumes.
Import Fractal.

(** Every cell of a 9 x 9 x 9 grid occupied. *)
Definition full_cube : ndarray :=
  {| shape := (9, 9, 9)%nat; item := fun _ _ _ => 1 |}.

End Volumes.

(** Two small segmentations of one 2 x 2 x 2 grid. *)

Module Segmentations.
Import Fractal.

(** Lobe 1 on the plane [x = 0], lobe 2 on the plane [x = 1]. *)
Definition two_lobes : ndarray :=
  {| shape := (2, 2, 2)%nat;
     item := fun x _ _ => if Nat.eqb x 0 then 1 else 2 |}.

(** An airway along the line [y = 0, z = 0], stored as 0 and [v]. *)
Definition airway_line (v : Z) : ndarray :=
  {| shape := (2, 2, 2)%nat;
     item := fun _ y z => if Nat.eqb y 0 && Nat.eqb z 0 then v else 0 |}.

End Segmentations.

(** ** per_lobe_fractal.py, per_lobe_tortuosity.py: the label volume

    The two segmentations are read as [uint8] arrays, multiplied cell by
    cell, and every value of the product other than 0 is treated as a lobe
    label. *)

Module Lobes.
Import Fractal.

(** A cell index within a shape. *)
Definition inside (shp : nat * nat * nat) (x y z : nat) : Prop :=
  (x < fst (fst shp) /\ y < snd (fst shp) /\ z < snd shp)%nat.

(** One axis of the shape of [a * b]: equal lengths, or a length of 1 that
    is stretched; anything else cannot be broadcast. *)
Definition broadcast_axis (m n : nat) : outcome nat :=
  if Nat.eqb m n then Ok m
  else if Nat.eqb m 1 then Ok n
  else if Nat.eqb n 1 then Ok m
  else Raise ValueError.

(** The index read on an axis of length [m]: an axis of length 1 is read
    at 0 whatever the index. *)
Definition stretched (m i : nat) : nat := if Nat.eqb m 1 then 0%nat else i.

(** [lobe_array * airway_array] on two 3-D [uint8] arrays: the product
    wraps modulo 256 (per_lobe_fractal.py line 38, per_lobe_tortuosity.py
    line 53). *)
Definition multiply_uint8 (l a : ndarray) : outcome ndarray :=
  let '(l0, l1, l2) := shape l in
  let '(a0, a1, a2) := shape a in
  d0 <- broadcast_axis l0 a0 ;;
  d1 <- broadcast_axis l1 a1 ;;
  d2 <- broadcast_axis l2 a2 ;;
  Ok {| shape := (d0, d1, d2);
        item := fun x y z =>
          (item l (stretched l0 x) (stretched l1 y) (stretched l2 z)
           * item a (stretched a0 x) (stretched a1 y) (stretched a2 z))
          mod 256 |}.

(** The cell values in row-major order. *)
Definition values (a : ndarray) : list Z :=
  let '(d0, d1, d2) := shape a in
  flat_map (fun x =>
    flat_map (fun y =>
      map (fun z => item a x y z) (seq 0 d2)) (seq 0 d1)) (seq 0 d0).

(** [np.unique(a)] followed by [u[u != 0]] (lines 47-48, 62-63). *)
Definition unique_lobes (a : ndarray) : list Z :=
  filter (fun v => negb (v =? 0)) (Np.unique (values a)).

(** [a == label], a boolean array: True is 1. *)
Definition mask_eq (a : ndarray) (label : Z) : ndarray :=
  {| shape := shape a;
     item := fun x y z => if item a x y z =? label then 1 else 0 |}.

(** [np.any(a)]. *)
Definition any (a : ndarray) : bool :=
  existsb (fun v => negb (v =? 0)) (values a).

End Lobes.

(** ** The keys under which the scripts store their results

    File names are strings of one-byte characters.  The path functions
    are those of a POSIX system (separator [/]). *)

From Stdlib Require Ascii String.

Module Names.
Import Ascii String List ListNotations.

Definition str : Type := list ascii.

Definition lit (s : string) : str := list_ascii_of_string s.

Fixpoint str_eqb (a b : str) : bool :=
  match a, b with
  | [], [] => true
  | x :: a', y :: b' => Ascii.eqb x y && str_eqb a' b'
  | _, _ => false
  end.

(** [s.startswith(p)]. *)
Fixpoint startswith (s p : str) : bool :=
  match p, s with
  | [], _ => true
  | x :: p', y :: s' => Ascii.eqb x y && startswith s' p'
  | _ :: _, [] => false
  end.

(** [s.endswith(p)]. *)
Definition endswith (s p : str) : bool :=
  (length p <=? length s)%nat
  && str_eqb (skipn (length s - length p) s) p.

(** [s.rfind(c)] for a single character: the index of its last
    occurrence, [None] where Python returns -1. *)
Fixpoint rfind (s : str) (c : ascii) : option nat :=
  match s with
  | [] => None
  | x :: t =>
      match rfind t c with
      | Some i => Some (S i)
      | None => if Ascii.eqb x c then Some 0%nat else None
      end
  end.

(** [PurePath.stem] of a final path component: the name without its last
    suffix; a leading or a trailing dot starts no suffix. *)
Definition stem (name : str) : str :=
  match rfind name "." with
  | Some i =>
      if (0 <? i)%nat && (i <? length name - 1)%nat
      then firstn i name else name
  | None => name
  end.

(** [s.replace(old, new)]: the occurrences of [old] are replaced from left
    to right without overlap; [skip] characters of a match are still to be
    passed over. *)
Fixpoint replace_from (old new : str) (skip : nat) (s : str) : str :=
  match s with
  | [] => []
  | c :: t =>
      match skip with
      | S k => replace_from old new k t
      | O =>
          if startswith s old
          then new ++ replace_from old new (length old - 1) t
          else c :: replace_from old new 0 t
      end
  end.

Definition replace (s old new : str) : str :=
  match old with
  | [] => new ++ flat_map (fun c => c :: new) s
  | _ :: _ => replace_from old new 0 s
  end.

(** fractal.py line 84: [nifti_file.stem.replace('.nii', '')], on the
    name of the file. *)
Definition case_number (name : str) : str :=
  replace (stem name) (lit ".nii") [].

(** [os.path.splitext(p)]: the extension starts at the last dot of the
    last component, unless only dots precede it there. *)
Definition splitext (p : str) : str * str :=
  match rfind p "." with
  | None => (p, [])
  | Some dot =>
      let start := match rfind p "/" with
                   | Some i => S i
                   | None => 0%nat
                   end in
      if (start <=? dot)%nat
         && existsb (fun c => negb (Ascii.eqb c "."))
                    (firstn (dot - start) (skipn start p))
      then (firstn dot p, skipn dot p)
      else (p, [])
  end.

(** batch_tortuosity.py line 50. *)
Definition identifier (fname : str) : str :=
  fst (splitext (fst (splitext fname))).

(** [os.path.basename(p)]. *)
Definition basename (p : str) : str :=
  match rfind p "/" with
  | Some i => skipn (S i) p
  | None => p
  end.

(** [s.split(c)[0]]: the part before the first [c]. *)
Fixpoint split_first (s : str) (c : ascii) : str :=
  match s with
  | [] => []
  | x :: t => if Ascii.eqb x c then [] else x :: split_first t c
  end.

(** per_lobe_fractal.py line 22, per_lobe_tortuosity.py line 34. *)
Definition patient_id (airway_file : str) : str :=
  split_first (basename airway_file) ".".

End Names.

(** ** The batch drivers

    The loops that walk a folder, call the estimators and collect the
    results.  What the drivers obtain from outside (the listing of a
    folder, the images read by SimpleITK or nibabel, the branch table that
    skan derives from a mask) enters as a parameter; an outside call that
    raises is a [None].  Creating the output folder and writing the JSON
    file are left out. *)

Module Drivers.
Import Ascii String List ListNotations.
Import Fractal Float Tortuosity Names Lobes.

(** A Python dict with string keys: the entries in insertion order; an
    assignment to a key already present replaces its value in place. *)
Definition dict (V : Type) : Type := list (str * V).

Fixpoint dict_set {V} (d : dict V) (k : str) (v : V) : dict V :=
  match d with
  | [] => [(k, v)]
  | (k', v') :: t =>
      if str_eqb k k' then (k, v) :: t else (k', v') :: dict_set t k v
  end.

Fixpoint dict_get {V} (d : dict V) (k : str) : option V :=
  match d with
  | [] => None
  | (k', v') :: t => if str_eqb k k' then Some v' else dict_get t k
  end.

(** [os.path.join(a, b)]. *)
Definition join (a b : str) : str :=
  if startswith b (lit "/") then b
  else if (match a with [] => true | _ :: _ => false end)
          || endswith a (lit "/")
       then a ++ b
       else a ++ "/"%char :: b.

Section Fractal_batch.

(** [sitk.GetArrayFromImage(sitk.ReadImage(str(nifti_file)))], by the name
    of the file in the input folder. *)
Variable ReadImage : str -> option ndarray.

(** fractal.py lines 77-81, the part of the [try] body that can raise. *)
Definition measure (nifti_file : str) : option R :=
  match ReadImage nifti_file with
  | None => None
  | Some array =>
      match fractal_dimension_3D array None 1 20 0 with
      | Ok fd => Some fd
      | Raise _ => None
      end
  end.

(** fractal.py lines 65-95: the dict returned for the files that the glob
    [*.nii.gz] yields, in its order. *)
Definition process_folder (nifti_files : list str) : dict R :=
  fold_left (fun results nifti_file =>
               match measure nifti_file with
               | Some fd => dict_set results (case_number nifti_file) fd
               | None => results
               end)
            nifti_files [].

End Fractal_batch.

Section Tortuosity_batch.

(** batch_tortuosity.py lines 25-41: the rows of the branch table that
    skan derives from the mask in a file of the input folder, a table of
    float64 columns, with its columns under the expected names. *)
Variable branch_table : str -> option (list branch).

(** batch_tortuosity.py lines 24-43. *)
Definition process_file (fname : str) : option (float * float) :=
  match branch_table fname with
  | None => None
  | Some branches =>
      match compute_tortuosity (Float64 branches)
                               default_length_threshold with
      | Ok figures => Some figures
      | Raise _ => None
      end
  end.

(** batch_tortuosity.py lines 46-63: the dict written for a listing of the
    input folder; an entry is the pair (mean, weighted). *)
Definition main (listing : list str) : dict (float * float) :=
  fold_left (fun results fname =>
               if endswith fname (lit ".nii.gz")
               then match process_file fname with
                    | Some figures => dict_set results (identifier fname) figures
                    | None => results
                    end
               else results)
            listing [].

End Tortuosity_batch.

Section Per_lobe.

Variable lobe_directory : str.

(** [os.path.exists]. *)
Variable exists_file : str -> bool.

(** [sitk.GetArrayFromImage(sitk.ReadImage(path, sitk.sitkUInt8))]. *)
Variable ReadImage : str -> option ndarray.

(** Lines 76-89 of per_lobe_tortuosity.py: the rows of the branch table
    (float64 columns) that skan derives from a mask, with the spacing of
    the airway image of the given file. *)
Variable branch_table : str -> ndarray -> option (list branch).

(** Line 23 (34): [os.path.join(lobe_directory, patient_id,
    f"{patient_id}_lobes.nii.gz")]. *)
Definition lobe_file (patient_id : str) : str :=
  join (join lobe_directory patient_id) (patient_id ++ lit "_lobes.nii.gz").

(** per_lobe_fractal.py lines 51-55.  The entries of the [lobes] dict are
    kept under their label; the key of label [n] is [lobe_n]. *)
Definition lobe_dimensions (airway_lobe_np : ndarray)
  : outcome (list (Z * R)) :=
  mapM (fun lobe_label =>
          fd <- fractal_dimension_3D (mask_eq airway_lobe_np lobe_label)
                                     None 1 20 0 ;;
          Ok (lobe_label, fd))
       (unique_lobes airway_lobe_np).

(** per_lobe_fractal.py lines 22-62, one airway file: the record appended
    to [all_results], if any. *)
Definition patient_fractals (airway_file : str)
  : option (str * list (Z * R)) :=
  let patient_id := patient_id airway_file in
  if negb (exists_file (lobe_file patient_id)) then None
  else
    match ReadImage airway_file with
    | None => None
    | Some airway_array =>
        match ReadImage (lobe_file patient_id) with
        | None => None
        | Some lobe_array =>
            match (airway_lobe_np <- multiply_uint8 lobe_array airway_array ;;
                   lobe_dimensions airway_lobe_np) with
            | Ok lobes => Some (patient_id, lobes)
            | Raise _ => None
            end
        end
    end.

(** per_lobe_fractal.py lines 10-71. *)
Definition calculate_lobe_fractals (airway_files : list str)
  : list (str * list (Z * R)) :=
  flat_map (fun airway_file =>
              match patient_fractals airway_file with
              | Some patient_results => [patient_results]
              | None => []
              end)
           airway_files.

(** per_lobe_tortuosity.py lines 66-98: the loop over the labels; [None]
    when an iteration raises. *)
Fixpoint lobe_tortuosities (airway_file : str) (airway_lobe_np : ndarray)
    (labels : list Z) : option (list (Z * (float * float))) :=
  match labels with
  | [] => Some []
  | lobe_label :: rest =>
      let mask_lobe := mask_eq airway_lobe_np lobe_label in
      if negb (any mask_lobe)
      then lobe_tortuosities airway_file airway_lobe_np rest
      else
        match branch_table airway_file mask_lobe with
        | None => None
        | Some branches =>
            match compute_tortuosity (Float64 branches)
                                     default_length_threshold with
            | Raise _ => None
            | Ok figures =>
                match lobe_tortuosities airway_file airway_lobe_np rest with
                | None => None
                | Some lobes => Some ((lobe_label, figures) :: lobes)
                end
            end
        end
  end.

(** per_lobe_tortuosity.py lines 34-104, one airway file. *)
Definition patient_tortuosity (airway_file : str)
  : option (str * list (Z * (float * float))) :=
  let patient_id := patient_id airway_file in
  if negb (exists_file (lobe_file patient_id)) then None
  else
    match ReadImage airway_file with
    | None => None
    | Some airway_array =>
        match ReadImage (lobe_file patient_id) with
        | None => None
        | Some lobe_array =>
            match multiply_uint8 lobe_array airway_array with
            | Raise _ => None
            | Ok airway_lobe_np =>
                match lobe_tortuosities airway_file airway_lobe_np
                                        (unique_lobes airway_lobe_np) with
                | Some lobes => Some (patient_id, lobes)
                | None => None
                end
            end
        end
    end.

(** per_lobe_tortuosity.py lines 24-113. *)
Definition calculate_lobe_tortuosity (airway_files : list str)
  : list (str * list (Z * (float * float))) :=
  flat_map (fun airway_file =>
              match patient_tortuosity airway_file with
              | Some patient_results => [patient_results]
              | None => []
              end)
           airway_files.

End Per_lobe.

End Drivers.
(** * Properties *)

(** ** The tortuosity estimator *)

Module TortuosityFacts.
Import Float Tortuosity Examples.

Local Open Scope R_scope.

(** Decide the comparison of a real with itself. *)
Ltac same_real :=
  match goal with
  | |- context [Req_dec_T ?x ?x] =>
      destruct (Req_dec_T x x) as [_ | N]; [| now elim N]
  | H : context [Req_dec_T ?x ?x] |- _ =>
      destruct (Req_dec_T x x) as [_ | N]; [| now elim N]
  end.

Lemma fdiv_fin (x y : R) : y <> 0 -> fdiv (Fin x) (Fin y) = Fin (x / y).
Proof.
  intros Hy. unfold fdiv. destruct (Req_dec_T y 0) as [E | _]; [contradiction | reflexivity].
Qed.

Lemma signed_inf_pos (p : R) : 0 < p -> signed_inf p = PInf.
Proof.
  intros Hp. unfold signed_inf.
  destruct (Req_dec_T p 0); [lra |].
  destruct (Rlt_dec 0 p); [reflexivity | lra].
Qed.

Lemma signed_inf_neg (p : R) : p < 0 -> signed_inf p = NInf.
Proof.
  intros Hp. unfold signed_inf.
  destruct (Req_dec_T p 0); [lra |].
  destruct (Rlt_dec 0 p); [lra | reflexivity].
Qed.

Lemma signed_inf_zero : signed_inf 0 = NaN.
Proof.
  unfold signed_inf. same_real. reflexivity.
Qed.

Lemma df_tort_In (df : DataFrame) (thr : R) (b : branch) :
  In b (df_tort df thr) <-> In b (rows df) /\ thr < euclid_length b.
Proof.
  unfold df_tort. rewrite filter_In.
  destruct (Rlt_dec thr (euclid_length b)); intuition discriminate.
Qed.

Lemma euclid_straight (len path : R) :
  0 <= len -> euclid_length (straight len path) = len.
Proof.
  intros Hl. unfold euclid_length, straight; simpl.
  replace ((0 - 0) * (0 - 0) + (0 - 0) * (0 - 0) + (0 - len) * (0 - len))
    with (len * len) by ring.
  now apply sqrt_square.
Qed.

Lemma df_tort_cons (b : branch) (l : list branch) (thr : R) :
  df_tort (Float64 (b :: l)) thr =
  if Rlt_dec thr (euclid_length b) then b :: df_tort (Float64 l) thr
  else df_tort (Float64 l) thr.
Proof.
  unfold df_tort; simpl. now destruct (Rlt_dec thr (euclid_length b)).
Qed.

Lemma df_tort_nil (thr : R) : df_tort (Float64 []) thr = [].
Proof. reflexivity. Qed.

Lemma series_sum_fin (l : list R) :
  series_sum (map Fin l) = Fin (fold_right Rplus 0 l).
Proof.
  unfold series_sum. induction l as [| x l IH]; simpl; [reflexivity |].
  now rewrite IH.
Qed.

Lemma filter_nan_fin (l : list R) :
  filter (fun f => negb (is_nan f)) (map Fin l) = map Fin l.
Proof.
  induction l as [| x l IH]; simpl; [reflexivity | now rewrite IH].
Qed.

Lemma series_mean_fin (l : list R) :
  l <> [] ->
  series_mean (map Fin l) = Fin (fold_right Rplus 0 l / INR (length l)).
Proof.
  intros Hne. unfold series_mean. rewrite filter_nan_fin.
  pose proof (series_sum_fin l) as Hs. unfold series_sum in Hs.
  rewrite filter_nan_fin in Hs. rewrite Hs, length_map.
  destruct l as [| x l]; [now elim Hne |].
  cbn [map]. apply fdiv_fin. apply not_0_INR. simpl. discriminate.
Qed.

(** Dividing by a zero sum never yields a finite number. *)
Lemma fdiv_zero_not_finite (a : float) : ~ is_finite (fdiv a (Fin 0)).
Proof.
  intros [r Hr]. destruct a as [x | | |]; simpl in Hr.
  - same_real. unfold signed_inf in Hr.
    destruct (Req_dec_T x 0); [discriminate |].
    destruct (Rlt_dec 0 x); discriminate.
  - destruct (Rlt_dec 0 0); discriminate.
  - destruct (Rlt_dec 0 0); discriminate.
  - discriminate.
Qed.

Lemma df_tort_two_branches :
  df_tort two_branches default_length_threshold = rows two_branches.
Proof.
  unfold two_branches, default_length_threshold.
  rewrite !df_tort_cons, df_tort_nil, !euclid_straight by lra.
  destruct (Rlt_dec (1 / 1000000) 10) as [_ | N]; [| exfalso; lra].
  destruct (Rlt_dec (1 / 1000000) 5) as [_ | N]; [| exfalso; lra].
  reflexivity.
Qed.

Lemma tortuosity_straight (len path : R) :
  0 < len -> tortuosity (straight len path) = Fin (path / len).
Proof.
  intros Hl. unfold tortuosity. rewrite euclid_straight by lra.
  simpl. apply fdiv_fin. lra.
Qed.

(** C6.  A branch kept by the length filter (with a threshold that is not
    negative) has tortuosity path_length / euclidean_length, a finite
    number: exactly 1 when the two lengths agree, above 1 when the path is
    longer, and below 1, unclamped, when the path is shorter. *)
Theorem retained_tortuosity_ratio (df : DataFrame) (thr : R) (b : branch) :
  0 <= thr ->
  In b (df_tort df thr) ->
  tortuosity b = Fin (branch_distance b / euclid_length b)
  /\ (branch_distance b = euclid_length b -> tortuosity b = Fin 1)
  /\ (euclid_length b < branch_distance b ->
      exists t, tortuosity b = Fin t /\ 1 < t)
  /\ (branch_distance b < euclid_length b ->
      exists t, tortuosity b = Fin t /\ t < 1).
Proof.
  intros Hthr Hb. apply df_tort_In in Hb as [_ He].
  assert (Hpos : 0 < euclid_length b) by lra.
  assert (Ht : tortuosity b = Fin (branch_distance b / euclid_length b)).
  { unfold tortuosity. apply fdiv_fin. lra. }
  split; [exact Ht |]. split; [| split].
  - intros E. rewrite Ht, E. f_equal. field. lra.
  - intros Hlt. eexists; split; [exact Ht |].
    apply Rmult_lt_reg_r with (euclid_length b); [exact Hpos |].
    unfold Rdiv. rewrite Rmult_assoc, Rinv_l by lra. lra.
  - intros Hlt. eexists; split; [exact Ht |].
    apply Rmult_lt_reg_r with (euclid_length b); [exact Hpos |].
    unfold Rdiv. rewrite Rmult_assoc, Rinv_l by lra. lra.
Qed.

Lemma retained_tortuosity_ratio_witness :
  tortuosity (straight 5 10) = Fin (10 / euclid_length (straight 5 10))
  /\ exists t, tortuosity (straight 5 10) = Fin t /\ 1 < t.
Proof.
  assert (H0 : 0 <= default_length_threshold)
    by (unfold default_length_threshold; lra).
  assert (Hin : In (straight 5 10)
                   (df_tort two_branches default_length_threshold)).
  { rewrite df_tort_two_branches. right; left; reflexivity. }
  destruct (retained_tortuosity_ratio two_branches default_length_threshold
              (straight 5 10) H0 Hin) as (Ht & _ & Hgt & _).
  split; [exact Ht |].
  apply Hgt. rewrite euclid_straight by lra. simpl. lra.
Defined.

(** C7.  The two-branch table (0,0,0)-(0,0,10) with path length 10 and
    (0,0,0)-(0,0,5) with path length 10 has tortuosities 1 and 2, mean
    tortuosity 1.5 and weighted tortuosity 1.5. *)
Theorem two_branches_scenario :
  map tortuosity (df_tort two_branches default_length_threshold)
    = [Fin 1; Fin 2]
  /\ compute_tortuosity two_branches default_length_threshold
    = Ok (Fin (3 / 2), Fin (3 / 2)).
Proof.
  assert (H1 : tortuosity (straight 10 10) = Fin 1).
  { rewrite tortuosity_straight by lra. f_equal. field. }
  assert (H2 : tortuosity (straight 5 10) = Fin 2).
  { rewrite tortuosity_straight by lra. f_equal. field. }
  unfold compute_tortuosity. rewrite df_tort_two_branches.
  unfold two_branches. cbn [rows map]. rewrite H1, H2.
  split; [reflexivity |].
  cbn [branch_distance straight fmul].
  change [Fin 1; Fin 2] with (map Fin [1; 2]).
  change [Fin (10 * 1); Fin (10 * 2)] with (map Fin [10 * 1; 10 * 2]).
  change [Fin 10; Fin 10] with (map Fin [10; 10]).
  rewrite !series_sum_fin, series_mean_fin by discriminate.
  cbn [fold_right length]. rewrite fdiv_fin by lra.
  do 2 f_equal; f_equal; simpl; field.
Qed.

(** C3, refuted as stated.  A table whose only branch is a closed loop
    (coincident end points, path length 5): no branch survives the filter,
    the retained path lengths sum to zero, and nothing is raised: the pair
    (NaN, NaN) is returned. *)
Lemma filtered_out_table_returns_nan :
  df_tort (Float64 [straight 0 5]) default_length_threshold = []
  /\ compute_tortuosity (Float64 [straight 0 5]) default_length_threshold
     = Ok (NaN, NaN)
  /\ ~ raises (compute_tortuosity (Float64 [straight 0 5])
                                  default_length_threshold).
Proof.
  assert (Hrows : df_tort (Float64 [straight 0 5]) default_length_threshold
                  = []).
  { unfold default_length_threshold.
    rewrite !df_tort_cons, df_tort_nil, !euclid_straight by lra.
    destruct (Rlt_dec (1 / 1000000) 0) as [C | _];
      [exfalso; lra | reflexivity]. }
  assert (E : compute_tortuosity (Float64 [straight 0 5])
                                 default_length_threshold
              = Ok (NaN, NaN)).
  { unfold compute_tortuosity. rewrite Hrows.
    unfold series_sum, series_mean. simpl.
    same_real. now rewrite signed_inf_zero. }
  split; [exact Hrows |]. split; [exact E |].
  rewrite E. intros [e He]. discriminate.
Qed.

(** C3, amended.  On a table with float64 columns [compute_tortuosity]
    never raises.  When no branch survives the length filter both results
    are NaN; when the retained path lengths are not negative and sum to
    zero the weighted result is not a finite number (NaN or an infinity).
    On the table without rows whose columns have dtype object the
    division of line 19 raises ZeroDivisionError. *)
Theorem degenerate_table_not_reported (branches : list branch) (thr : R) :
  (exists m w,
     compute_tortuosity (Float64 branches) thr = Ok (m, w)
     /\ (df_tort (Float64 branches) thr = [] -> m = NaN /\ w = NaN)
     /\ ((forall b, In b (df_tort (Float64 branches) thr) ->
            0 <= branch_distance b) ->
         fold_right Rplus 0
           (map branch_distance (df_tort (Float64 branches) thr)) = 0 ->
         ~ is_finite w))
  /\ compute_tortuosity EmptyObject thr = Raise ZeroDivisionError.
Proof.
  split; [| reflexivity].
  unfold compute_tortuosity. do 2 eexists. split; [reflexivity |]. split.
  - intros E. rewrite E. unfold series_sum, series_mean. simpl.
    same_real. now rewrite signed_inf_zero.
  - intros _ Hz.
    rewrite <- (map_map branch_distance Fin), series_sum_fin, Hz.
    apply fdiv_zero_not_finite.
Qed.

(** Two closed loops: nothing is retained. *)
Lemma degenerate_table_not_reported_witness :
  exists m w,
    compute_tortuosity (Float64 [straight 0 5; straight 0 7])
                       default_length_threshold = Ok (m, w)
    /\ m = NaN /\ w = NaN /\ ~ is_finite w.
Proof.
  assert (Hrows : df_tort (Float64 [straight 0 5; straight 0 7])
                          default_length_threshold = []).
  { unfold default_length_threshold.
    rewrite !df_tort_cons, df_tort_nil, !euclid_straight by lra.
    destruct (Rlt_dec (1 / 1000000) 0) as [C | _];
      [exfalso; lra | reflexivity]. }
  destruct (proj1 (degenerate_table_not_reported
                     [straight 0 5; straight 0 7] default_length_threshold))
    as (m & w & E & Hempty & Hzero).
  exists m, w. split; [exact E |].
  destruct (Hempty Hrows) as [Hm Hw].
  split; [exact Hm |]. split; [exact Hw |].
  apply Hzero; rewrite Hrows; [intros b [] | reflexivity].
Defined.

End TortuosityFacts.

(** ** The fractal-dimension estimator *)

Module FractalFacts.
Import Fractal Examples.

Lemma flat_map_ext_in {A B} (f g : A -> list B) (l : list A) :
  (forall x, In x l -> f x = g x) -> flat_map f l = flat_map g l.
Proof.
  induction l as [| x l IH]; intros H; [reflexivity |].
  simpl. rewrite (H x) by now left.
  f_equal. apply IH. intros y Hy. apply H. now right.
Qed.

Lemma raises_bind {A B} (m : outcome A) (k : A -> outcome B) :
  raises m -> raises (bind m k).
Proof. intros [e ->]. now exists e. Qed.

Lemma mapM_raises_head {A B} (f : A -> outcome B) (x : A) (l : list A) :
  raises (f x) -> raises (mapM f (x :: l)).
Proof. intros H. simpl. now apply raises_bind. Qed.

Lemma mapM_length {A B} (f : A -> outcome B) (l : list A) (r : list B) :
  mapM f l = Ok r -> length r = length l.
Proof.
  revert r. induction l as [| x l IH]; intros r H; simpl in H.
  - now inversion H.
  - destruct (f x) as [y |]; [| discriminate]. simpl in H.
    destruct (mapM f l) as [ys |]; [| discriminate]. simpl in H.
    inversion H; subst. simpl. f_equal. now apply IH.
Qed.

(** *** The array is read only through its shape and its cells above zero *)

Lemma voxels_of_ext (a b : ndarray) :
  shape a = shape b ->
  (forall x y z,
      (x < fst (fst (shape a)))%nat ->
      (y < snd (fst (shape a)))%nat ->
      (z < snd (shape a))%nat ->
      (0 < item a x y z <-> 0 < item b x y z)) ->
  voxels_of a = voxels_of b.
Proof.
  intros Hs Hc. unfold voxels_of. rewrite <- Hs.
  destruct (shape a) as [[d0 d1] d2]. simpl in Hc.
  apply flat_map_ext_in. intros x Hx. apply in_seq in Hx.
  apply flat_map_ext_in. intros y Hy. apply in_seq in Hy.
  apply flat_map_ext_in. intros z Hz. apply in_seq in Hz.
  specialize (Hc x y z ltac:(lia) ltac:(lia) ltac:(lia)).
  destruct (0 <? item a x y z) eqn:Ea, (0 <? item b x y z) eqn:Eb;
    try reflexivity.
  - apply Z.ltb_lt in Ea. apply Z.ltb_ge in Eb. apply Hc in Ea. lia.
  - apply Z.ltb_lt in Eb. apply Z.ltb_ge in Ea. apply Hc in Eb. lia.
Qed.

(** C10.  Two arrays of the same shape whose cells above zero coincide
    give the same result (the same number, or the same exception) for the
    same parameters. *)
Theorem same_occupancy_same_result (a b : ndarray) (max_box_size : option Z)
    (min_box_size : Z) (n_samples n_offsets : nat) :
  shape a = shape b ->
  (forall x y z,
      (x < fst (fst (shape a)))%nat ->
      (y < snd (fst (shape a)))%nat ->
      (z < snd (shape a))%nat ->
      (0 < item a x y z <-> 0 < item b x y z)) ->
  fractal_dimension_3D a max_box_size min_box_size n_samples n_offsets
  = fractal_dimension_3D b max_box_size min_box_size n_samples n_offsets.
Proof.
  intros Hs Hc.
  unfold fractal_dimension_3D, fit_input, scale_sequence, min_shape.
  rewrite (voxels_of_ext a b Hs Hc), Hs. reflexivity.
Qed.

Lemma origin_voxel_cells (v : Z) (x y z : nat) :
  0 < v ->
  (0 < item (at_cells 8 [(0, 0, 0)%nat] v) x y z <-> (x = 0 /\ y = 0 /\ z = 0)%nat).
Proof.
  intros Hv. simpl.
  destruct x, y, z; simpl; split; intros H; try lia; try (now repeat split);
    destruct H as (? & ? & ?); discriminate.
Qed.

Lemma same_occupancy_same_result_witness :
  fractal_dimension_3D origin_voxel None 1 20 0
  = fractal_dimension_3D origin_voxel_label None 1 20 0.
Proof.
  apply same_occupancy_same_result.
  - reflexivity.
  - intros x y z _ _ _. unfold origin_voxel, origin_voxel_label.
    rewrite !origin_voxel_cells by lia. reflexivity.
Defined.

(** *** Degenerate volumes *)

Lemma offsets_of_nonempty (n_offsets : nat) (scale : Z) :
  offsets_of n_offsets scale <> [].
Proof.
  destruct n_offsets as [| [| d]]; simpl; discriminate.
Qed.

(** With no occupied voxel the histogram refuses its sample (or the bin
    edges could not be built): every evaluation of an offset raises. *)
Lemma touched_at_empty (shp : nat * nat * nat) (scale : Z) (offset : Q) :
  raises (touched_at shp [] scale offset).
Proof.
  destruct shp as [[d0 d1] d2]. unfold touched_at.
  destruct (bin_edges d0 scale offset) as [ex | e]; [| now exists e].
  destruct (bin_edges d1 scale offset) as [ey | e]; [| now exists e].
  destruct (bin_edges d2 scale offset) as [ez | e]; [| now exists e].
  now exists ValueError.
Qed.

Lemma min_counts_empty (shp : nat * nat * nat) (n_offsets : nat)
    (scales : list Z) :
  raises (min_counts shp [] n_offsets scales).
Proof.
  unfold min_counts. destruct scales as [| s scales].
  - now exists AxisError.
  - apply raises_bind, mapM_raises_head. unfold touched_row.
    destruct (offsets_of n_offsets s) as [| o os] eqn:E.
    + now apply offsets_of_nonempty in E.
    + apply mapM_raises_head, touched_at_empty.
Qed.

Lemma polyfit1_single (x y : R) :
  x <> 0%R -> Np.polyfit1 [x] [y] = Ok ((y / (2 * x))%R, (y / 2)%R).
Proof.
  intros Hx. unfold Np.polyfit1, Np.Rsum. cbn [length Nat.eqb negb map combine fold_right fst snd INR].
  destruct (Req_dec_T _ 0) as [_ | N].
  - destruct (Req_dec_T x 0) as [E | _]; [contradiction |].
    f_equal. f_equal; field. exact Hx.
  - exfalso. apply N. ring.
Qed.

Lemma ln_inv_scale_neq_0 (s : Z) : 1 < s -> ln (1 / IZR s) <> 0%R.
Proof.
  intros Hs. assert (H1 : (1 < IZR s)%R) by now apply IZR_lt.
  apply ln_neq_0.
  - intros E. apply (f_equal (fun u => (u * IZR s)%R)) in E.
    unfold Rdiv in E. rewrite Rmult_assoc, Rinv_l in E by lra. lra.
  - apply Rdiv_lt_0_compat; lra.
Qed.

Lemma fit_input_origin_voxel :
  fit_input origin_voxel None 1 20 0 = Ok ([2], [1]).
Proof. vm_compute. reflexivity. Qed.

(** C2, refuted as stated.  For the single occupied voxel at the origin of
    an 8 x 8 x 8 grid every tested scale (2 .. 8) has box count 1, the
    reduction leaves the single point (2, 1), and the fit returns the
    slope 0: nothing is raised. *)
Lemma origin_voxel_returns_slope :
  (bind (scale_sequence origin_voxel None 1 20)
        (min_counts (shape origin_voxel) (voxels_of origin_voxel) 0)
   = Ok [1; 1; 1; 1; 1; 1; 1])
  /\ fit_input origin_voxel None 1 20 0 = Ok ([2], [1])
  /\ fractal_dimension_3D origin_voxel None 1 20 0 = Ok 0%R
  /\ ~ raises (fractal_dimension_3D origin_voxel None 1 20 0).
Proof.
  assert (E : fractal_dimension_3D origin_voxel None 1 20 0 = Ok 0%R).
  { unfold fractal_dimension_3D. rewrite fit_input_origin_voxel.
    cbn [bind fst snd map].
    rewrite polyfit1_single by (apply ln_inv_scale_neq_0; lia).
    cbn [bind fst]. f_equal. rewrite ln_1. unfold Rdiv. ring. }
  split; [vm_compute; reflexivity |].
  split; [exact fit_input_origin_voxel |].
  split; [exact E |].
  rewrite E. intros [e He]. discriminate.
Qed.

(** C2, amended.  A volume with no occupied voxel, and any volume for which
    no (scale, count) point survives the reduction, makes
    [fractal_dimension_3D] raise.  When exactly one point [(s, c)] survives,
    with [s > 1], nothing is raised: the rank-deficient fit returns the
    number [ln c / (2 ln (1/s))]. *)
Theorem degenerate_volume_outcome (a : ndarray) (max_box_size : option Z)
    (min_box_size : Z) (n_samples n_offsets : nat) :
  (voxels_of a = [] ->
   raises (fractal_dimension_3D a max_box_size min_box_size n_samples n_offsets))
  /\ (forall Ns,
        fit_input a max_box_size min_box_size n_samples n_offsets = Ok ([], Ns) ->
        raises (fractal_dimension_3D a max_box_size min_box_size
                                     n_samples n_offsets))
  /\ (forall s c,
        fit_input a max_box_size min_box_size n_samples n_offsets
          = Ok ([s], [c]) ->
        1 < s ->
        fractal_dimension_3D a max_box_size min_box_size n_samples n_offsets
          = Ok (ln (IZR c) / (2 * ln (1 / IZR s)))%R).
Proof.
  split; [| split].
  - intros Hv. unfold fractal_dimension_3D, fit_input. rewrite Hv.
    apply raises_bind.
    destruct (scale_sequence a max_box_size min_box_size n_samples)
      as [scales | e]; [| now exists e].
    cbn [bind]. apply raises_bind, min_counts_empty.
  - intros Ns H. unfold fractal_dimension_3D. rewrite H. now exists TypeError.
  - intros s c H Hs. unfold fractal_dimension_3D. rewrite H.
    cbn [bind fst snd map].
    rewrite polyfit1_single by now apply ln_inv_scale_neq_0.
    reflexivity.
Qed.

Lemma degenerate_volume_outcome_witness :
  raises (fractal_dimension_3D empty_volume None 1 20 0)
  /\ fractal_dimension_3D origin_voxel None 1 20 0
     = Ok (ln (IZR 1) / (2 * ln (1 / IZR 2)))%R.
Proof.
  split.
  - apply (degenerate_volume_outcome empty_volume None 1 20 0).
    vm_compute. reflexivity.
  - apply (degenerate_volume_outcome origin_voxel None 1 20 0).
    + vm_compute. reflexivity.
    + lia.
Defined.

(** *** [np.unique] *)

Lemma insert_unique_In (x y : Z) (l : list Z) :
  In x (Np.insert_unique y l) <-> x = y \/ In x l.
Proof.
  induction l as [| z l IH]; simpl.
  - intuition.
  - destruct (y <? z) eqn:E1; [simpl; intuition |].
    destruct (y =? z) eqn:E2.
    + apply Z.eqb_eq in E2. subst. simpl. intuition.
    + simpl. rewrite IH. intuition.
Qed.

Lemma insert_unique_sorted (y : Z) (l : list Z) :
  StronglySorted Z.lt l -> StronglySorted Z.lt (Np.insert_unique y l).
Proof.
  induction 1 as [| z l Hl IH Hz]; simpl.
  - constructor; constructor.
  - destruct (y <? z) eqn:E1.
    + apply Z.ltb_lt in E1. constructor.
      * now constructor.
      * constructor; [exact E1 |].
        eapply Forall_impl; [| exact Hz]. intros; simpl in *; lia.
    + destruct (y =? z) eqn:E2; [now constructor |].
      apply Z.ltb_ge in E1. apply Z.eqb_neq in E2.
      constructor; [exact IH |].
      apply Forall_forall. intros u Hu.
      apply insert_unique_In in Hu as [-> | Hu]; [lia |].
      rewrite Forall_forall in Hz. now apply Hz.
Qed.

Lemma unique_In (x : Z) (l : list Z) : In x (Np.unique l) <-> In x l.
Proof.
  induction l as [| y l IH]; simpl; [reflexivity |].
  rewrite insert_unique_In, IH. intuition.
Qed.

Lemma unique_sorted (l : list Z) : StronglySorted Z.lt (Np.unique l).
Proof.
  induction l as [| y l IH]; simpl; [constructor |].
  now apply insert_unique_sorted.
Qed.

(** A strictly ascending list is determined by its elements. *)
Lemma sorted_lt_ext (l1 l2 : list Z) :
  StronglySorted Z.lt l1 -> StronglySorted Z.lt l2 ->
  (forall x, In x l1 <-> In x l2) -> l1 = l2.
Proof.
  intros H1. revert l2. induction H1 as [| a l1 Hl1 IH Ha]; intros l2 H2 Hin.
  - destruct l2 as [| b l2]; [reflexivity |].
    exfalso. apply (proj2 (Hin b)). now left.
  - destruct H2 as [| b l2 Hl2 Hb].
    + exfalso. apply (proj1 (Hin a)). now left.
    + rewrite Forall_forall in Ha, Hb.
      assert (a = b).
      { destruct (proj1 (Hin a) (or_introl eq_refl)) as [E | Hab]; [now symmetry |].
        destruct (proj2 (Hin b) (or_introl eq_refl)) as [E | Hba]; [exact E |].
        specialize (Ha _ Hba). specialize (Hb _ Hab). lia. }
      subst b. f_equal. apply IH; [exact Hl2 |].
      intros x. split; intros Hx.
      * destruct (proj1 (Hin x) (or_intror Hx)) as [E | ?]; [| assumption].
        subst x. specialize (Ha _ Hx). lia.
      * destruct (proj2 (Hin x) (or_intror Hx)) as [E | ?]; [| assumption].
        subst x. specialize (Hb _ Hx). lia.
Qed.

Lemma unique_fixed (l : list Z) : StronglySorted Z.lt l -> Np.unique l = l.
Proof.
  intros H. apply sorted_lt_ext; [apply unique_sorted | exact H |].
  intros x. apply unique_In.
Qed.

Lemma sorted_filter {A} (R : A -> A -> Prop) (f : A -> bool) (l : list A) :
  StronglySorted R l -> StronglySorted R (filter f l).
Proof.
  induction 1 as [| a l Hl IH Ha]; simpl; [constructor |].
  destruct (f a); [| exact IH].
  constructor; [exact IH |].
  rewrite Forall_forall in *. intros x Hx. apply filter_In in Hx. now apply Ha.
Qed.

Lemma sorted_lt_NoDup (l : list Z) : StronglySorted Z.lt l -> NoDup l.
Proof.
  induction 1 as [| a l Hl IH Ha]; constructor; [| exact IH].
  intros Hin. rewrite Forall_forall in Ha. specialize (Ha _ Hin). lia.
Qed.

Lemma filter_fixed {A} (f : A -> bool) (l : list A) :
  filter f (filter f l) = filter f l.
Proof.
  induction l as [| a l IH]; simpl; [reflexivity |].
  destruct (f a) eqn:E; simpl; [rewrite E; now f_equal | exact IH].
Qed.

(** *** Idempotence of the reduction *)

Lemma mask_select_app (a1 a2 : list Z) (m1 m2 : list bool) :
  length a1 = length m1 ->
  Np.mask_select (a1 ++ a2) (m1 ++ m2)
  = (r1 <- Np.mask_select a1 m1 ;;
     r2 <- Np.mask_select a2 m2 ;;
     Ok (r1 ++ r2)).
Proof.
  revert m1. induction a1 as [| x a1 IH]; intros [| b m1] H; simpl in H;
    try discriminate.
  - simpl. now destruct (Np.mask_select a2 m2).
  - simpl. rewrite IH by lia.
    destruct (Np.mask_select a1 m1) as [r1 |]; [| reflexivity]. simpl.
    destruct (Np.mask_select a2 m2) as [r2 |]; [| reflexivity]. simpl.
    now destruct b.
Qed.

Lemma mask_select_none (x : Z) (a N : list Z) :
  length a = length N -> ~ In x N ->
  Np.mask_select a (map (Z.eqb x) N) = Ok [].
Proof.
  revert N. induction a as [| y a IH]; intros [| n N] H Hn; simpl in H;
    try discriminate; [reflexivity |].
  simpl. rewrite IH; [| lia | intros C; apply Hn; now right].
  simpl. destruct (x =? n) eqn:E; [| reflexivity].
  apply Z.eqb_eq in E. exfalso. apply Hn. now left.
Qed.

(** With distinct counts the mask of a count selects the one scale at its
    position. *)
Lemma select_each (pre_s pre_N s N : list Z) :
  length pre_s = length pre_N -> length s = length N ->
  NoDup (pre_N ++ N) ->
  mapM (fun x =>
          sel <- Np.mask_select (pre_s ++ s) (map (Z.eqb x) (pre_N ++ N)) ;;
          Np.min sel) N
  = Ok s.
Proof.
  revert pre_s pre_N s.
  induction N as [| x N IH]; intros pre_s pre_N [| y s] Hp Hl Hnd;
    simpl in Hl; try discriminate; [reflexivity |].
  cbn [mapM].
  assert (Hx : ~ In x (pre_N ++ N)) by now apply NoDup_remove_2.
  rewrite map_app, mask_select_app by now rewrite length_map.
  rewrite mask_select_none; [| exact Hp | intros C; apply Hx, in_or_app; now left].
  cbn [bind map Np.mask_select]. rewrite Z.eqb_refl.
  rewrite mask_select_none; [| lia | intros C; apply Hx, in_or_app; now right].
  cbn [bind app Np.min fold_left].
  replace (pre_s ++ y :: s) with ((pre_s ++ [y]) ++ s)
    by (rewrite <- app_assoc; reflexivity).
  replace (pre_N ++ x :: N) with ((pre_N ++ [x]) ++ N)
    by (rewrite <- app_assoc; reflexivity).
  rewrite IH; [reflexivity | | lia |].
  - rewrite !length_app. simpl. lia.
  - rewrite <- app_assoc. exact Hnd.
Qed.

Lemma reduce_fixed_point (scales Ns scales' Ns' : list Z) :
  reduce scales Ns = Ok (scales', Ns') ->
  reduce scales' Ns' = Ok (scales', Ns').
Proof.
  unfold reduce. intros H.
  destruct (mapM _ (Np.unique Ns)) as [scales1 |] eqn:E; [| discriminate].
  cbn [bind] in H. inversion H as [[Hs HN]]. clear H.
  apply mapM_length in E.
  set (N2 := filter (fun n => 0 <? n) (Np.unique Ns)) in *.
  assert (Hsorted : StronglySorted Z.lt N2)
    by (apply sorted_filter, unique_sorted).
  assert (Hlen : length (firstn (length N2) scales1) = length N2).
  { apply firstn_length_le. rewrite E. apply filter_length_le. }
  rewrite (unique_fixed N2 Hsorted).
  pose proof (select_each [] [] (firstn (length N2) scales1) N2 eq_refl Hlen
                (sorted_lt_NoDup N2 Hsorted)) as Hsel.
  cbn [app] in Hsel. rewrite Hsel. cbn [bind].
  unfold N2 at 1 3. rewrite filter_fixed. fold N2.
  rewrite <- Hlen at 1. now rewrite firstn_all.
Qed.

Lemma mask_select_returns (a : list Z) (m : list bool) :
  length a = length m -> returns (Np.mask_select a m).
Proof.
  revert m. induction a as [| y a IH]; intros [| b m] H; simpl in H;
    try discriminate; [now exists [] |].
  destruct (IH m ltac:(lia)) as [r Hr]. simpl. rewrite Hr. now eexists.
Qed.

Lemma mask_select_hit (x : Z) (a N : list Z) :
  length a = length N -> In x N ->
  exists y r, Np.mask_select a (map (Z.eqb x) N) = Ok (y :: r).
Proof.
  revert N. induction a as [| y a IH]; intros [| n N] H Hin; simpl in H;
    try discriminate; [contradiction |].
  simpl. destruct (x =? n) eqn:E.
  - destruct (mask_select_returns a (map (Z.eqb x) N)) as [r Hr];
      [rewrite length_map; lia |].
    rewrite Hr. simpl. now exists y, r.
  - destruct Hin as [-> | Hin]; [now rewrite Z.eqb_refl in E |].
    destruct (IH N ltac:(lia) Hin) as (y' & r & ->).
    simpl. now exists y', r.
Qed.

Lemma mapM_returns {A B} (f : A -> outcome B) (l : list A) :
  (forall x, In x l -> returns (f x)) -> returns (mapM f l).
Proof.
  induction l as [| x l IH]; intros H; [now exists [] |].
  destruct (H x (or_introl eq_refl)) as [y Hy].
  destruct IH as [ys Hys]; [intros z Hz; apply H; now right |].
  exists (y :: ys). simpl. now rewrite Hy, Hys.
Qed.

(** On arrays of equal length, as [scales] and [Ns] are in
    [fractal_dimension_3D], the reduction raises nothing. *)
Lemma reduce_returns (scales Ns : list Z) :
  length scales = length Ns -> returns (reduce scales Ns).
Proof.
  intros Hlen. unfold reduce.
  destruct (mapM_returns
              (fun x => sel <- Np.mask_select scales (map (Z.eqb x) Ns) ;;
                        Np.min sel) (Np.unique Ns)) as [r Hr].
  - intros x Hx. apply (proj1 (unique_In x Ns)) in Hx.
    destruct (mask_select_hit x scales Ns Hlen Hx) as (y & t & ->).
    now eexists.
  - rewrite Hr. now eexists.
Qed.

(** C9.  The reduction is idempotent.  On one count per scale it returns
    a point set [(scales', Ns')], and applied to its own output it returns
    that point set unchanged. *)
Theorem reduce_idempotent (scales Ns : list Z) :
  length scales = length Ns ->
  exists scales' Ns',
    reduce scales Ns = Ok (scales', Ns')
    /\ reduce scales' Ns' = Ok (scales', Ns').
Proof.
  intros Hlen. destruct (reduce_returns scales Ns Hlen) as [[s' N'] H].
  exists s', N'. split; [exact H |]. now apply reduce_fixed_point in H.
Qed.

Lemma reduce_idempotent_witness :
  exists scales' Ns',
    reduce [2; 3; 4; 5; 6; 7; 8] [1; 2; 1; 1; 1; 1; 0] = Ok (scales', Ns')
    /\ reduce scales' Ns' = Ok (scales', Ns').
Proof.
  apply (reduce_idempotent [2; 3; 4; 5; 6; 7; 8] [1; 2; 1; 1; 1; 1; 0]).
  reflexivity.
Defined.

(** *** What the reduction hands to the fit *)

Lemma mapM_Forall2 {A B} (f : A -> outcome B) (l : list A) (r : list B) :
  mapM f l = Ok r -> Forall2 (fun x y => f x = Ok y) l r.
Proof.
  revert r. induction l as [| x l IH]; intros r H; simpl in H.
  - inversion H. constructor.
  - destruct (f x) as [y |] eqn:Ef; [| discriminate]. simpl in H.
    destruct (mapM f l) as [ys |]; [| discriminate]. simpl in H.
    inversion H; subst. constructor; [exact Ef | now apply IH].
Qed.

Lemma mask_select_In (a N : list Z) (x : Z) (sel : list Z) (t : Z) :
  Np.mask_select a (map (Z.eqb x) N) = Ok sel ->
  (In t sel <-> In (t, x) (combine a N)).
Proof.
  revert N sel. induction a as [| y a IH]; intros [| n N] sel H; simpl in H;
    try discriminate.
  - inversion H. reflexivity.
  - destruct (Np.mask_select a (map (Z.eqb x) N)) as [r |] eqn:Er;
      [| discriminate].
    simpl in H. inversion H; subst. specialize (IH N r Er). simpl.
    destruct (x =? n) eqn:E.
    + apply Z.eqb_eq in E. subst n. simpl. rewrite IH. split.
      * intros [-> | Hin]; [now left | now right].
      * intros [Heq | Hin]; [inversion Heq; now left | now right].
    + apply Z.eqb_neq in E. rewrite IH. split.
      * intros Hin. now right.
      * intros [Heq | Hin]; [inversion Heq; congruence | exact Hin].
Qed.

Lemma fold_min_spec (l : list Z) (x : Z) :
  (fold_left Z.min l x = x \/ In (fold_left Z.min l x) l)
  /\ fold_left Z.min l x <= x
  /\ forall t, In t l -> fold_left Z.min l x <= t.
Proof.
  revert x. induction l as [| y l IH]; intros x; simpl.
  - split; [now left |]. split; [lia | contradiction].
  - destruct (IH (Z.min x y)) as (Hin & Hle & Hall).
    split; [| split].
    + destruct Hin as [E | Hin]; [| right; now right].
      rewrite E. destruct (Z.min_spec x y) as [[_ ->] | [_ ->]];
        [now left | right; now left].
    + lia.
    + intros t [<- | Ht]; [lia | now apply Hall].
Qed.

Lemma np_min_spec (l : list Z) (m : Z) :
  Np.min l = Ok m -> In m l /\ forall t, In t l -> m <= t.
Proof.
  destruct l as [| x l]; simpl; intros H; [discriminate |].
  inversion H; subst. destruct (fold_min_spec l x) as (Hin & Hle & Hall).
  split.
  - destruct Hin as [-> | Hin]; [now left | now right].
  - intros t [<- | Ht]; [exact Hle | now apply Hall].
Qed.

Lemma min_counts_length (shp : nat * nat * nat) (vox : list (Z * Z * Z))
    (n_offsets : nat) (scales Ns : list Z) :
  min_counts shp vox n_offsets scales = Ok Ns -> length Ns = length scales.
Proof.
  unfold min_counts. intros H.
  destruct (mapM (touched_row shp vox n_offsets) scales) as [rows |] eqn:E;
    [| discriminate].
  cbn [bind] in H. apply mapM_length in E.
  destruct rows as [| row rows]; [discriminate |].
  apply mapM_length in H. congruence.
Qed.

Lemma Forall2_right {A B} (R : A -> B -> Prop) (P : B -> Prop)
    (l : list A) (r : list B) :
  Forall2 R l r -> (forall x y, R x y -> P y) -> Forall P r.
Proof.
  intros H HP. induction H; constructor; eauto.
Qed.

Lemma touched_at_nonneg (shp : nat * nat * nat) (vox : list (Z * Z * Z))
    (s : Z) (o : Q) (c : Z) :
  touched_at shp vox s o = Ok c -> 0 <= c.
Proof.
  destruct shp as [[d0 d1] d2]. unfold touched_at. intros H.
  destruct (bin_edges d0 s o); [| discriminate].
  destruct (bin_edges d1 s o); [| discriminate].
  destruct (bin_edges d2 s o); [| discriminate].
  cbn [bind] in H. destruct (Np.histogramdd vox _ _ _); [| discriminate].
  cbn [bind] in H. inversion H. unfold Np.sum_positive. lia.
Qed.

(** A per-scale minimum count is never negative. *)
Lemma min_counts_nonneg (shp : nat * nat * nat) (vox : list (Z * Z * Z))
    (n_offsets : nat) (scales Ns : list Z) :
  min_counts shp vox n_offsets scales = Ok Ns -> Forall (fun c => 0 <= c) Ns.
Proof.
  unfold min_counts. intros H.
  destruct (mapM (touched_row shp vox n_offsets) scales) as [rows |] eqn:E;
    [| discriminate].
  cbn [bind] in H.
  assert (Hrows : Forall (Forall (fun c => 0 <= c)) rows).
  { apply mapM_Forall2 in E. eapply Forall2_right; [exact E |].
    intros s row Hrow. unfold touched_row in Hrow.
    apply mapM_Forall2 in Hrow. eapply Forall2_right; [exact Hrow |].
    intros o c. apply touched_at_nonneg. }
  assert (HF : Forall2 (fun row m => Np.min row = Ok m) rows Ns).
  { destruct rows as [| row rows]; [discriminate |].
    now apply mapM_Forall2 in H. }
  clear H E. induction HF as [| row m rows' Ns' Hm _ IH]; [constructor |].
  inversion Hrows as [| ? ? Hrow Hrest]; subst.
  constructor; [| now apply IH].
  apply np_min_spec in Hm as [Hin _].
  rewrite Forall_forall in Hrow. now apply Hrow.
Qed.

(** The points of the reduction: counts strictly ascending and positive;
    with no zero count, each count beside the smallest scale that has it. *)
Lemma reduce_points (scales Ns : list Z) :
  length scales = length Ns ->
  exists scales' Ns',
    reduce scales Ns = Ok (scales', Ns')
    /\ StronglySorted Z.lt Ns'
    /\ (forall c, In c Ns' <-> In c Ns /\ 0 < c)
    /\ length scales' = length Ns'
    /\ (Forall (fun c => 0 < c) Ns ->
        Forall2 (fun c s =>
                   In (s, c) (combine scales Ns)
                   /\ forall t, In (t, c) (combine scales Ns) -> s <= t)
                Ns' scales').
Proof.
  intros Hlen. unfold reduce.
  set (f := fun x => sel <- Np.mask_select scales (map (Z.eqb x) Ns) ;;
                     Np.min sel).
  destruct (mapM_returns f (Np.unique Ns)) as [scales1 H1].
  { intros x Hx. apply (proj1 (unique_In x Ns)) in Hx. unfold f.
    destruct (mask_select_hit x scales Ns Hlen Hx) as (y & t & ->).
    now eexists. }
  rewrite H1. cbn [bind]. do 2 eexists. split; [reflexivity |].
  pose proof (mapM_length _ _ _ H1) as L1.
  split; [apply sorted_filter, unique_sorted |].
  split.
  { intros c. rewrite filter_In, unique_In, Z.ltb_lt. reflexivity. }
  split.
  { apply firstn_length_le. rewrite L1. apply filter_length_le. }
  intros Hpos.
  assert (Hall : filter (fun n => 0 <? n) (Np.unique Ns) = Np.unique Ns).
  { apply forallb_filter_id, forallb_forall. intros c Hc.
    apply (proj1 (unique_In c Ns)) in Hc.
    rewrite Forall_forall in Hpos. apply Z.ltb_lt. now apply Hpos. }
  rewrite Hall, <- L1, firstn_all.
  apply mapM_Forall2 in H1.
  eapply Forall2_impl; [| exact H1].
  intros c s Hf. unfold f in Hf.
  destruct (Np.mask_select scales (map (Z.eqb c) Ns)) as [sel |] eqn:Es;
    [| discriminate].
  cbn [bind] in Hf. apply np_min_spec in Hf as [Hin Hmin].
  split.
  - now apply (mask_select_In scales Ns c sel s Es).
  - intros t Ht. apply Hmin. now apply (mask_select_In scales Ns c sel t Es).
Qed.

(** C1, refuted as stated.  (i) Two neighbouring voxels in an 8 x 8 x 8
    grid: the scales 2 .. 8 have the counts 1, 2, 1, 1, 1, 1, 0 and the fit
    receives (8, 1) and (2, 2): scale 8, whose count is zero, is kept, and
    neither count sits beside the smallest scale that produced it (2 for
    count 1, 3 for count 2).  (ii) A 2 x 2 x 2 block in an 11 x 11 x 11
    grid: the counts are 1, 4, 1, 2, 1, 1, 1 and the fit receives the scales
    2, 5, 3 beside the counts 1, 2, 4: ordered by count, not by scale. *)
Lemma fit_points_misaligned_or_unsorted :
  (scale_sequence two_voxels None 1 20 = Ok [2; 3; 4; 5; 6; 7; 8]
   /\ min_counts (shape two_voxels) (voxels_of two_voxels) 0
                 [2; 3; 4; 5; 6; 7; 8]
      = Ok [1; 2; 1; 1; 1; 1; 0]
   /\ fit_input two_voxels None 1 20 0 = Ok ([8; 2], [1; 2]))
  /\ (scale_sequence block None 1 20 = Ok [2; 3; 4; 5; 6; 7; 8]
      /\ min_counts (shape block) (voxels_of block) 0 [2; 3; 4; 5; 6; 7; 8]
         = Ok [1; 4; 1; 2; 1; 1; 1]
      /\ fit_input block None 1 20 0 = Ok ([2; 5; 3], [1; 2; 4])).
Proof.
  repeat split; vm_compute; reflexivity.
Qed.

(** C1, amended.  The (scale, count) pairs passed to the fit are ordered by
    count, strictly ascending, so there is one pair per distinct count;
    the counts are exactly the strictly positive per-scale minimum counts;
    and when no scale has the count zero, each count is paired with the
    smallest scale that produced it. *)
Theorem fit_input_points (a : ndarray) (max_box_size : option Z)
    (min_box_size : Z) (n_samples n_offsets : nat) (scales Ns : list Z) :
  scale_sequence a max_box_size min_box_size n_samples = Ok scales ->
  min_counts (shape a) (voxels_of a) n_offsets scales = Ok Ns ->
  exists scales' Ns',
    fit_input a max_box_size min_box_size n_samples n_offsets
      = Ok (scales', Ns')
    /\ StronglySorted Z.lt Ns'
    /\ (forall c, In c Ns' <-> In c Ns /\ 0 < c)
    /\ length scales' = length Ns'
    /\ (~ In 0 Ns ->
        Forall2 (fun c s =>
                   In (s, c) (combine scales Ns)
                   /\ forall t, In (t, c) (combine scales Ns) -> s <= t)
                Ns' scales').
Proof.
  intros Hs HN. unfold fit_input. rewrite Hs. cbn [bind]. rewrite HN.
  cbn [bind].
  destruct (reduce_points scales Ns) as (s' & N' & E & H1 & H2 & H3 & H4).
  { symmetry. now apply min_counts_length in HN. }
  exists s', N'. repeat (split; [assumption |]).
  intros Hz. apply H4.
  pose proof (min_counts_nonneg _ _ _ _ _ HN) as Hnn.
  rewrite Forall_forall in *. intros c Hc. specialize (Hnn c Hc).
  destruct (Z.eq_dec c 0) as [-> | Hne]; [contradiction | lia].
Qed.

Lemma fit_input_points_witness :
  exists scales' Ns',
    fit_input block None 1 20 0 = Ok (scales', Ns')
    /\ StronglySorted Z.lt Ns'
    /\ (forall c, In c Ns' <-> In c [1; 4; 1; 2; 1; 1; 1] /\ 0 < c)
    /\ length scales' = length Ns'
    /\ Forall2 (fun c s =>
                  In (s, c) (combine [2; 3; 4; 5; 6; 7; 8]
                                     [1; 4; 1; 2; 1; 1; 1])
                  /\ forall t, In (t, c) (combine [2; 3; 4; 5; 6; 7; 8]
                                                  [1; 4; 1; 2; 1; 1; 1]) ->
                               s <= t)
               Ns' scales'.
Proof.
  destruct (fit_input_points block None 1 20 0
              [2; 3; 4; 5; 6; 7; 8] [1; 4; 1; 2; 1; 1; 1])
    as (s' & N' & E & Hs & Hc & Hl & Hp).
  - vm_compute. reflexivity.
  - vm_compute. reflexivity.
  - exists s', N'. repeat (split; [assumption |]).
    apply Hp. simpl. intros H. repeat (destruct H as [H | H]; [discriminate |]).
    exact H.
Defined.

(** *** The scale generator *)

Lemma iroot_bits_spec (den target : Z) (b : nat) (r : Z) :
  0 < den -> 0 <= r ->
  r ^ den <= target < (r + 2 ^ Z.of_nat b) ^ den ->
  let k := Np.iroot_bits den target b r in
  0 <= k /\ k ^ den <= target < (k + 1) ^ den.
Proof.
  intros Hden. revert r. induction b as [| b IH]; intros r Hr H; simpl.
  - split; [exact Hr |]. exact H.
  - rewrite Nat2Z.inj_succ, Z.pow_succ_r in H by lia.
    assert (Hp : 0 < 2 ^ Z.of_nat b) by (apply Z.pow_pos_nonneg; lia).
    destruct ((r + 2 ^ Z.of_nat b) ^ den <=? target) eqn:E.
    + apply Z.leb_le in E. apply IH; [lia |].
      split; [exact E |].
      replace (r + 2 ^ Z.of_nat b + 2 ^ Z.of_nat b)
        with (r + 2 * 2 ^ Z.of_nat b) by ring.
      apply H.
    + apply Z.leb_gt in E. apply IH; [exact Hr |]. lia.
Qed.

(** [floor_pow2 q] is the integer part of [2 ** q]: with [q = num/den],
    it is the [k] with [k^den <= 2^num < (k+1)^den]. *)
Lemma floor_pow2_spec (q : Q) :
  0 <= Qnum q ->
  let k := Np.floor_pow2 q in
  0 <= k /\ k ^ Zpos (Qden q) <= 2 ^ Qnum q < (k + 1) ^ Zpos (Qden q).
Proof.
  intros Hnum. unfold Np.floor_pow2.
  destruct (Qnum q <? 0) eqn:E; [apply Z.ltb_lt in E; lia |].
  apply iroot_bits_spec; [lia | lia |].
  set (d := Zpos (Qden q)). set (n := Qnum q) in *.
  assert (Hd : 0 < d) by (unfold d; lia).
  assert (Hq : 0 <= n / d) by (apply Z.div_pos; lia).
  split.
  - rewrite Z.pow_0_l by lia. apply Z.pow_nonneg. lia.
  - rewrite Z.add_0_l, Nat2Z.inj_succ, Z2Nat.id by lia.
    rewrite <- Z.pow_mul_r by lia.
    apply Z.pow_lt_mono_r; [lia | nia |].
    pose proof (Z.mul_succ_div_gt n d Hd). lia.
Qed.

Lemma floor_pow2_nonneg (q : Q) : 0 <= Np.floor_pow2 q.
Proof.
  destruct (Z.lt_ge_cases (Qnum q) 0) as [H | H].
  - unfold Np.floor_pow2. apply Z.ltb_lt in H. now rewrite H.
  - now apply floor_pow2_spec.
Qed.

Lemma floor_pow2_mono (n1 n2 : Z) (d : positive) :
  n1 <= n2 -> Np.floor_pow2 (Qmake n1 d) <= Np.floor_pow2 (Qmake n2 d).
Proof.
  intros Hle. destruct (Z.lt_ge_cases n1 0) as [H | H].
  - unfold Np.floor_pow2 at 1. simpl Qnum. apply Z.ltb_lt in H. rewrite H.
    apply floor_pow2_nonneg.
  - destruct (floor_pow2_spec (Qmake n1 d) H) as (K1 & L1 & _).
    destruct (floor_pow2_spec (Qmake n2 d) ltac:(simpl; lia)) as (K2 & _ & U2).
    simpl Qnum in *. simpl Qden in *.
    destruct (Z.le_gt_cases (Np.floor_pow2 (Qmake n1 d))
                            (Np.floor_pow2 (Qmake n2 d))) as [? | C];
      [assumption | exfalso].
    assert (2 ^ n1 <= 2 ^ n2) by (apply Z.pow_le_mono_r; lia).
    assert ((Np.floor_pow2 (Qmake n2 d) + 1) ^ Zpos d
            <= Np.floor_pow2 (Qmake n1 d) ^ Zpos d)
      by (apply Z.pow_le_mono_l; lia).
    lia.
Qed.

Lemma map_seq_antitone (g : nat -> Z) (s n : nat) :
  (forall i j, (i <= j)%nat -> g j <= g i) ->
  StronglySorted (fun u v => v <= u) (map g (seq s n)).
Proof.
  intros Hg. revert s. induction n as [| n IH]; intros s; simpl;
    constructor; [apply IH |].
  apply Forall_forall. intros v Hv.
  apply in_map_iff in Hv as (j & <- & Hj). apply in_seq in Hj.
  apply Hg. lia.
Qed.

(** From the larger to the smaller exponent the floored values do not
    increase. *)
Lemma floor_logspace2_descending (start stop : Z) (num : nat) :
  stop <= start ->
  StronglySorted (fun u v => v <= u) (Np.floor_logspace2 start stop num).
Proof.
  intros Hle. unfold Np.floor_logspace2, Np.linspace.
  destruct num as [| [| d]].
  - constructor.
  - simpl. constructor; constructor.
  - rewrite map_map. apply map_seq_antitone.
    intros i j Hij. apply floor_pow2_mono. nia.
Qed.

Lemma floor_logspace2_length (start stop : Z) (num : nat) :
  length (Np.floor_logspace2 start stop num) = num.
Proof.
  unfold Np.floor_logspace2, Np.linspace.
  destruct num as [| [| d]]; [reflexivity | reflexivity |].
  now rewrite !length_map, length_seq.
Qed.

(** The values before deduplication: the [i]-th of [d + 2] samples is the
    integer part of [2 ** (start + i * (stop - start) / (d + 1))]. *)
Lemma floor_logspace2_values (start stop : Z) (d i : nat) (v : Z) :
  0 <= start -> 0 <= stop ->
  nth_error (Np.floor_logspace2 start stop (S (S d))) i = Some v ->
  0 <= v
  /\ v ^ Z.of_nat (S d)
     <= 2 ^ (start * Z.of_nat (S d) + Z.of_nat i * (stop - start))
     < (v + 1) ^ Z.of_nat (S d).
Proof.
  intros Hstart Hstop H.
  unfold Np.floor_logspace2, Np.linspace in H.
  rewrite map_map, nth_error_map in H.
  assert (Hi : (i < S (S d))%nat).
  { destruct (Nat.lt_ge_cases i (S (S d))) as [? | C]; [assumption |].
    rewrite (proj2 (nth_error_None _ _)) in H by (rewrite length_seq; lia).
    discriminate. }
  rewrite nth_error_seq in H.
  destruct (Nat.ltb i (S (S d))) eqn:E; [| apply Nat.ltb_ge in E; lia].
  cbn [option_map Nat.add] in H. inversion H as [Hv]. clear H.
  assert (HD : Zpos (Pos.of_succ_nat d) = Z.of_nat (S d))
    by (rewrite Zpos_P_of_succ_nat, Nat2Z.inj_succ; reflexivity).
  rewrite HD.
  set (q := Qmake (start * Z.of_nat (S d) + Z.of_nat i * (stop - start))
                  (Pos.of_succ_nat d)).
  assert (Hnum : 0 <= Qnum q).
  { unfold q. cbn [Qnum].
    replace (start * Z.of_nat (S d) + Z.of_nat i * (stop - start))
      with (start * (Z.of_nat (S d) - Z.of_nat i) + Z.of_nat i * stop) by ring.
    apply Z.add_nonneg_nonneg; apply Z.mul_nonneg_nonneg; lia. }
  pose proof (floor_pow2_spec q Hnum) as Hspec. cbv zeta in Hspec.
  unfold q in Hspec at 2 3 4 5. cbn [Qnum Qden] in Hspec.
  rewrite HD in Hspec. exact Hspec.
Qed.

Lemma dedup_In (x : Z) (l : list Z) : In x (Spec.dedup l) <-> In x l.
Proof.
  induction l as [| y l IH]; simpl; [reflexivity |].
  rewrite filter_In, IH. destruct (Z.eq_dec x y) as [-> | N].
  - intuition.
  - assert (negb (x =? y) = true)
      by (apply negb_true_iff, Z.eqb_neq; exact N).
    intuition.
Qed.

Lemma dedup_descending (l : list Z) :
  StronglySorted (fun u v => v <= u) l ->
  StronglySorted (fun u v => v < u) (Spec.dedup l).
Proof.
  induction 1 as [| x l Hl IH Hx]; simpl; constructor.
  - now apply sorted_filter.
  - rewrite Forall_forall in *. intros y Hy.
    apply filter_In in Hy as [Hy Hne].
    apply (proj1 (dedup_In y l)) in Hy. specialize (Hx _ Hy).
    apply negb_true_iff, Z.eqb_neq in Hne. lia.
Qed.

Lemma sorted_app {A} (R : A -> A -> Prop) (l1 l2 : list A) :
  StronglySorted R l1 -> StronglySorted R l2 ->
  (forall u v, In u l1 -> In v l2 -> R u v) ->
  StronglySorted R (l1 ++ l2).
Proof.
  induction 1 as [| a l1 Hl1 IH Ha]; intros H2 Hc; simpl; [exact H2 |].
  constructor.
  - apply IH; [exact H2 |]. intros u v Hu Hv. apply Hc; [now right | exact Hv].
  - apply Forall_app. split; [exact Ha |].
    apply Forall_forall. intros v Hv. apply Hc; [now left | exact Hv].
Qed.

Lemma sorted_rev {A} (R : A -> A -> Prop) (l : list A) :
  StronglySorted R l -> StronglySorted (fun u v => R v u) (rev l).
Proof.
  induction 1 as [| a l Hl IH Ha]; simpl; [constructor |].
  apply sorted_app; [exact IH | constructor; constructor |].
  intros u v Hu [<- | []]. apply in_rev in Hu.
  rewrite Forall_forall in Ha. now apply Ha.
Qed.

(** [np.unique] of a non-increasing array is its order-preserving
    deduplication read backwards. *)
Lemma unique_descending (l : list Z) :
  StronglySorted (fun u v => v <= u) l ->
  Np.unique l = rev (Spec.dedup l).
Proof.
  intros H. apply sorted_lt_ext.
  - apply unique_sorted.
  - apply (sorted_rev (fun u v => v < u)). now apply dedup_descending.
  - intros x. now rewrite unique_In, <- in_rev, dedup_In.
Qed.

(** C4, refuted as stated.  For an 8 x 8 x 8 volume and the default
    parameters the scales are 2, 3, ..., 8 in ascending order, whereas the
    deduplication that preserves the descending order gives 8, 7, ..., 2. *)
Lemma scales_are_ascending :
  scale_sequence origin_voxel None 1 20 = Ok [2; 3; 4; 5; 6; 7; 8]
  /\ Spec.scale_generator origin_voxel None 1 20 = [8; 7; 6; 5; 4; 3; 2]
  /\ scale_sequence origin_voxel None 1 20
     <> Ok (Spec.scale_generator origin_voxel None 1 20).
Proof.
  assert (E1 : scale_sequence origin_voxel None 1 20 = Ok [2; 3; 4; 5; 6; 7; 8])
    by (vm_compute; reflexivity).
  assert (E2 : Spec.scale_generator origin_voxel None 1 20 = [8; 7; 6; 5; 4; 3; 2])
    by (vm_compute; reflexivity).
  split; [exact E1 |]. split; [exact E2 |].
  rewrite E1, E2. discriminate.
Qed.

(** C4, amended.  For a shape whose smallest axis is at least
    [2^min_box_size] (and an explicit [max_box_size] not below
    [min_box_size]) the scale sequence consists of the [n_samples] floored
    values geometrically spaced in base 2 from [2^max_box_size] down to
    [2^min_box_size], deduplicated, in strictly ascending order: it is the
    reverse of the descending deduplicated sequence.  An absent
    [max_box_size] is [floor(log2(min(shape)))]. *)
Theorem scale_sequence_ascending (a : ndarray) (max_box_size : option Z)
    (min_box_size : Z) (n_samples : nat) :
  0 < min_shape a ->
  2 ^ min_box_size <= min_shape a ->
  (forall m, max_box_size = Some m -> min_box_size <= m) ->
  scale_sequence a max_box_size min_box_size n_samples
    = Ok (rev (Spec.scale_generator a max_box_size min_box_size n_samples))
  /\ StronglySorted Z.lt
       (rev (Spec.scale_generator a max_box_size min_box_size n_samples))
  /\ (forall s,
        In s (Spec.scale_generator a max_box_size min_box_size n_samples) <->
        In s (Np.floor_logspace2
                match max_box_size with
                | Some m => m
                | None => Z.log2 (min_shape a)
                end min_box_size n_samples))
  /\ length (Np.floor_logspace2
               match max_box_size with
               | Some m => m
               | None => Z.log2 (min_shape a)
               end min_box_size n_samples) = n_samples.
Proof.
  intros Hpos Hmin Hmax.
  set (mb := match max_box_size with
             | Some m => m
             | None => Z.log2 (min_shape a)
             end).
  assert (Hle : min_box_size <= mb).
  { unfold mb. destruct max_box_size as [m |]; [now apply Hmax |].
    destruct (Z.le_gt_cases min_box_size 0) as [H0 | H0].
    - pose proof (Z.log2_nonneg (min_shape a)). lia.
    - rewrite <- (Z.log2_pow2 min_box_size) by lia.
      now apply Z.log2_le_mono. }
  pose proof (floor_logspace2_descending mb min_box_size n_samples Hle) as Hd.
  assert (Hs : scale_sequence a max_box_size min_box_size n_samples
               = Ok (Np.unique (Np.floor_logspace2 mb min_box_size n_samples))).
  { unfold scale_sequence, mb. destruct max_box_size as [m |]; [reflexivity |].
    destruct (min_shape a =? 0) eqn:E; [apply Z.eqb_eq in E; lia | reflexivity]. }
  unfold Spec.scale_generator. fold mb.
  split; [| split; [| split]].
  - rewrite Hs. f_equal. now apply unique_descending.
  - apply (sorted_rev (fun u v => v < u)). now apply dedup_descending.
  - intros s. apply dedup_In.
  - apply floor_logspace2_length.
Qed.

Lemma scale_sequence_ascending_witness :
  scale_sequence origin_voxel None 1 20
  = Ok (rev (Spec.scale_generator origin_voxel None 1 20)).
Proof.
  apply (scale_sequence_ascending origin_voxel None 1 20).
  - vm_compute. reflexivity.
  - vm_compute. discriminate.
  - intros m H. discriminate.
Defined.

(** *** Counting the touched boxes *)

Lemma cell_eqb_eq (c c' : Np.cell) : Np.cell_eqb c c' = true <-> c = c'.
Proof.
  destruct c as [[a b] d], c' as [[a' b'] d']. unfold Np.cell_eqb.
  rewrite !andb_true_iff, !Nat.eqb_eq. split.
  - intros [[-> ->] ->]. reflexivity.
  - intros H. inversion H. auto.
Qed.

Lemma count_cell_pos (c : Np.cell) (l : list Np.cell) :
  Nat.ltb 0 (Np.count_cell c l) = true <-> In c l.
Proof.
  unfold Np.count_cell. rewrite Nat.ltb_lt. induction l as [| x l IH]; simpl.
  - split; [lia | contradiction].
  - destruct (Np.cell_eqb c x) eqn:E.
    + apply cell_eqb_eq in E. subst. simpl. split; [now left | lia].
    + rewrite IH. split; [now right |].
      intros [-> | H]; [| exact H].
      assert (Np.cell_eqb c c = true) by now apply cell_eqb_eq.
      congruence.
Qed.

Lemma NoDup_flat_map_inj {A B} (f : A -> list B) (l : list A) :
  NoDup l ->
  (forall x, In x l -> NoDup (f x)) ->
  (forall x y z, In x l -> In y l -> In z (f x) -> In z (f y) -> x = y) ->
  NoDup (flat_map f l).
Proof.
  induction 1 as [| x l Hx Hl IH]; intros Hf Hinj; simpl; [constructor |].
  apply NoDup_app.
  - apply Hf. now left.
  - apply IH.
    + intros y Hy. apply Hf. now right.
    + intros y y' z Hy Hy'. apply Hinj; now right.
  - intros z Hz Hz'. apply in_flat_map in Hz' as (y & Hy & Hzy).
    assert (x = y) by (apply (Hinj x y z); [now left | now right | assumption ..]).
    subst. contradiction.
Qed.

Lemma core_cells_In (ex ey ez : list Q) (a b d : nat) :
  In (a, b, d) (Np.core_cells ex ey ez) <->
  (1 <= a <= Nat.pred (length ex)
   /\ 1 <= b <= Nat.pred (length ey)
   /\ 1 <= d <= Nat.pred (length ez))%nat.
Proof.
  unfold Np.core_cells. rewrite in_flat_map. split.
  - intros (a' & Ha & H). apply in_flat_map in H as (b' & Hb & H).
    apply in_map_iff in H as (d' & E & Hd). inversion E; subst.
    apply in_seq in Ha, Hb, Hd. lia.
  - intros (Ha & Hb & Hd). exists a. split; [apply in_seq; lia |].
    apply in_flat_map. exists b. split; [apply in_seq; lia |].
    apply in_map_iff. exists d. split; [reflexivity | apply in_seq; lia].
Qed.

Lemma core_cells_NoDup (ex ey ez : list Q) : NoDup (Np.core_cells ex ey ez).
Proof.
  unfold Np.core_cells. apply NoDup_flat_map_inj.
  - apply seq_NoDup.
  - intros a _. apply NoDup_flat_map_inj.
    + apply seq_NoDup.
    + intros b _. apply NoDup_map_NoDup_ForallPairs; [| apply seq_NoDup].
      intros d d' _ _ E. now inversion E.
    + intros b b' z _ _ Hz Hz'.
      apply in_map_iff in Hz as (d & <- & _).
      apply in_map_iff in Hz' as (d' & E & _). now inversion E.
  - intros a a' z _ _ Hz Hz'.
    apply in_flat_map in Hz as (b & _ & Hz).
    apply in_map_iff in Hz as (d & <- & _).
    apply in_flat_map in Hz' as (b' & _ & Hz').
    apply in_map_iff in Hz' as (d' & E & _). now inversion E.
Qed.

(** If the first binning only merges what the second keeps apart, and
    keeps inside its range only what the second keeps inside, it touches
    no more cells. *)
Lemma touch_count_le {V} (vox : list V) (N1 N2 : V -> Np.cell)
    (cells1 cells2 : list Np.cell) :
  NoDup cells1 ->
  (forall v, In v vox -> In (N1 v) cells1 -> In (N2 v) cells2) ->
  (forall v w, In v vox -> In w vox ->
               In (N1 v) cells1 -> In (N1 w) cells1 ->
               N2 v = N2 w -> N1 v = N1 w) ->
  Np.sum_positive (map (fun c => Np.count_cell c (map N1 vox)) cells1)
  <= Np.sum_positive (map (fun c => Np.count_cell c (map N2 vox)) cells2).
Proof.
  intros Hnd Hin Hinj. unfold Np.sum_positive.
  rewrite !filter_map_swap, !length_map. apply inj_le.
  set (L1 := filter (fun c => Nat.ltb 0 (Np.count_cell c (map N1 vox))) cells1).
  set (L2 := filter (fun c => Nat.ltb 0 (Np.count_cell c (map N2 vox))) cells2).
  set (phi := fun c => match find (fun v => Np.cell_eqb (N1 v) c) vox with
                       | Some v => N2 v
                       | None => c
                       end).
  assert (Hpick : forall c, In c L1 ->
            exists v, In v vox /\ N1 v = c /\ phi c = N2 v).
  { intros c Hc. apply filter_In in Hc as [_ Hc].
    apply count_cell_pos, in_map_iff in Hc as (v0 & E0 & Hv0).
    unfold phi.
    destruct (find (fun v => Np.cell_eqb (N1 v) c) vox) as [v |] eqn:Ef.
    - apply find_some in Ef as [Hv Ev]. apply cell_eqb_eq in Ev.
      now exists v.
    - exfalso. apply (find_none _ _ Ef) in Hv0.
      assert (Np.cell_eqb (N1 v0) c = true) by now apply cell_eqb_eq.
      congruence. }
  rewrite <- (length_map phi L1). apply NoDup_incl_length.
  - apply NoDup_map_NoDup_ForallPairs; [| now apply NoDup_filter].
    intros c c' Hc Hc' E.
    destruct (Hpick c Hc) as (v & Hv & Ev & Pv).
    destruct (Hpick c' Hc') as (w & Hw & Ew & Pw).
    apply filter_In in Hc as [Hc _]. apply filter_In in Hc' as [Hc' _].
    rewrite <- Ev, <- Ew in *. apply Hinj; try assumption. congruence.
  - intros c2 H2. apply in_map_iff in H2 as (c & <- & Hc).
    destruct (Hpick c Hc) as (v & Hv & Ev & ->).
    apply filter_In in Hc as [Hc _]. rewrite <- Ev in Hc.
    apply filter_In. split; [now apply Hin |].
    apply count_cell_pos, in_map_iff. now exists v.
Qed.

(** *** The bins at offset zero *)

Lemma Qle_bool_edge (e v : Z) :
  Qle_bool (inject_Z e + 0) (inject_Z v) = (e <=? v).
Proof.
  apply eq_true_iff_eq. rewrite Qle_bool_iff, Z.leb_le.
  unfold Qle, Qplus, inject_Z. simpl. lia.
Qed.

Lemma Qeq_bool_edge (e v : Z) :
  Qeq_bool (inject_Z v) (inject_Z e + 0) = (v =? e).
Proof.
  apply eq_true_iff_eq. rewrite Qeq_bool_iff, Z.eqb_eq.
  unfold Qeq, Qplus, inject_Z. simpl. lia.
Qed.

Lemma count_multiples (s v : Z) (n : nat) :
  0 < s -> 0 <= v ->
  length (filter (fun k : nat => Z.of_nat k * s <=? v) (seq 0 n))
  = Nat.min n (S (Z.to_nat (v / s))).
Proof.
  intros Hs Hv.
  assert (Hq : 0 <= v / s) by (apply Z.div_pos; lia).
  pose proof (Z.mul_div_le v s Hs) as Hlo.
  pose proof (Z.mul_succ_div_gt v s Hs) as Hhi.
  induction n as [| n IH]; [reflexivity |].
  rewrite seq_S, filter_app, length_app, IH. simpl.
  destruct (Z.of_nat n * s <=? v) eqn:E; simpl.
  - apply Z.leb_le in E.
    assert (Z.of_nat n <= v / s) by nia. lia.
  - apply Z.leb_gt in E.
    assert (v / s < Z.of_nat n) by nia. lia.
Qed.

Lemma monotonic_map_seq (g : nat -> Q) (a n : nat) :
  (forall k, Qle_bool (g k) (g (S k)) = true) ->
  Np.monotonic (map g (seq a n)) = true.
Proof.
  intros Hg. revert a. induction n as [| n IH]; intros a; [reflexivity |].
  specialize (IH (S a)). destruct n as [| n]; [reflexivity |].
  cbn [seq map] in *. cbn [Np.monotonic]. cbn [Np.monotonic] in IH.
  now rewrite Hg, IH.
Qed.

(** The edges of one axis at offset zero and the bin numbers they give:
    with [K] the number of whole steps below the extent, a coordinate on
    the last edge [K * s] falls in the last bin [K + 1], any other
    coordinate [v] in bin [v / s + 2], which is an outlier when
    [v > K * s]. *)
Lemma axis_bins (d : nat) (s : Z) :
  0 < s -> (0 < d)%nat ->
  exists E,
    bin_edges d s 0 = Ok E
    /\ Np.monotonic E = true
    /\ length E = S (S (Z.to_nat ((Z.of_nat d - 1) / s)))
    /\ forall v, 0 <= v < Z.of_nat d ->
         Np.bin_number E v
         = if v =? (Z.of_nat d - 1) / s * s
           then S (Z.to_nat ((Z.of_nat d - 1) / s))
           else S (S (Z.to_nat (v / s))).
Proof.
  intros Hs Hd.
  set (Kz := (Z.of_nat d - 1) / s).
  assert (HK : 0 <= Kz) by (apply Z.div_pos; lia).
  set (K := Z.to_nat Kz).
  set (g := fun k : nat => (inject_Z (Z.of_nat k * s) + 0)%Q).
  exists ((0 - 0)%Q :: map g (seq 0 (S K))).
  assert (Hn : Z.to_nat ((Z.of_nat d + s - 1) / s) = S K).
  { replace (Z.of_nat d + s - 1) with (Z.of_nat d - 1 + 1 * s) by ring.
    rewrite Z.div_add by lia. fold Kz. unfold K. lia. }
  split; [| split; [| split]].
  - unfold bin_edges, Np.arange.
    destruct (s =? 0) eqn:E0; [apply Z.eqb_eq in E0; lia |].
    destruct (s <? 0) eqn:E1; [apply Z.ltb_lt in E1; lia |].
    destruct (Z.of_nat d <=? 0) eqn:E2; [apply Z.leb_le in E2; lia |].
    cbn [orb bind]. rewrite Hn, map_map. reflexivity.
  - change (Np.monotonic ((0 - 0)%Q :: map g (seq 0 (S K))))
      with (Qle_bool (0 - 0) (g 0%nat) && Np.monotonic (map g (seq 0 (S K)))).
    rewrite monotonic_map_seq.
    + reflexivity.
    + intros k. unfold g. rewrite Qle_bool_iff.
      unfold Qle, Qplus, inject_Z. cbn [Qnum Qden].
      change (1 * 1)%positive with 1%positive.
      rewrite Nat2Z.inj_succ. nia.
  - simpl. now rewrite length_map, length_seq.
  - intros v Hv. unfold Np.bin_number, Np.searchsorted_right.
    assert (Hlast : last ((0 - 0)%Q :: map g (seq 0 (S K))) 0%Q = g K).
    { rewrite seq_S, map_app. simpl map.
      change ((0 - 0)%Q :: map g (seq 0 K) ++ [g K])
        with (((0 - 0)%Q :: map g (seq 0 K)) ++ [g K]).
      apply last_last. }
    rewrite Hlast.
    change (g K) with (inject_Z (Z.of_nat K * s) + 0)%Q.
    rewrite Qeq_bool_edge.
    replace (Z.of_nat K * s) with (Kz * s) by (unfold K; rewrite Z2Nat.id; lia).
    cbn [filter].
    replace (Qle_bool (0 - 0) (inject_Z v)) with true.
    2:{ symmetry. apply Qle_bool_iff. unfold Qle, inject_Z. simpl. lia. }
    cbn [length]. rewrite filter_map_swap, length_map.
    rewrite (filter_ext (fun k => Qle_bool (g k) (inject_Z v))
                        (fun k : nat => Z.of_nat k * s <=? v))
      by (intros k; apply Qle_bool_edge).
    rewrite count_multiples by lia.
    assert (Hvq : v / s <= Kz).
    { unfold Kz. apply Z.div_le_mono; lia. }
    assert (0 <= v / s) by (apply Z.div_pos; lia).
    replace (Nat.min (S K) (S (Z.to_nat (v / s)))) with (S (Z.to_nat (v / s)))
      by (unfold K; lia).
    destruct (v =? Kz * s) eqn:E; [| reflexivity].
    apply Z.eqb_eq in E. simpl. f_equal. subst v.
    rewrite Z.div_mul by lia. reflexivity.
Qed.

(** *** Nested scales *)

Lemma mul_le_mono (s a b : Z) : 0 <= s -> a <= b -> a * s <= b * s.
Proof. intros. now apply Z.mul_le_mono_nonneg_r. Qed.

Lemma mul_lt_cancel (s a b : Z) : 0 < s -> a * s < b * s -> a < b.
Proof. intros Hs H. now apply Z.mul_lt_mono_pos_r in H. Qed.

Lemma div_bounds (x s : Z) :
  0 <= x -> 0 < s -> 0 <= x / s /\ x / s * s <= x < (x / s + 1) * s.
Proof.
  intros Hx Hs. split; [apply Z.div_pos; lia |].
  pose proof (Z.mul_div_le x s Hs). pose proof (Z.mul_succ_div_gt x s Hs).
  lia.
Qed.

(** One axis, two scales with [s1] a multiple of [s2]: a coordinate that
    [s1] keeps inside its bins is kept inside by [s2], and two such
    coordinates that share a bin of [s2] share a bin of [s1]. *)
Lemma axis_nested (d : nat) (s1 s2 m v w : Z) :
  0 < s2 -> 0 < m -> s1 = s2 * m -> (0 < d)%nat ->
  0 <= v < Z.of_nat d -> 0 <= w < Z.of_nat d ->
  let top s := S (Z.to_nat ((Z.of_nat d - 1) / s)) in
  let bn s x := if x =? (Z.of_nat d - 1) / s * s
                then top s else S (S (Z.to_nat (x / s))) in
  (bn s1 v <= top s1)%nat -> (bn s1 w <= top s1)%nat ->
  (bn s2 v <= top s2)%nat /\ (bn s2 v = bn s2 w -> bn s1 v = bn s1 w).
Proof.
  intros Hs2 Hm Hs1 Hd Hv Hw top bn. unfold bn, top. clear bn top.
  assert (Hs1p : 0 < s1) by (subst s1; now apply Z.mul_pos_pos).
  assert (Hs21 : s2 <= s1).
  { subst s1. pose proof (mul_le_mono s2 1 m ltac:(lia) ltac:(lia)). lia. }
  set (D := Z.of_nat d - 1) in *. assert (HD : 0 <= D) by (unfold D; lia).
  assert (Dv : v / s1 = v / s2 / m)
    by (rewrite Hs1; symmetry; apply Z.div_div; lia).
  assert (Dw : w / s1 = w / s2 / m)
    by (rewrite Hs1; symmetry; apply Z.div_div; lia).
  destruct (div_bounds D s1 HD Hs1p) as (K1nn & K1lo & K1hi).
  destruct (div_bounds D s2 HD Hs2) as (K2nn & K2lo & K2hi).
  destruct (div_bounds v s1 ltac:(lia) Hs1p) as (Qv1 & Bv1lo & Bv1hi).
  destruct (div_bounds v s2 ltac:(lia) Hs2) as (Qv2 & Bv2lo & Bv2hi).
  destruct (div_bounds w s1 ltac:(lia) Hs1p) as (Qw1 & Bw1lo & Bw1hi).
  destruct (div_bounds w s2 ltac:(lia) Hs2) as (Qw2 & Bw2lo & Bw2hi).
  assert (HK : D / s1 * m <= D / s2).
  { apply Z.div_le_lower_bound; [lia |].
    replace (s2 * (D / s1 * m)) with (D / s1 * s1) by (subst s1; ring). lia. }
  assert (Htop : D / s1 * s1 <= D / s2 * s2).
  { pose proof (mul_le_mono s2 _ _ ltac:(lia) HK) as H.
    replace (D / s1 * m * s2) with (D / s1 * s1) in H by (subst s1; ring).
    exact H. }
  remember (D / s1) as K1. remember (D / s2) as K2.
  remember (v / s1) as qv1. remember (v / s2) as qv2.
  remember (w / s1) as qw1. remember (w / s2) as qw2.
  clear HeqK1 HeqK2 Heqqv2 Heqqw2 Hs1 HK.
  intros Cv Cw.
  assert (Vin : v <= K1 * s1).
  { destruct (v =? K1 * s1) eqn:E; [apply Z.eqb_eq in E; lia |].
    pose proof (mul_le_mono s1 (qv1 + 1) K1 ltac:(lia) ltac:(lia)). lia. }
  assert (Win : w <= K1 * s1).
  { destruct (w =? K1 * s1) eqn:E; [apply Z.eqb_eq in E; lia |].
    pose proof (mul_le_mono s1 (qw1 + 1) K1 ltac:(lia) ltac:(lia)). lia. }
  assert (Lv : v <> K2 * s2 -> qv2 < K2).
  { intros Hne. apply (mul_lt_cancel s2); lia. }
  assert (Lw : w <> K2 * s2 -> qw2 < K2).
  { intros Hne. apply (mul_lt_cancel s2); lia. }
  assert (Hedge : forall x qx1 qx2,
            0 <= x -> x <= K1 * s1 -> x <> K2 * s2 ->
            qx1 * s1 <= x < (qx1 + 1) * s1 ->
            qx2 * s2 <= x < (qx2 + 1) * s2 ->
            K1 * s1 = K2 * s2 -> K2 = qx2 + 1 ->
            qx1 = K1 - 1 /\ x <> K1 * s1).
  { intros x qx1 qx2 Hx0 Hx Hne B1 B2 Et HKq.
    assert (Hlt : x < K1 * s1) by lia.
    assert (K1pos : 1 <= K1).
    { destruct (Z.le_gt_cases 1 K1) as [? | C]; [assumption | exfalso].
      assert (K1 = 0) by lia. subst K1. lia. }
    assert (Hlow : (K1 - 1) * s1 <= x).
    { replace (qx2 * s2) with (K2 * s2 - s2) in B2 by (subst K2; ring).
      replace ((K1 - 1) * s1) with (K1 * s1 - s1) by ring. lia. }
    split; [| lia].
    assert (qx1 < K1) by (apply (mul_lt_cancel s1); lia).
    assert (K1 - 1 < qx1 + 1) by (apply (mul_lt_cancel s1); lia).
    lia. }
  split.
  - destruct (v =? K2 * s2) eqn:E; [lia |].
    apply Z.eqb_neq in E. specialize (Lv E). lia.
  - destruct (v =? K2 * s2) eqn:Ev2, (w =? K2 * s2) eqn:Ew2;
      rewrite ?Z.eqb_eq, ?Z.eqb_neq in *.
    + intros _. assert (Ewv : w = v) by lia.
      replace qw1 with qv1 by congruence. now rewrite Ewv.
    + intros Hb. specialize (Lw Ew2).
      destruct (Hedge w qw1 qw2 ltac:(lia) Win Ew2 ltac:(lia) ltac:(lia)
                  ltac:(lia) ltac:(lia)) as [Ew1 Hwne].
      apply Z.eqb_neq in Hwne. rewrite Hwne.
      assert (Hve : v = K1 * s1) by lia.
      apply Z.eqb_eq in Hve. rewrite Hve. lia.
    + intros Hb. specialize (Lv Ev2).
      destruct (Hedge v qv1 qv2 ltac:(lia) Vin Ev2 ltac:(lia) ltac:(lia)
                  ltac:(lia) ltac:(lia)) as [Ev1 Hvne].
      apply Z.eqb_neq in Hvne. rewrite Hvne.
      assert (Hwe : w = K1 * s1) by lia.
      apply Z.eqb_eq in Hwe. rewrite Hwe. lia.
    + intros Hb. assert (Eq2 : qv2 = qw2) by lia.
      assert (Eq1 : qv1 = qw1) by congruence.
      destruct (v =? K1 * s1) eqn:Ev1, (w =? K1 * s1) eqn:Ew1;
        rewrite ?Z.eqb_eq, ?Z.eqb_neq in *; try lia.
      * exfalso. assert (qv1 < K1 + 1) by (apply (mul_lt_cancel s1); lia).
        assert (K1 < qv1 + 1) by (apply (mul_lt_cancel s1); lia). lia.
      * exfalso. assert (qw1 < K1 + 1) by (apply (mul_lt_cancel s1); lia).
        assert (K1 < qw1 + 1) by (apply (mul_lt_cancel s1); lia). lia.
Qed.

Lemma axis_pair (d : nat) (s1 s2 : Z) :
  0 < s2 -> 0 < s1 -> (s2 | s1) -> (0 < d)%nat ->
  exists E1 E2,
    bin_edges d s1 0 = Ok E1 /\ bin_edges d s2 0 = Ok E2
    /\ Np.monotonic E1 = true /\ Np.monotonic E2 = true
    /\ forall v w, 0 <= v < Z.of_nat d -> 0 <= w < Z.of_nat d ->
         (1 <= Np.bin_number E1 v <= Nat.pred (length E1))%nat ->
         (1 <= Np.bin_number E1 w <= Nat.pred (length E1))%nat ->
         (1 <= Np.bin_number E2 v <= Nat.pred (length E2))%nat
         /\ (Np.bin_number E2 v = Np.bin_number E2 w ->
             Np.bin_number E1 v = Np.bin_number E1 w).
Proof.
  intros Hs2 Hs1 [m Hm] Hd.
  assert (Hmpos : 0 < m) by nia.
  assert (Hs : s1 = s2 * m) by lia.
  destruct (axis_bins d s1 Hs1 Hd) as (E1 & B1 & M1 & L1 & F1).
  destruct (axis_bins d s2 Hs2 Hd) as (E2 & B2 & M2 & L2 & F2).
  exists E1, E2. repeat (split; [assumption |]).
  intros v w Hv Hw. rewrite L1, L2, !F1, !F2 by assumption.
  cbn [Nat.pred]. intros [_ Cv] [_ Cw].
  destruct (axis_nested d s1 s2 m v w Hs2 Hmpos Hs Hd Hv Hw Cv Cw) as [R1 R2].
  split; [| exact R2]. split; [| exact R1].
  destruct (v =? (Z.of_nat d - 1) / s2 * s2); lia.
Qed.

Lemma voxels_of_range (a : ndarray) (x y z : Z) :
  In (x, y, z) (voxels_of a) ->
  0 <= x < Z.of_nat (fst (fst (shape a)))
  /\ 0 <= y < Z.of_nat (snd (fst (shape a)))
  /\ 0 <= z < Z.of_nat (snd (shape a)).
Proof.
  unfold voxels_of. destruct (shape a) as [[d0 d1] d2]. simpl.
  intros H. apply in_flat_map in H as (x' & Hx & H).
  apply in_flat_map in H as (y' & Hy & H).
  apply in_flat_map in H as (z' & Hz & H).
  apply in_seq in Hx, Hy, Hz.
  destruct (0 <? item a x' y' z'); [| contradiction].
  destruct H as [E | []]. inversion E; subst. lia.
Qed.

(** With offsets disabled the count of a scale is the count at offset 0. *)
Lemma box_count_no_offsets (shp : nat * nat * nat) (vox : list (Z * Z * Z))
    (s : Z) :
  box_count shp vox 0 s = touched_at shp vox s 0.
Proof.
  unfold box_count, touched_row, offsets_of. cbn [mapM].
  now destruct (touched_at shp vox s 0).
Qed.

Lemma touched_row_min (shp : nat * nat * nat) (vox : list (Z * Z * Z))
    (n_offsets : nat) (s : Z) (row : list Z) :
  touched_row shp vox n_offsets s = Ok row -> returns (Np.min row).
Proof.
  intros H. apply mapM_length in H.
  destruct row as [| c row]; [| now eexists].
  exfalso. apply (offsets_of_nonempty n_offsets s).
  now apply length_zero_iff_nil.
Qed.

Lemma mapM_bind {A B C} (f : A -> outcome B) (g : B -> outcome C)
    (l : list A) :
  (forall x r, In x l -> f x = Ok r -> returns (g r)) ->
  bind (mapM f l) (mapM g) = mapM (fun x => bind (f x) g) l.
Proof.
  induction l as [| x l IH]; intros H; [reflexivity |].
  cbn [mapM]. rewrite <- IH by (intros y r Hy; apply H; now right).
  destruct (f x) as [r | e] eqn:Ef; [| reflexivity]. cbn [bind].
  destruct (H x r (or_introl eq_refl) Ef) as [c Hc]. rewrite Hc. cbn [bind].
  destruct (mapM f l) as [rs | e]; [| reflexivity].
  cbn [bind mapM]. now rewrite Hc.
Qed.

(** The array [Ns] of [fractal_dimension_3D] holds, scale by scale, the
    count [box_count]. *)
Lemma min_counts_box_count (shp : nat * nat * nat) (vox : list (Z * Z * Z))
    (n_offsets : nat) (scales : list Z) :
  scales <> [] ->
  min_counts shp vox n_offsets scales
  = mapM (box_count shp vox n_offsets) scales.
Proof.
  intros Hne. unfold min_counts, box_count.
  rewrite <- mapM_bind by (intros s row _; apply touched_row_min).
  destruct (mapM (touched_row shp vox n_offsets) scales) as [Ns |] eqn:E;
    [| reflexivity].
  cbn [bind]. destruct Ns as [| row Ns]; [| reflexivity].
  apply mapM_length in E. destruct scales; [now elim Hne | discriminate].
Qed.

(** C5, refuted as stated.  Two neighbouring voxels (2,0,0) and (3,0,0) in
    an 8 x 8 x 8 grid, offsets disabled: both 2 and 3 are tested scales,
    scale 3 separates the voxels (count 2) and scale 2 puts them in one
    box (count 1). *)
Lemma box_count_not_monotone :
  scale_sequence two_voxels None 1 20 = Ok [2; 3; 4; 5; 6; 7; 8]
  /\ box_count (shape two_voxels) (voxels_of two_voxels) 0 3 = Ok 2
  /\ box_count (shape two_voxels) (voxels_of two_voxels) 0 2 = Ok 1
  /\ ~ (forall s1 s2 c1 c2,
          s2 < s1 ->
          box_count (shape two_voxels) (voxels_of two_voxels) 0 s1 = Ok c1 ->
          box_count (shape two_voxels) (voxels_of two_voxels) 0 s2 = Ok c2 ->
          c1 <= c2).
Proof.
  assert (E3 : box_count (shape two_voxels) (voxels_of two_voxels) 0 3 = Ok 2)
    by (vm_compute; reflexivity).
  assert (E2 : box_count (shape two_voxels) (voxels_of two_voxels) 0 2 = Ok 1)
    by (vm_compute; reflexivity).
  split; [vm_compute; reflexivity |].
  split; [exact E3 |]. split; [exact E2 |].
  intros H. specialize (H 3 2 2 1 ltac:(lia) E3 E2). lia.
Qed.

(** C5, amended.  With offsets disabled and a non-empty volume, the box
    count does not decrease when the scale is replaced by one of its
    divisors: if [s2] divides [s1] then count(s1) <= count(s2), both
    counts being returned. *)
Theorem box_count_nested_monotone (a : ndarray) (s1 s2 : Z) :
  voxels_of a <> [] ->
  0 < s2 -> 0 < s1 -> (s2 | s1) ->
  exists c1 c2,
    box_count (shape a) (voxels_of a) 0 s1 = Ok c1
    /\ box_count (shape a) (voxels_of a) 0 s2 = Ok c2
    /\ c1 <= c2.
Proof.
  intros Hne Hs2 Hs1 Hdiv. rewrite !box_count_no_offsets.
  pose proof (voxels_of_range a) as Hrange.
  destruct (shape a) as [[d0 d1] d2] eqn:Eshape. cbn [fst snd] in Hrange.
  destruct (voxels_of a) as [| [[x0 y0] z0] rest] eqn:Evox; [now elim Hne |].
  destruct (Hrange x0 y0 z0 (or_introl eq_refl)) as (Hx0 & Hy0 & Hz0).
  destruct (axis_pair d0 s1 s2 Hs2 Hs1 Hdiv ltac:(lia))
    as (ex1 & ex2 & Bx1 & Bx2 & Mx1 & Mx2 & Fx).
  destruct (axis_pair d1 s1 s2 Hs2 Hs1 Hdiv ltac:(lia))
    as (ey1 & ey2 & By1 & By2 & My1 & My2 & Fy).
  destruct (axis_pair d2 s1 s2 Hs2 Hs1 Hdiv ltac:(lia))
    as (ez1 & ez2 & Bz1 & Bz2 & Mz1 & Mz2 & Fz).
  unfold touched_at. rewrite Bx1, By1, Bz1, Bx2, By2, Bz2. cbn [bind].
  unfold Np.histogramdd. rewrite Mx1, My1, Mz1, Mx2, My2, Mz2. cbn [andb bind].
  do 2 eexists. split; [reflexivity |]. split; [reflexivity |].
  apply touch_count_le.
  - apply core_cells_NoDup.
  - intros [[x y] z] Hv. specialize (Hrange x y z Hv) as (Hx & Hy & Hz).
    unfold Np.Ncount. rewrite !core_cells_In. intros (Cx & Cy & Cz).
    split; [apply (Fx x x Hx Hx Cx Cx) |].
    split; [apply (Fy y y Hy Hy Cy Cy) | apply (Fz z z Hz Hz Cz Cz)].
  - intros [[x y] z] [[x' y'] z'] Hv Hw.
    destruct (Hrange x y z Hv) as (Hx & Hy & Hz).
    destruct (Hrange x' y' z' Hw) as (Hx' & Hy' & Hz').
    unfold Np.Ncount. rewrite !core_cells_In.
    intros (Cx & Cy & Cz) (Cx' & Cy' & Cz') E. inversion E as [[Ex Ey Ez]].
    f_equal; [f_equal |].
    + now apply (Fx x x' Hx Hx' Cx Cx').
    + now apply (Fy y y' Hy Hy' Cy Cy').
    + now apply (Fz z z' Hz Hz' Cz Cz').
Qed.

Lemma box_count_nested_monotone_witness :
  exists c1 c2,
    box_count (shape two_voxels) (voxels_of two_voxels) 0 4 = Ok c1
    /\ box_count (shape two_voxels) (voxels_of two_voxels) 0 2 = Ok c2
    /\ c1 <= c2.
Proof.
  apply (box_count_nested_monotone two_voxels 4 2).
  - vm_compute. discriminate.
  - lia.
  - lia.
  - exists 2. reflexivity.
Defined.

End FractalFacts.

(** ** More on the box counter *)

Module BoxCountFacts.
Import Fractal Examples FractalFacts.

Lemma min_counts_Forall (P : Z -> Prop) (shp : nat * nat * nat)
    (vox : list (Z * Z * Z)) (n_offsets : nat) (scales Ns : list Z) :
  (forall s o c, touched_at shp vox s o = Ok c -> P c) ->
  min_counts shp vox n_offsets scales = Ok Ns -> Forall P Ns.
Proof.
  intros HP. unfold min_counts. intros H.
  destruct (mapM (touched_row shp vox n_offsets) scales) as [rows |] eqn:E;
    [| discriminate].
  cbn [bind] in H.
  assert (Hrows : Forall (Forall P) rows).
  { apply mapM_Forall2 in E. eapply Forall2_right; [exact E |].
    intros s row Hrow. unfold touched_row in Hrow.
    apply mapM_Forall2 in Hrow. eapply Forall2_right; [exact Hrow |].
    intros o c. apply HP. }
  assert (HF : Forall2 (fun row m => Np.min row = Ok m) rows Ns).
  { destruct rows as [| row rows]; [discriminate |].
    now apply mapM_Forall2 in H. }
  clear H E. induction HF as [| row m rows' Ns' Hm _ IH]; [constructor |].
  inversion Hrows as [| ? ? Hrow Hrest]; subst.
  constructor; [| now apply IH].
  apply np_min_spec in Hm as [Hin _].
  rewrite Forall_forall in Hrow. now apply Hrow.
Qed.

(** The cells that a sample touches are among the cells it hits. *)
Lemma sum_positive_le_hits (hits cells : list Np.cell) :
  NoDup cells ->
  Np.sum_positive (map (fun c => Np.count_cell c hits) cells)
  <= Z.of_nat (length hits).
Proof.
  intros Hnd. unfold Np.sum_positive.
  rewrite filter_map_swap, length_map. apply inj_le.
  apply NoDup_incl_length; [now apply NoDup_filter |].
  intros c Hc. apply filter_In in Hc as [_ Hc]. now apply count_cell_pos.
Qed.

Lemma touched_at_le_voxels (shp : nat * nat * nat) (vox : list (Z * Z * Z))
    (s : Z) (o : Q) (c : Z) :
  touched_at shp vox s o = Ok c -> 0 <= c <= Z.of_nat (length vox).
Proof.
  intros H. split; [now apply touched_at_nonneg in H |].
  destruct shp as [[d0 d1] d2]. unfold touched_at in H.
  destruct (bin_edges d0 s o) as [ex |]; [| discriminate].
  destruct (bin_edges d1 s o) as [ey |]; [| discriminate].
  destruct (bin_edges d2 s o) as [ez |]; [| discriminate].
  cbn [bind] in H. unfold Np.histogramdd in H.
  destruct vox as [| v vox]; [discriminate |].
  destruct (Np.monotonic ex && Np.monotonic ey && Np.monotonic ez);
    [| discriminate].
  cbn [bind] in H. inversion H as [Hc].
  rewrite <- (length_map (Np.Ncount ex ey ez) (v :: vox)).
  apply sum_positive_le_hits, core_cells_NoDup.
Qed.

(** X1.  Every entry of the array [Ns] of [fractal_dimension_3D] lies between 0
    and the number of occupied voxels, whatever the scales and the
    offsets. *)
Theorem min_counts_bounded (a : ndarray) (n_offsets : nat)
    (scales Ns : list Z) :
  min_counts (shape a) (voxels_of a) n_offsets scales = Ok Ns ->
  Forall (fun c => 0 <= c <= Z.of_nat (length (voxels_of a))) Ns.
Proof.
  apply min_counts_Forall. intros s o c. apply touched_at_le_voxels.
Qed.

Lemma min_counts_bounded_witness :
  Forall (fun c => 0 <= c <= Z.of_nat (length (voxels_of two_voxels)))
         [1; 2; 1; 1; 1; 1; 0].
Proof.
  apply (min_counts_bounded two_voxels 0 [2; 3; 4; 5; 6; 7; 8]).
  vm_compute. reflexivity.
Defined.

(** *** Which voxels are counted at offset zero *)

(** Along one axis of extent [d], at scale [s] and offset zero, a
    coordinate lands inside the histogram exactly when it does not exceed
    the last edge, the largest multiple of [s] below [d]. *)
Lemma axis_in_core (d : nat) (s : Z) :
  0 < s -> (0 < d)%nat ->
  exists E,
    bin_edges d s 0 = Ok E
    /\ Np.monotonic E = true
    /\ forall v, 0 <= v < Z.of_nat d ->
         ((1 <= Np.bin_number E v <= Nat.pred (length E))%nat
          <-> v <= (Z.of_nat d - 1) / s * s)
         /\ ((1 <= Np.bin_number E v <= Nat.pred (length E))%nat ->
             In (Np.bin_number E v)
                (if (Z.of_nat d - 1) / s =? 0 then [1%nat]
                 else seq 2 (Z.to_nat ((Z.of_nat d - 1) / s)))).
Proof.
  intros Hs Hd. destruct (axis_bins d s Hs Hd) as (E & B & M & L & F).
  exists E. split; [exact B |]. split; [exact M |].
  intros v Hv. rewrite L, (F v Hv). cbn [Nat.pred].
  set (K := (Z.of_nat d - 1) / s).
  assert (HK : 0 <= K) by (apply Z.div_pos; lia).
  destruct (div_bounds v s ltac:(lia) Hs) as (Hq & Hlo & Hhi).
  destruct (v =? K * s) eqn:Ev.
  - apply Z.eqb_eq in Ev. split; [split; [lia | lia] |].
    intros _. destruct (K =? 0) eqn:EK.
    + apply Z.eqb_eq in EK. rewrite EK. now left.
    + apply Z.eqb_neq in EK. apply in_seq. lia.
  - apply Z.eqb_neq in Ev.
    assert (Hiff : (S (S (Z.to_nat (v / s))) <= S (Z.to_nat K))%nat
                   <-> v <= K * s).
    { split.
      - intros Hle. assert (v / s + 1 <= K) by lia.
        pose proof (mul_le_mono s (v / s + 1) K ltac:(lia) ltac:(lia)). lia.
      - intros Hle. assert (v < K * s) by lia.
        assert (v / s < K) by (apply (mul_lt_cancel s); lia). lia. }
    split; [split; [intros [_ H]; now apply Hiff | intros H; split; [lia | now apply Hiff]] |].
    intros [_ Hle]. destruct (K =? 0) eqn:EK.
    + apply Z.eqb_eq in EK. rewrite EK in Hle. simpl in Hle. lia.
    + apply in_seq. lia.
Qed.

Lemma sum_positive_zero (hits cells : list Np.cell) :
  Np.sum_positive (map (fun c => Np.count_cell c hits) cells) = 0
  <-> forall c, In c hits -> ~ In c cells.
Proof.
  unfold Np.sum_positive. rewrite filter_map_swap, length_map.
  split.
  - intros H c Hc Hin.
    assert (Hf : In c (filter (fun c => Nat.ltb 0 (Np.count_cell c hits)) cells)).
    { apply filter_In. split; [exact Hin | now apply count_cell_pos]. }
    destruct (filter _ cells); [contradiction | discriminate].
  - intros H.
    destruct (filter (fun c => Nat.ltb 0 (Np.count_cell c hits)) cells)
      as [| c l] eqn:E; [reflexivity | exfalso].
    assert (Hc : In c (c :: l)) by now left.
    rewrite <- E in Hc. apply filter_In in Hc as [Hin Hpos].
    apply count_cell_pos in Hpos. now apply (H c).
Qed.

(** The count at offset zero, with the cells a voxel can reach: a voxel is
    inside the histogram exactly when no coordinate exceeds the last edge of
    its axis, and then its bin numbers avoid the first bin of each axis. *)
Lemma touched_at_zero_offset (a : ndarray) (s : Z) :
  voxels_of a <> [] -> 0 < s ->
  exists ex ey ez,
    touched_at (shape a) (voxels_of a) s 0
    = Ok (Np.sum_positive
            (map (fun c => Np.count_cell c
                             (map (Np.Ncount ex ey ez) (voxels_of a)))
                 (Np.core_cells ex ey ez)))
    /\ forall x y z, In (x, y, z) (voxels_of a) ->
         0 <= x /\ 0 <= y /\ 0 <= z
         /\ (In (Np.Ncount ex ey ez (x, y, z)) (Np.core_cells ex ey ez)
             <-> x <= (Z.of_nat (fst (fst (shape a))) - 1) / s * s
                 /\ y <= (Z.of_nat (snd (fst (shape a))) - 1) / s * s
                 /\ z <= (Z.of_nat (snd (shape a)) - 1) / s * s)
         /\ (In (Np.Ncount ex ey ez (x, y, z)) (Np.core_cells ex ey ez) ->
             In (Np.Ncount ex ey ez (x, y, z))
                (list_prod
                   (list_prod
                      (if (Z.of_nat (fst (fst (shape a))) - 1) / s =? 0
                       then [1%nat]
                       else seq 2 (Z.to_nat
                                     ((Z.of_nat (fst (fst (shape a))) - 1) / s)))
                      (if (Z.of_nat (snd (fst (shape a))) - 1) / s =? 0
                       then [1%nat]
                       else seq 2 (Z.to_nat
                                     ((Z.of_nat (snd (fst (shape a))) - 1) / s))))
                   (if (Z.of_nat (snd (shape a)) - 1) / s =? 0
                    then [1%nat]
                    else seq 2 (Z.to_nat ((Z.of_nat (snd (shape a)) - 1) / s))))).
Proof.
  intros Hne Hs.
  pose proof (voxels_of_range a) as Hrange.
  destruct (shape a) as [[d0 d1] d2] eqn:Eshape. cbn [fst snd] in *.
  destruct (voxels_of a) as [| [[x0 y0] z0] rest] eqn:Evox; [now elim Hne |].
  destruct (Hrange x0 y0 z0 (or_introl eq_refl)) as (Hx0 & Hy0 & Hz0).
  destruct (axis_in_core d0 s Hs ltac:(lia)) as (ex & Bx & Mx & Fx).
  destruct (axis_in_core d1 s Hs ltac:(lia)) as (ey & By & My & Fy).
  destruct (axis_in_core d2 s Hs ltac:(lia)) as (ez & Bz & Mz & Fz).
  exists ex, ey, ez. split.
  - unfold touched_at. rewrite Bx, By, Bz. cbn [bind].
    unfold Np.histogramdd. rewrite Mx, My, Mz. reflexivity.
  - intros x y z Hv. destruct (Hrange x y z Hv) as (Hx & Hy & Hz).
    repeat (split; [lia |]).
    cbn [Np.Ncount]. rewrite core_cells_In.
    rewrite (proj1 (Fx x Hx)), (proj1 (Fy y Hy)), (proj1 (Fz z Hz)).
    split; [reflexivity |].
    intros (Cx & Cy & Cz). apply in_prod; [apply in_prod |].
    + apply (Fx x Hx). now apply (Fx x Hx).
    + apply (Fy y Hy). now apply (Fy y Hy).
    + apply (Fz z Hz). now apply (Fz z Hz).
Qed.

(** X2.  With offsets disabled, the count of a scale is zero exactly when every
    occupied voxel lies, on some axis, beyond the last bin edge (the largest
    multiple of the scale below the extent of that axis): such voxels are
    outliers of the histogram and are not counted. *)
Theorem box_count_zero_iff (a : ndarray) (s : Z) :
  voxels_of a <> [] -> 0 < s ->
  exists c,
    box_count (shape a) (voxels_of a) 0 s = Ok c
    /\ (c = 0 <->
        forall x y z, In (x, y, z) (voxels_of a) ->
          ~ (x <= (Z.of_nat (fst (fst (shape a))) - 1) / s * s
             /\ y <= (Z.of_nat (snd (fst (shape a))) - 1) / s * s
             /\ z <= (Z.of_nat (snd (shape a)) - 1) / s * s)).
Proof.
  intros Hne Hs. rewrite box_count_no_offsets.
  destruct (touched_at_zero_offset a s Hne Hs) as (ex & ey & ez & E & F).
  rewrite E. eexists. split; [reflexivity |].
  rewrite sum_positive_zero. split.
  - intros H x y z Hv HC. destruct (F x y z Hv) as (_ & _ & _ & Hiff & _).
    apply (H (Np.Ncount ex ey ez (x, y, z))); [now apply in_map |].
    now apply Hiff.
  - intros H c Hc Hin. apply in_map_iff in Hc as ([[x y] z] & <- & Hv).
    destruct (F x y z Hv) as (_ & _ & _ & Hiff & _).
    apply (H x y z Hv). now apply Hiff.
Qed.

Lemma box_count_zero_iff_witness :
  exists c,
    box_count (shape two_voxels) (voxels_of two_voxels) 0 8 = Ok c
    /\ (c = 0 <->
        forall x y z, In (x, y, z) (voxels_of two_voxels) ->
          ~ (x <= (Z.of_nat (fst (fst (shape two_voxels))) - 1) / 8 * 8
             /\ y <= (Z.of_nat (snd (fst (shape two_voxels))) - 1) / 8 * 8
             /\ z <= (Z.of_nat (snd (shape two_voxels)) - 1) / 8 * 8)).
Proof.
  apply (box_count_zero_iff two_voxels 8).
  - vm_compute. discriminate.
  - lia.
Defined.

Lemma cube_lt (q : Z) : 2 <= q -> (q - 1) * (q - 1) * (q - 1) < q * q * q.
Proof.
  intros Hq.
  assert (H1 : (q - 1) * (q - 1) <= q * (q - 1)).
  { apply Z.mul_le_mono_nonneg_r; lia. }
  assert (H2 : q * (q - 1) < q * q).
  { apply Z.mul_lt_mono_pos_l; lia. }
  assert (H3 : (q - 1) * (q - 1) * (q - 1) <= q * q * (q - 1)).
  { apply Z.mul_le_mono_nonneg_r; lia. }
  assert (H4 : q * q * (q - 1) < q * q * q).
  { apply Z.mul_lt_mono_pos_l; [| lia]. apply Z.mul_pos_pos; lia. }
  lia.
Qed.

Lemma div_pred_multiple (q s : Z) : 0 < s -> (q * s - 1) / s = q - 1.
Proof.
  intros Hs. symmetry. apply (Z.div_unique_pos _ _ _ (s - 1)); lia.
Qed.

(** X3.  With offsets disabled the count of a scale is at most the
    product, over the three axes, of [max 1 ((d - 1) / s)], where [d] is
    the extent of the axis: the first bin of each axis is empty and the
    coordinates past the last edge are dropped.  On a cubic grid of side
    [d] and for a scale [s < d] that divides [d], the count is therefore
    below [(d / s)^3], the number of boxes of a full covering. *)
Theorem box_count_upper_bound (a : ndarray) (s : Z) :
  voxels_of a <> [] -> 0 < s ->
  exists c,
    box_count (shape a) (voxels_of a) 0 s = Ok c
    /\ c <= Z.max 1 ((Z.of_nat (fst (fst (shape a))) - 1) / s)
            * Z.max 1 ((Z.of_nat (snd (fst (shape a))) - 1) / s)
            * Z.max 1 ((Z.of_nat (snd (shape a)) - 1) / s)
    /\ (forall d : nat,
          shape a = (d, d, d) -> (s | Z.of_nat d) -> s < Z.of_nat d ->
          c < (Z.of_nat d / s) ^ 3).
Proof.
  intros Hne Hs. rewrite box_count_no_offsets.
  destruct (touched_at_zero_offset a s Hne Hs) as (ex & ey & ez & E & F).
  rewrite E. eexists. split; [reflexivity |].
  assert (Hext : 0 < Z.of_nat (fst (fst (shape a)))
                 /\ 0 < Z.of_nat (snd (fst (shape a)))
                 /\ 0 < Z.of_nat (snd (shape a))).
  { destruct (voxels_of a) as [| [[x y] z] t] eqn:Ev; [now elim Hne |].
    pose proof (voxels_of_range a x y z) as R. rewrite Ev in R.
    specialize (R (or_introl eq_refl)). lia. }
  assert (Hlen : forall d : Z, 0 < d ->
            Z.of_nat (length (if (d - 1) / s =? 0 then [1%nat]
                              else seq 2 (Z.to_nat ((d - 1) / s))))
            = Z.max 1 ((d - 1) / s)).
  { intros d Hd.
    assert (HK : 0 <= (d - 1) / s) by (apply Z.div_pos; lia).
    revert HK. generalize ((d - 1) / s). intros K HK.
    destruct (K =? 0) eqn:EK.
    - apply Z.eqb_eq in EK. rewrite EK. reflexivity.
    - apply Z.eqb_neq in EK. rewrite length_seq. lia. }
  destruct Hext as (H0 & H1 & H2).
  assert (Hbound :
            Np.sum_positive
              (map (fun c => Np.count_cell c (map (Np.Ncount ex ey ez)
                                                  (voxels_of a)))
                   (Np.core_cells ex ey ez))
            <= Z.max 1 ((Z.of_nat (fst (fst (shape a))) - 1) / s)
               * Z.max 1 ((Z.of_nat (snd (fst (shape a))) - 1) / s)
               * Z.max 1 ((Z.of_nat (snd (shape a)) - 1) / s)).
  { rewrite <- (Hlen _ H0), <- (Hlen _ H1), <- (Hlen _ H2).
    rewrite <- !Nat2Z.inj_mul, <- !length_prod.
    unfold Np.sum_positive. rewrite filter_map_swap, length_map. apply inj_le.
    apply NoDup_incl_length; [apply NoDup_filter, core_cells_NoDup |].
    intros c Hc. apply filter_In in Hc as [Hcore Hpos].
    apply count_cell_pos, in_map_iff in Hpos as ([[x y] z] & Ec & Hv).
    destruct (F x y z Hv) as (_ & _ & _ & _ & Hin).
    rewrite <- Ec in *. now apply Hin. }
  split; [exact Hbound |].
  intros d Hshape [q Hq] Hlt. rewrite Hshape in Hbound. cbn [fst snd] in Hbound.
  assert (Hq2 : 2 <= q).
  { assert (0 < q) by nia. assert (q <> 1) by (intros ->; lia). lia. }
  rewrite Hq, (div_pred_multiple q s Hs) in Hbound.
  rewrite Hq, Z.div_mul by lia.
  rewrite Z.max_r in Hbound by lia.
  pose proof (cube_lt q Hq2).
  replace (q ^ 3) with (q * q * q) by ring. lia.
Qed.

Lemma box_count_upper_bound_witness :
  exists c,
    box_count (shape two_voxels) (voxels_of two_voxels) 0 2 = Ok c
    /\ c <= Z.max 1 ((Z.of_nat (fst (fst (shape two_voxels))) - 1) / 2)
            * Z.max 1 ((Z.of_nat (snd (fst (shape two_voxels))) - 1) / 2)
            * Z.max 1 ((Z.of_nat (snd (shape two_voxels)) - 1) / 2)
    /\ c < (Z.of_nat 8 / 2) ^ 3.
Proof.
  destruct (box_count_upper_bound two_voxels 2) as (c & E & Hle & Hcube).
  - vm_compute. discriminate.
  - lia.
  - exists c. split; [exact E |]. split; [exact Hle |].
    apply (Hcube 8%nat); [reflexivity | now exists 4 | lia].
Defined.

End BoxCountFacts.

(** ** More on the scale generator *)

Module ScaleFacts.
Import Fractal Examples FractalFacts.

(** At an integral exponent the floor of the power is the power itself. *)
Lemma floor_pow2_exact (m : Z) (D : positive) :
  0 <= m -> Np.floor_pow2 (Qmake (m * Zpos D) D) = 2 ^ m.
Proof.
  intros Hm.
  destruct (floor_pow2_spec (Qmake (m * Zpos D) D)) as (Hk & Hlo & Hhi);
    [simpl; lia |].
  cbn [Qnum Qden] in Hlo, Hhi.
  set (k := Np.floor_pow2 (Qmake (m * Zpos D) D)) in *.
  rewrite Z.pow_mul_r in Hlo, Hhi by lia.
  assert (Hp : 0 < 2 ^ m) by (apply Z.pow_pos_nonneg; lia).
  destruct (Z.lt_trichotomy k (2 ^ m)) as [Hlt | [Heq | Hgt]];
    [exfalso | exact Heq | exfalso].
  - assert ((k + 1) ^ Zpos D <= (2 ^ m) ^ Zpos D)
      by (apply Z.pow_le_mono_l; lia).
    lia.
  - assert ((2 ^ m) ^ Zpos D < k ^ Zpos D)
      by (apply Z.pow_lt_mono_l; lia).
    lia.
Qed.

Lemma floor_pow2_inject (m : Z) : 0 <= m -> Np.floor_pow2 (inject_Z m) = 2 ^ m.
Proof.
  intros Hm. rewrite <- (floor_pow2_exact m 1 Hm).
  unfold inject_Z. now rewrite Z.mul_1_r.
Qed.

(** The floored samples lie between the two end values and contain both. *)
Lemma floor_logspace2_range (start stop : Z) (num : nat) :
  0 <= stop <= start ->
  (forall s, In s (Np.floor_logspace2 start stop num) ->
             2 ^ stop <= s <= 2 ^ start)
  /\ ((1 <= num)%nat -> In (2 ^ start) (Np.floor_logspace2 start stop num))
  /\ ((2 <= num)%nat -> In (2 ^ stop) (Np.floor_logspace2 start stop num)).
Proof.
  intros Hle. unfold Np.floor_logspace2, Np.linspace.
  destruct num as [| [| d]].
  - split; [intros s [] |]. split; intros; lia.
  - cbn [map]. rewrite floor_pow2_inject by lia.
    split; [| split].
    + intros s [<- | []]. split; [apply Z.pow_le_mono_r; lia | lia].
    + intros _. now left.
    + intros; lia.
  - set (D := Pos.of_succ_nat d).
    assert (HD : Zpos D = Z.of_nat (S d))
      by (unfold D; rewrite Zpos_P_of_succ_nat, Nat2Z.inj_succ; reflexivity).
    rewrite map_map. split; [| split].
    + intros s Hs. apply in_map_iff in Hs as (i & <- & Hi).
      apply in_seq in Hi.
      rewrite <- (floor_pow2_exact stop D), <- (floor_pow2_exact start D) by lia.
      split; apply floor_pow2_mono; nia.
    + intros _. apply in_map_iff. exists 0%nat. split.
      * rewrite <- (floor_pow2_exact start D) by lia. f_equal. f_equal.
        simpl. lia.
      * apply in_seq. lia.
    + intros _. apply in_map_iff. exists (S d). split.
      * rewrite <- (floor_pow2_exact stop D) by lia. f_equal. f_equal.
        rewrite <- HD. ring.
      * apply in_seq. lia.
Qed.

(** X4.  The tested scales lie between [2^min_box_size] and [2^max_box_size],
    include the upper end as soon as there is one sample and the lower end
    as soon as there are two; with [max_box_size] absent no scale exceeds
    the smallest axis. *)
Theorem scale_sequence_range (a : ndarray) (max_box_size : option Z)
    (min_box_size mb : Z) (n_samples : nat) :
  0 <= min_box_size <= mb ->
  (max_box_size = Some mb
   \/ (max_box_size = None /\ 0 < min_shape a /\ mb = Z.log2 (min_shape a))) ->
  exists scales,
    scale_sequence a max_box_size min_box_size n_samples = Ok scales
    /\ (forall s, In s scales -> 2 ^ min_box_size <= s <= 2 ^ mb)
    /\ ((1 <= n_samples)%nat -> In (2 ^ mb) scales)
    /\ ((2 <= n_samples)%nat -> In (2 ^ min_box_size) scales)
    /\ (max_box_size = None -> forall s, In s scales -> s <= min_shape a).
Proof.
  intros Hle Hmb.
  exists (Np.unique (Np.floor_logspace2 mb min_box_size n_samples)).
  destruct (floor_logspace2_range mb min_box_size n_samples Hle)
    as (Hr & Hhi & Hlo).
  split; [| split; [| split; [| split]]].
  - unfold scale_sequence.
    destruct Hmb as [-> | (-> & Hpos & ->)]; [reflexivity |].
    destruct (min_shape a =? 0) eqn:E; [apply Z.eqb_eq in E; lia | reflexivity].
  - intros s Hs. apply Hr. now apply (proj1 (unique_In s _)).
  - intros Hn. apply unique_In. now apply Hhi.
  - intros Hn. apply unique_In. now apply Hlo.
  - intros Hnone s Hs.
    destruct Hmb as [E | (_ & Hpos & ->)]; [congruence |].
    apply (proj1 (unique_In s _)), Hr in Hs.
    pose proof (Z.log2_spec (min_shape a) Hpos). lia.
Qed.

Lemma scale_sequence_range_witness :
  exists scales,
    scale_sequence origin_voxel None 1 20 = Ok scales
    /\ (forall s, In s scales -> 2 ^ 1 <= s <= 2 ^ 3)
    /\ In (2 ^ 3) scales /\ In (2 ^ 1) scales.
Proof.
  destruct (scale_sequence_range origin_voxel None 1 3 20)
    as (scales & E & Hr & Hhi & Hlo & _).
  - lia.
  - right. split; [reflexivity |]. split; vm_compute; reflexivity.
  - exists scales. split; [exact E |]. split; [exact Hr |].
    split; [apply Hhi | apply Hlo]; lia.
Defined.

End ScaleFacts.

(** ** More on the reduction *)

Module ReductionFacts.
Import Fractal Examples FractalFacts.

Lemma mapM_In {A B} (f : A -> outcome B) (l : list A) (r : list B) (x : A) :
  mapM f l = Ok r -> In x l -> exists y, f x = Ok y /\ In y r.
Proof.
  revert r. induction l as [| a l IH]; intros r H Hx; [contradiction |].
  simpl in H. destruct (f a) as [b |] eqn:Ef; [| discriminate].
  simpl in H. destruct (mapM f l) as [bs |]; [| discriminate].
  simpl in H. inversion H; subst.
  destruct Hx as [-> | Hx].
  - exists b. split; [exact Ef | now left].
  - destruct (IH bs eq_refl Hx) as (y & Hy & Hin).
    exists y. split; [exact Hy | now right].
Qed.

Lemma box_count_returns (a : ndarray) (s : Z) :
  voxels_of a <> [] -> 0 < s ->
  returns (box_count (shape a) (voxels_of a) 0 s).
Proof.
  intros Hne Hs. rewrite box_count_no_offsets.
  destruct (BoxCountFacts.touched_at_zero_offset a s Hne Hs)
    as (ex & ey & ez & E & _).
  rewrite E. now eexists.
Qed.

(** A scale that reaches the extent of an axis counts only the voxels at
    coordinate 0 of that axis. *)
Lemma box_count_beyond_extent (a : ndarray) (s : Z) :
  voxels_of a <> [] -> 0 < s ->
  ((Z.of_nat (fst (fst (shape a))) <= s
    /\ forall x y z, In (x, y, z) (voxels_of a) -> x <> 0)
   \/ (Z.of_nat (snd (fst (shape a))) <= s
       /\ forall x y z, In (x, y, z) (voxels_of a) -> y <> 0)
   \/ (Z.of_nat (snd (shape a)) <= s
       /\ forall x y z, In (x, y, z) (voxels_of a) -> z <> 0)) ->
  box_count (shape a) (voxels_of a) 0 s = Ok 0.
Proof.
  intros Hne Hs Hax. rewrite box_count_no_offsets.
  destruct (BoxCountFacts.touched_at_zero_offset a s Hne Hs)
    as (ex & ey & ez & E & F).
  rewrite E. f_equal. apply BoxCountFacts.sum_positive_zero.
  intros c Hc Hin. apply in_map_iff in Hc as ([[x y] z] & <- & Hv).
  destruct (F x y z Hv) as (Hx & Hy & Hz & Hiff & _).
  apply Hiff in Hin as (Cx & Cy & Cz).
  assert (Hsmall : forall d v : Z, 0 <= v -> d <= s -> v <= (d - 1) / s * s ->
                                   v = 0).
  { intros d v Hv0 Hd Hle.
    destruct (Z.le_gt_cases d 0) as [Hd0 | Hd0].
    - assert ((d - 1) / s <= 0).
      { destruct (Z.le_gt_cases ((d - 1) / s) 0) as [? | C]; [assumption |].
        pose proof (Z.mul_div_le (d - 1) s Hs).
        pose proof (mul_le_mono s 1 ((d - 1) / s) ltac:(lia) ltac:(lia)). lia. }
      pose proof (mul_le_mono s ((d - 1) / s) 0 ltac:(lia) ltac:(lia)). lia.
    - rewrite Z.div_small in Hle by lia. lia. }
  destruct Hax as [[Hd H] | [[Hd H] | [Hd H]]].
  - apply (H x y z Hv). now apply (Hsmall _ x Hx Hd).
  - apply (H x y z Hv). now apply (Hsmall _ y Hy Hd).
  - apply (H x y z Hv). now apply (Hsmall _ z Hz Hd).
Qed.

(** X5.  With the default [max_box_size] and offsets disabled: when the smallest
    axis is a power of two, [2^k], the largest tested scale is [2^k]; if no
    occupied voxel has coordinate 0 on an axis of that extent, the count of
    that scale is zero, so [Ns] contains a zero. *)
Theorem zero_count_at_top_scale (a : ndarray) (k min_box_size : Z)
    (n_samples : nat) :
  voxels_of a <> [] ->
  min_shape a = 2 ^ k ->
  0 <= min_box_size <= k ->
  (1 <= n_samples)%nat ->
  ((Z.of_nat (fst (fst (shape a))) = 2 ^ k
    /\ forall x y z, In (x, y, z) (voxels_of a) -> x <> 0)
   \/ (Z.of_nat (snd (fst (shape a))) = 2 ^ k
       /\ forall x y z, In (x, y, z) (voxels_of a) -> y <> 0)
   \/ (Z.of_nat (snd (shape a)) = 2 ^ k
       /\ forall x y z, In (x, y, z) (voxels_of a) -> z <> 0)) ->
  exists scales Ns,
    scale_sequence a None min_box_size n_samples = Ok scales
    /\ In (2 ^ k) scales
    /\ min_counts (shape a) (voxels_of a) 0 scales = Ok Ns
    /\ In 0 Ns.
Proof.
  intros Hne Hmin Hk Hn Hax.
  assert (Hpos : 0 < 2 ^ k) by (apply Z.pow_pos_nonneg; lia).
  destruct (ScaleFacts.floor_logspace2_range k min_box_size n_samples Hk)
    as (Hr0 & Hhi0 & _).
  set (scales := Np.unique (Np.floor_logspace2 k min_box_size n_samples)).
  assert (Es : scale_sequence a None min_box_size n_samples = Ok scales).
  { unfold scale_sequence. rewrite Hmin.
    destruct (2 ^ k =? 0) eqn:E0; [apply Z.eqb_eq in E0; lia |].
    cbn [bind]. rewrite Z.log2_pow2 by lia. reflexivity. }
  assert (Hr : forall s, In s scales -> 2 ^ min_box_size <= s <= 2 ^ k).
  { intros s Hs. apply Hr0. now apply (proj1 (unique_In s _)). }
  assert (Hhi : In (2 ^ k) scales) by (apply unique_In; now apply Hhi0).
  assert (Hsc : forall s, In s scales -> 0 < s).
  { intros s Hs. apply Hr in Hs.
    assert (0 < 2 ^ min_box_size) by (apply Z.pow_pos_nonneg; lia). lia. }
  assert (Hmc : min_counts (shape a) (voxels_of a) 0 scales
                = mapM (box_count (shape a) (voxels_of a) 0) scales).
  { apply min_counts_box_count. intros C. rewrite C in Hhi. contradiction. }
  destruct (mapM_returns (box_count (shape a) (voxels_of a) 0) scales)
    as [Ns HNs].
  { intros s Hs. apply box_count_returns; [exact Hne | now apply Hsc]. }
  exists scales, Ns. split; [exact Es |]. split; [exact Hhi |].
  split; [now rewrite Hmc |].
  destruct (mapM_In _ _ _ _ HNs Hhi) as (c & Hc & Hin).
  assert (E0 : box_count (shape a) (voxels_of a) 0 (2 ^ k) = Ok 0).
  { apply box_count_beyond_extent; [exact Hne | exact Hpos |].
    destruct Hax as [[E H] | [[E H] | [E H]]];
      [left | right; left | right; right]; (split; [lia | exact H]). }
  rewrite E0 in Hc. inversion Hc; subst. exact Hin.
Qed.

Lemma zero_count_at_top_scale_witness :
  exists scales Ns,
    scale_sequence two_voxels None 1 20 = Ok scales
    /\ In (2 ^ 3) scales
    /\ min_counts (shape two_voxels) (voxels_of two_voxels) 0 scales = Ok Ns
    /\ In 0 Ns.
Proof.
  apply (zero_count_at_top_scale two_voxels 3 1 20).
  - vm_compute. discriminate.
  - vm_compute. reflexivity.
  - lia.
  - lia.
  - left. split; [reflexivity |].
    intros x y z H. vm_compute in H.
    destruct H as [H | [H | []]]; inversion H; discriminate.
Defined.

(** The reduction in general: one smallest scale per distinct count, in the
    order of the counts, cut to the number of positive counts. *)
Lemma reduce_shape (scales Ns : list Z) :
  length scales = length Ns ->
  exists all_scales,
    Forall2 (fun c s =>
               In (s, c) (combine scales Ns)
               /\ forall t, In (t, c) (combine scales Ns) -> s <= t)
            (Np.unique Ns) all_scales
    /\ reduce scales Ns
       = Ok (firstn (length (filter (fun n => 0 <? n) (Np.unique Ns)))
                    all_scales,
             filter (fun n => 0 <? n) (Np.unique Ns)).
Proof.
  intros Hlen. unfold reduce.
  set (f := fun x => sel <- Np.mask_select scales (map (Z.eqb x) Ns) ;;
                     Np.min sel).
  destruct (mapM_returns f (Np.unique Ns)) as [scales1 H1].
  { intros x Hx. apply (proj1 (unique_In x Ns)) in Hx. unfold f.
    destruct (mask_select_hit x scales Ns Hlen Hx) as (y & t & ->).
    now eexists. }
  exists scales1. rewrite H1. split; [| reflexivity].
  apply mapM_Forall2 in H1. eapply Forall2_impl; [| exact H1].
  intros c s Hf. unfold f in Hf.
  destruct (Np.mask_select scales (map (Z.eqb c) Ns)) as [sel |] eqn:Es;
    [| discriminate].
  cbn [bind] in Hf. apply np_min_spec in Hf as [Hin Hmin].
  split.
  - now apply (mask_select_In scales Ns c sel s Es).
  - intros t Ht. apply Hmin. now apply (mask_select_In scales Ns c sel t Es).
Qed.

(** Sorted counts that are not negative and contain a zero start with it,
    and the rest is positive. *)
Lemma unique_with_zero (Ns : list Z) :
  Forall (fun c => 0 <= c) Ns -> In 0 Ns ->
  exists rest,
    Np.unique Ns = 0 :: rest
    /\ filter (fun n => 0 <? n) (Np.unique Ns) = rest.
Proof.
  intros Hnn Hz.
  pose proof (unique_sorted Ns) as Hs.
  assert (Hin : forall c, In c (Np.unique Ns) -> 0 <= c).
  { intros c Hc. apply (proj1 (unique_In c Ns)) in Hc.
    rewrite Forall_forall in Hnn. now apply Hnn. }
  apply unique_In in Hz.
  destruct (Np.unique Ns) as [| h rest]; [contradiction |].
  inversion Hs as [| ? ? Hrest Hh]; subst. rewrite Forall_forall in Hh.
  assert (h = 0).
  { destruct Hz as [E | Hz]; [exact E |].
    specialize (Hh _ Hz). specialize (Hin h (or_introl eq_refl)). lia. }
  subst h. exists rest. split; [reflexivity |].
  cbn [filter]. change (0 <? 0) with false. cbv iota.
  apply forallb_filter_id, forallb_forall. intros c Hc.
  apply Z.ltb_lt. now apply Hh.
Qed.

(** X6.  When some tested scale has the count zero, the fit receives the
    positive counts in ascending order, but beside each of them the
    smallest scale of the preceding distinct count: the first positive
    count is paired with the smallest scale whose count is zero, and the
    smallest scale of the largest count is dropped. *)
Theorem fit_input_shifted_by_zero_count (a : ndarray)
    (max_box_size : option Z) (min_box_size : Z) (n_samples n_offsets : nat)
    (scales Ns : list Z) :
  scale_sequence a max_box_size min_box_size n_samples = Ok scales ->
  min_counts (shape a) (voxels_of a) n_offsets scales = Ok Ns ->
  In 0 Ns ->
  exists all_scales rest,
    Np.unique Ns = 0 :: rest
    /\ Forall2 (fun c s =>
                  In (s, c) (combine scales Ns)
                  /\ forall t, In (t, c) (combine scales Ns) -> s <= t)
               (0 :: rest) all_scales
    /\ fit_input a max_box_size min_box_size n_samples n_offsets
       = Ok (removelast all_scales, rest).
Proof.
  intros Hs HN Hz. unfold fit_input. rewrite Hs. cbn [bind]. rewrite HN.
  cbn [bind].
  pose proof (min_counts_length _ _ _ _ _ HN) as Hlen.
  destruct (reduce_shape scales Ns (eq_sym Hlen)) as (all_scales & HF & E).
  destruct (unique_with_zero Ns (min_counts_nonneg _ _ _ _ _ HN) Hz)
    as (rest & Hu & Hf).
  exists all_scales, rest. rewrite Hu in HF.
  split; [exact Hu |]. split; [exact HF |].
  rewrite E, Hf. f_equal. f_equal.
  rewrite removelast_firstn_len. f_equal.
  apply Forall2_length in HF. simpl in HF. lia.
Qed.

Lemma fit_input_shifted_by_zero_count_witness :
  exists all_scales rest,
    Np.unique [1; 2; 1; 1; 1; 1; 0] = 0 :: rest
    /\ Forall2 (fun c s =>
                  In (s, c) (combine [2; 3; 4; 5; 6; 7; 8]
                                     [1; 2; 1; 1; 1; 1; 0])
                  /\ forall t, In (t, c) (combine [2; 3; 4; 5; 6; 7; 8]
                                                  [1; 2; 1; 1; 1; 1; 0]) ->
                               s <= t)
               (0 :: rest) all_scales
    /\ fit_input two_voxels None 1 20 0 = Ok (removelast all_scales, rest).
Proof.
  apply (fit_input_shifted_by_zero_count two_voxels None 1 20 0).
  - vm_compute. reflexivity.
  - vm_compute. reflexivity.
  - simpl. tauto.
Defined.

End ReductionFacts.

(** ** The line fit *)

Module FitFacts.
Import Fractal Examples Volumes FractalFacts.

Local Open Scope R_scope.

Lemma Rsum_map_linear {A} (f g : A -> R) (a b : R) (l : list A) :
  Np.Rsum (map (fun x => a * f x + b * g x) l)
  = a * Np.Rsum (map f l) + b * Np.Rsum (map g l).
Proof.
  unfold Np.Rsum. induction l as [| x l IH]; simpl; [ring |].
  rewrite IH. ring.
Qed.

Lemma Rsum_const {A} (c : R) (l : list A) :
  Np.Rsum (map (fun _ => c) l) = INR (length l) * c.
Proof.
  unfold Np.Rsum. induction l as [| x l IH]; [simpl; ring |].
  cbn [map fold_right length]. rewrite S_INR, IH. ring.
Qed.

Lemma Rsum_nonneg (l : list R) : Forall (fun x => 0 <= x) l -> 0 <= Np.Rsum l.
Proof.
  unfold Np.Rsum. induction 1 as [| x l Hx _ IH]; simpl; lra.
Qed.

(** The determinant of the normal equations of a line fit is a sum of
    squared differences. *)
Lemma det_cons (x : R) (l : list R) :
  INR (length (x :: l)) * Np.Rsum (map (fun u => u * u) (x :: l))
  - Np.Rsum (x :: l) * Np.Rsum (x :: l)
  = (INR (length l) * Np.Rsum (map (fun u => u * u) l)
     - Np.Rsum l * Np.Rsum l)
    + Np.Rsum (map (fun y => (x - y) * (x - y)) l).
Proof.
  replace (map (fun y => (x - y) * (x - y)) l)
    with (map (fun y => (x * x) * (fun _ => 1) y
                        + (-2 * x) * (fun y => y) y + 1 * (y * y)) l).
  2:{ apply map_ext. intros y. ring. }
  assert (E : Np.Rsum (map (fun y => x * x * (fun _ : R => 1) y
                                     + -2 * x * (fun y0 : R => y0) y
                                     + 1 * (y * y)) l)
              = x * x * INR (length l) - 2 * x * Np.Rsum l
                + Np.Rsum (map (fun u => u * u) l)).
  { unfold Np.Rsum. induction l as [| y l IH]; [simpl; ring |].
    cbn [map fold_right length]. rewrite S_INR, IH. ring. }
  rewrite E. cbn [length]. rewrite S_INR.
  unfold Np.Rsum. cbn [map fold_right]. ring.
Qed.

Lemma det_nonneg (l : list R) :
  0 <= INR (length l) * Np.Rsum (map (fun u => u * u) l)
       - Np.Rsum l * Np.Rsum l.
Proof.
  induction l as [| x l IH]; [unfold Np.Rsum; simpl; lra |].
  rewrite det_cons.
  assert (0 <= Np.Rsum (map (fun y => (x - y) * (x - y)) l)).
  { apply Rsum_nonneg, Forall_forall. intros v Hv.
    apply in_map_iff in Hv as (y & <- & _). apply (Rle_0_sqr (x - y)). }
  lra.
Qed.

(** Two different abscissae make the fit well determined. *)
Lemma det_pos (x y : R) (l : list R) :
  x <> y ->
  0 < INR (length (x :: y :: l))
      * Np.Rsum (map (fun u => u * u) (x :: y :: l))
      - Np.Rsum (x :: y :: l) * Np.Rsum (x :: y :: l).
Proof.
  intros Hxy. rewrite det_cons.
  pose proof (det_nonneg (y :: l)) as Hd.
  assert (0 < Np.Rsum (map (fun u => (x - u) * (x - u)) (y :: l))).
  { unfold Np.Rsum. cbn [map fold_right].
    assert (0 <= fold_right Rplus 0 (map (fun u => (x - u) * (x - u)) l)).
    { apply (Rsum_nonneg (map (fun u => (x - u) * (x - u)) l)).
      apply Forall_forall. intros v Hv.
      apply in_map_iff in Hv as (u & <- & _). apply (Rle_0_sqr (x - u)). }
    assert (0 < (x - y) * (x - y)).
    { apply (Rlt_0_sqr (x - y)). lra. }
    lra. }
  lra.
Qed.

(** On points that lie on a line, with at least two different abscissae,
    the fit returns that line. *)
Lemma polyfit1_line (a D : R) (xs : list R) :
  INR (length xs) * Np.Rsum (map (fun u => u * u) xs)
  - Np.Rsum xs * Np.Rsum xs <> 0 ->
  Np.polyfit1 xs (map (fun x => a + D * x) xs) = Ok (D, a).
Proof.
  intros Hdet. unfold Np.polyfit1.
  destruct xs as [| x0 xs'] eqn:Exs.
  { exfalso. apply Hdet. unfold Np.Rsum. simpl. ring. }
  rewrite <- Exs in *. rewrite length_map, Nat.eqb_refl. cbn [negb].
  assert (Hn : INR (length xs) <> 0).
  { rewrite Exs. apply not_0_INR. simpl. discriminate. }
  assert (Hsy : Np.Rsum (map (fun x => a + D * x) xs)
                = INR (length xs) * a + D * Np.Rsum xs).
  { rewrite <- (map_id xs) at 3.
    rewrite <- (Rsum_const a xs).
    replace (INR (length xs) * a) with (a * INR (length xs)) by ring.
    rewrite <- (Rmult_1_r (Np.Rsum (map (fun _ => a) xs))).
    unfold Np.Rsum. clear. induction xs as [| x l IH]; simpl; [ring |].
    simpl in IH. lra. }
  assert (Hsxy : Np.Rsum (map (fun p => fst p * snd p)
                              (combine xs (map (fun x => a + D * x) xs)))
                 = a * Np.Rsum xs + D * Np.Rsum (map (fun u => u * u) xs)).
  { unfold Np.Rsum. clear. induction xs as [| x l IH]; simpl; [ring |].
    simpl in IH. rewrite IH. ring. }
  rewrite Hsy, Hsxy.
  destruct (Req_dec_T _ 0) as [E | _]; [contradiction |].
  f_equal. f_equal; field; auto.
Qed.

Local Close Scope R_scope.

(** A scale of zero has no bin edges, so a run that returns its counts
    has only positive scales. *)
Lemma counted_scales_positive (a : ndarray) (max_box_size : option Z)
    (min_box_size : Z) (n_samples n_offsets : nat) (scales Ns : list Z) :
  scale_sequence a max_box_size min_box_size n_samples = Ok scales ->
  min_counts (shape a) (voxels_of a) n_offsets scales = Ok Ns ->
  Forall (fun s => 0 < s) scales.
Proof.
  intros Hs Hc. apply Forall_forall. intros s Hin.
  assert (Hnn : 0 <= s).
  { unfold scale_sequence in Hs.
    destruct (match max_box_size with
              | Some m => Ok m
              | None => if min_shape a =? 0 then Raise OverflowError
                        else Ok (Z.log2 (min_shape a))
              end) as [mb |]; [| discriminate].
    cbn [bind] in Hs. inversion Hs; subst scales.
    apply (proj1 (unique_In s _)) in Hin. unfold Np.floor_logspace2 in Hin.
    apply in_map_iff in Hin as (q & <- & _). apply floor_pow2_nonneg. }
  destruct (Z.eq_dec s 0) as [E | N]; [| lia]. exfalso. subst s.
  unfold min_counts in Hc.
  destruct (mapM (touched_row (shape a) (voxels_of a) n_offsets) scales)
    as [rows |] eqn:Er; [| discriminate].
  destruct (ReductionFacts.mapM_In _ _ _ 0 Er Hin) as (row & Hrow & _).
  unfold touched_row in Hrow.
  destruct (offsets_of n_offsets 0) as [| o os] eqn:Eo.
  { now apply offsets_of_nonempty in Eo. }
  cbn [mapM] in Hrow. unfold touched_at in Hrow.
  destruct (shape a) as [[d0 d1] d2].
  unfold bin_edges, Np.arange in Hrow. cbn in Hrow. discriminate.
Qed.

Lemma firstn_incl {A} (n : nat) (l : list A) (x : A) :
  In x (firstn n l) -> In x l.
Proof.
  intros H. rewrite <- (firstn_skipn n l). apply in_or_app. now left.
Qed.

Lemma map_combine_ext {A B C} (f : B -> C) (g : A -> C)
    (la : list A) (lb : list B) :
  length la = length lb ->
  (forall x y, In (x, y) (combine la lb) -> f y = g x) ->
  map f lb = map g la.
Proof.
  revert lb. induction la as [| x la IH]; intros [| y lb] Hlen H;
    simpl in Hlen; try discriminate; [reflexivity |].
  cbn [map]. f_equal.
  - apply H. now left.
  - apply IH; [lia |]. intros u v Huv. apply H. now right.
Qed.

(** The points handed to the fit: as many scales as counts, every scale
    and every count positive, no count twice. *)
Lemma fit_input_shape (a : ndarray) (max_box_size : option Z)
    (min_box_size : Z) (n_samples n_offsets : nat) (ss cs : list Z) :
  fit_input a max_box_size min_box_size n_samples n_offsets = Ok (ss, cs) ->
  length ss = length cs
  /\ Forall (fun s => 0 < s) ss
  /\ Forall (fun c => 0 < c) cs
  /\ NoDup cs.
Proof.
  intros H. unfold fit_input in H.
  destruct (scale_sequence a max_box_size min_box_size n_samples)
    as [scales |] eqn:Es; [| discriminate].
  cbn [bind] in H.
  destruct (min_counts (shape a) (voxels_of a) n_offsets scales)
    as [Ns |] eqn:Ec; [| discriminate].
  cbn [bind] in H.
  pose proof (counted_scales_positive _ _ _ _ _ _ _ Es Ec) as Hpos.
  pose proof (min_counts_length _ _ _ _ _ Ec) as Hlen.
  destruct (ReductionFacts.reduce_shape scales Ns (eq_sym Hlen))
    as (all_scales & Hall & Hred).
  rewrite Hred in H. inversion H as [[Hss Hcs]]. clear H.
  set (pos := filter (fun n => 0 <? n) (Np.unique Ns)) in *.
  assert (Hle : (length pos <= length all_scales)%nat).
  { rewrite <- (Forall2_length Hall). apply filter_length_le. }
  repeat split.
  - rewrite length_firstn. lia.
  - apply Forall_forall. intros s Hin. apply firstn_incl in Hin.
    assert (Hc : exists c, In (s, c) (combine scales Ns)).
    { clear - Hall Hin. induction Hall as [| c s' l l' [Hhd _] _ IH].
      - contradiction.
      - destruct Hin as [<- | Hin]; [now exists c | now apply IH]. }
    destruct Hc as [c Hc]. apply in_combine_l in Hc.
    exact (proj1 (Forall_forall _ _) Hpos s Hc).
  - apply Forall_forall. intros c Hin. apply filter_In in Hin as [_ Hc].
    now apply Z.ltb_lt in Hc.
  - apply sorted_lt_NoDup. apply sorted_filter. apply unique_sorted.
Qed.

Local Open Scope R_scope.

Lemma ln_inv_scale (s : Z) : (0 < s)%Z -> ln (1 / IZR s) = - ln (IZR s).
Proof.
  intros Hs. assert (0 < IZR s) by now apply IZR_lt.
  unfold Rdiv. rewrite Rmult_1_l. now apply ln_Rinv.
Qed.

Lemma ln_IZR_inj (s t : Z) :
  (0 < s)%Z -> (0 < t)%Z -> ln (IZR s) = ln (IZR t) -> s = t.
Proof.
  intros Hs Ht E. apply eq_IZR. apply ln_inv; [now apply IZR_lt .. | exact E].
Qed.

(** The logarithm of a power-law relation between a count and a scale. *)
Lemma ln_power_law (s c A : Z) (p q : nat) :
  (0 < s)%Z -> (0 < c)%Z ->
  (c ^ Z.of_nat q * s ^ Z.of_nat p = A)%Z ->
  INR q * ln (IZR c) + INR p * ln (IZR s) = ln (IZR A).
Proof.
  intros Hs Hc E.
  assert (Hs' : 0 < IZR s) by now apply IZR_lt.
  assert (Hc' : 0 < IZR c) by now apply IZR_lt.
  rewrite <- E, mult_IZR, <- !pow_IZR.
  rewrite ln_mult by (apply pow_lt; assumption).
  now rewrite !ln_pow.
Qed.

(** X7.  When the points handed to the fit follow a power law exactly,
    [N^q * s^p] being the same at every point with [q] positive, and there
    are at least two points, the reported dimension is [p / q]. *)
Theorem power_law_dimension (a : ndarray) (max_box_size : option Z)
    (min_box_size : Z) (n_samples n_offsets : nat) (ss cs : list Z)
    (p q : nat) (A : Z) :
  fit_input a max_box_size min_box_size n_samples n_offsets = Ok (ss, cs) ->
  (2 <= length ss)%nat ->
  (0 < q)%nat ->
  (forall s c, In (s, c) (combine ss cs) ->
               (c ^ Z.of_nat q * s ^ Z.of_nat p = A)%Z) ->
  fractal_dimension_3D a max_box_size min_box_size n_samples n_offsets
  = Ok (INR p / INR q).
Proof.
  intros Hfit Hlen2 Hq Hlaw.
  destruct (fit_input_shape _ _ _ _ _ _ _ Hfit) as (Hlen & Hsp & Hcp & Hnd).
  unfold fractal_dimension_3D. rewrite Hfit. cbn [bind fst snd].
  assert (Hq' : INR q <> 0) by (apply not_0_INR; lia).
  set (x := fun s : Z => ln (1 / IZR s)).
  set (b := ln (IZR A) / INR q).
  assert (Hy : map (fun n => ln (IZR n)) cs
               = map (fun u => b + INR p / INR q * u) (map x ss)).
  { rewrite map_map. apply map_combine_ext; [exact Hlen |].
    intros s c Hin.
    assert (Hs : (0 < s)%Z).
    { exact (proj1 (Forall_forall _ _) Hsp s (in_combine_l _ _ _ _ Hin)). }
    assert (Hc : (0 < c)%Z).
    { exact (proj1 (Forall_forall _ _) Hcp c (in_combine_r _ _ _ _ Hin)). }
    pose proof (ln_power_law s c A p q Hs Hc (Hlaw s c Hin)) as E.
    unfold x, b. rewrite (ln_inv_scale s Hs), <- E. field. exact Hq'. }
  rewrite Hy.
  rewrite polyfit1_line; [reflexivity |].
  destruct ss as [| s1 [| s2 ss']]; cbn [length] in Hlen2; try lia.
  destruct cs as [| c1 [| c2 cs']]; cbn [length] in Hlen; try discriminate.
  cbn [map]. apply Rgt_not_eq, Rlt_gt, det_pos.
  inversion Hsp as [| ? ? Hs1 Hsp']; subst.
  inversion Hsp' as [| ? ? Hs2 _]; subst.
  inversion Hcp as [| ? ? Hc1 Hcp']; subst.
  inversion Hcp' as [| ? ? Hc2 _]; subst.
  unfold x. rewrite (ln_inv_scale s1 Hs1), (ln_inv_scale s2 Hs2).
  intros E. assert (E' : s1 = s2).
  { apply ln_IZR_inj; [assumption .. | lra]. }
  subst s2.
  pose proof (Hlaw s1 c1 (or_introl eq_refl)) as L1.
  pose proof (Hlaw s1 c2 (or_intror (or_introl eq_refl))) as L2.
  assert (Hp : (0 < s1 ^ Z.of_nat p)%Z) by (apply Z.pow_pos_nonneg; lia).
  assert (Ec : (c1 ^ Z.of_nat q = c2 ^ Z.of_nat q)%Z).
  { apply (Z.mul_cancel_r _ _ (s1 ^ Z.of_nat p)); lia. }
  apply Z.pow_inj_l in Ec; [| lia ..].
  inversion Hnd as [| ? ? Hnot _]; subst. apply Hnot. now left.
Qed.

(** The filled 9 x 9 x 9 grid counted at the scales 2, 4 and 8 has
    dimension 3. *)
Lemma power_law_dimension_witness :
  fractal_dimension_3D full_cube (Some 3%Z) 1 3 0 = Ok (INR 3 / INR 1).
Proof.
  apply (power_law_dimension full_cube (Some 3%Z) 1 3 0
           [8; 4; 2]%Z [1; 8; 64]%Z 3 1 512%Z).
  - vm_compute. reflexivity.
  - simpl. lia.
  - lia.
  - intros s c H. simpl in H.
    destruct H as [H | [H | [H | []]]]; inversion H; reflexivity.
Defined.

End FitFacts.

(** ** Branches without length *)

Module ZeroPathFacts.
Import Float Tortuosity Examples TortuosityFacts.

Local Open Scope R_scope.

Lemma sum_zeros {A} (l : list A) :
  fold_right Rplus 0 (map (fun _ : A => 0) l) = 0.
Proof.
  induction l as [| x l IH]; cbn [map fold_right]; [reflexivity |].
  rewrite IH. ring.
Qed.

(** X22.  When the threshold is not negative, at least one branch is
    retained and every retained branch has path length 0, the mean
    tortuosity is 0 and the weighted tortuosity is 0/0, NaN: the two
    figures differ although all retained path lengths are equal. *)
Theorem zero_paths_mean_and_weighted (branches : list branch) (thr : R) :
  0 <= thr ->
  df_tort (Float64 branches) thr <> [] ->
  (forall b, In b (df_tort (Float64 branches) thr) -> branch_distance b = 0) ->
  compute_tortuosity (Float64 branches) thr = Ok (Fin 0, NaN).
Proof.
  intros Hthr Hne Hz. unfold compute_tortuosity.
  set (rows := df_tort (Float64 branches) thr) in *.
  assert (Ht : map tortuosity rows = map Fin (map (fun _ => 0) rows)).
  { rewrite map_map. apply map_ext_in. intros b Hb. unfold tortuosity.
    rewrite (Hz b Hb). apply df_tort_In in Hb as [_ Hb].
    rewrite fdiv_fin by lra. f_equal. field. lra. }
  assert (Hn : map (fun b => fmul (Fin (branch_distance b)) (tortuosity b))
                   rows
               = map Fin (map (fun _ => 0) rows)).
  { rewrite map_map. apply map_ext_in. intros b Hb. unfold tortuosity.
    rewrite (Hz b Hb). apply df_tort_In in Hb as [_ Hb].
    rewrite fdiv_fin by lra. cbn [fmul]. f_equal. field. lra. }
  assert (Hd : map (fun b => Fin (branch_distance b)) rows
               = map Fin (map (fun _ => 0) rows)).
  { rewrite map_map. apply map_ext_in. intros b Hb. now rewrite (Hz b Hb). }
  rewrite Ht, Hn, Hd, series_sum_fin, series_mean_fin, sum_zeros.
  2:{ destruct rows; [now elim Hne | discriminate]. }
  rewrite length_map. f_equal. f_equal.
  - f_equal. unfold Rdiv. ring.
  - unfold fdiv. same_real. apply signed_inf_zero.
Qed.

(** One branch between (0,0,0) and (0,0,1) with path length 0. *)
Lemma zero_paths_mean_and_weighted_witness :
  compute_tortuosity (Float64 [straight 1 0]) default_length_threshold
  = Ok (Fin 0, NaN).
Proof.
  assert (Hrows : df_tort (Float64 [straight 1 0]) default_length_threshold
                  = [straight 1 0]).
  { unfold default_length_threshold.
    rewrite !df_tort_cons, df_tort_nil, !euclid_straight by lra.
    destruct (Rlt_dec (1 / 1000000) 1) as [_ | N];
      [reflexivity | exfalso; lra]. }
  apply (zero_paths_mean_and_weighted [straight 1 0]
                                      default_length_threshold).
  - unfold default_length_threshold. lra.
  - rewrite Hrows. discriminate.
  - rewrite Hrows. intros b [<- | []]. reflexivity.
Defined.

End ZeroPathFacts.

(** ** The label volume of the per-lobe scripts *)

Module LobeFacts.
Import Fractal Lobes Segmentations FractalFacts.

Lemma values_In (a : ndarray) (v : Z) :
  In v (values a)
  <-> exists x y z, inside (shape a) x y z /\ item a x y z = v.
Proof.
  unfold values, inside. destruct (shape a) as [[d0 d1] d2]. cbn [fst snd].
  split.
  - intros H. apply in_flat_map in H as (x & Hx & H).
    apply in_flat_map in H as (y & Hy & H).
    apply in_map_iff in H as (z & E & Hz).
    apply in_seq in Hx, Hy, Hz. exists x, y, z. repeat split; [lia .. | exact E].
  - intros (x & y & z & (Hx & Hy & Hz) & E).
    apply in_flat_map. exists x. split; [apply in_seq; lia |].
    apply in_flat_map. exists y. split; [apply in_seq; lia |].
    apply in_map_iff. exists z. split; [exact E | apply in_seq; lia].
Qed.

Lemma voxels_of_In (a : ndarray) (x y z : nat) :
  In (Z.of_nat x, Z.of_nat y, Z.of_nat z) (voxels_of a)
  <-> inside (shape a) x y z /\ 0 < item a x y z.
Proof.
  unfold voxels_of, inside. destruct (shape a) as [[d0 d1] d2]. cbn [fst snd].
  split.
  - intros H. apply in_flat_map in H as (x' & Hx & H).
    apply in_flat_map in H as (y' & Hy & H).
    apply in_flat_map in H as (z' & Hz & H).
    apply in_seq in Hx, Hy, Hz.
    destruct (0 <? item a x' y' z') eqn:E; [| contradiction].
    destruct H as [H | []]. inversion H.
    apply Nat2Z.inj in H1, H2, H3. subst x' y' z'.
    apply Z.ltb_lt in E. repeat split; [lia .. | exact E].
  - intros ((Hx & Hy & Hz) & Hv).
    apply in_flat_map. exists x. split; [apply in_seq; lia |].
    apply in_flat_map. exists y. split; [apply in_seq; lia |].
    apply in_flat_map. exists z. split; [apply in_seq; lia |].
    apply Z.ltb_lt in Hv. rewrite Hv. now left.
Qed.

Lemma unique_lobes_In (a : ndarray) (lab : Z) :
  In lab (unique_lobes a)
  <-> lab <> 0 /\ exists x y z, inside (shape a) x y z /\ item a x y z = lab.
Proof.
  unfold unique_lobes. rewrite filter_In, unique_In, values_In.
  rewrite negb_true_iff, Z.eqb_neq. tauto.
Qed.

Lemma label_mask_any (a : ndarray) (lab : Z) :
  In lab (unique_lobes a) -> any (mask_eq a lab) = true.
Proof.
  intros H. apply unique_lobes_In in H as (_ & x & y & z & Hin & E).
  unfold any. apply existsb_exists. exists 1. split; [| reflexivity].
  apply values_In. exists x, y, z. split; [exact Hin |].
  cbn [mask_eq item]. now rewrite E, Z.eqb_refl.
Qed.

Lemma label_mask_voxels (a : ndarray) (lab : Z) :
  In lab (unique_lobes a) -> voxels_of (mask_eq a lab) <> [].
Proof.
  intros H. apply unique_lobes_In in H as (_ & x & y & z & Hin & E).
  assert (Hv : In (Z.of_nat x, Z.of_nat y, Z.of_nat z)
                  (voxels_of (mask_eq a lab))).
  { apply voxels_of_In. split; [exact Hin |].
    cbn [mask_eq item]. rewrite E, Z.eqb_refl. lia. }
  intros E0. now rewrite E0 in Hv.
Qed.

(** X10.  Every label the per-lobe loop visits marks at least one cell:
    its mask is not all False, so the [np.any] guard never skips a label
    and the volume handed on has an occupied voxel. *)
Theorem label_mask_not_empty (a : ndarray) (lab : Z) :
  In lab (unique_lobes a) ->
  any (mask_eq a lab) = true /\ voxels_of (mask_eq a lab) <> [].
Proof.
  intros H. split; [now apply label_mask_any | now apply label_mask_voxels].
Qed.

Lemma label_mask_not_empty_witness :
  any (mask_eq two_lobes 2) = true /\ voxels_of (mask_eq two_lobes 2) <> [].
Proof.
  apply (label_mask_not_empty two_lobes 2). vm_compute. right. now left.
Defined.

Lemma broadcast_same (n : nat) : broadcast_axis n n = Ok n.
Proof.
  unfold broadcast_axis. now rewrite Nat.eqb_refl.
Qed.

(** Arrays of one shape are multiplied cell by cell. *)
Lemma multiply_same_shape (l a : ndarray) :
  shape l = shape a ->
  exists al,
    multiply_uint8 l a = Ok al
    /\ shape al = shape l
    /\ forall x y z, inside (shape l) x y z ->
         item al x y z = (item l x y z * item a x y z) mod 256.
Proof.
  intros Hs. unfold multiply_uint8. rewrite <- Hs.
  destruct (shape l) as [[d0 d1] d2] eqn:El.
  rewrite !broadcast_same. cbn [bind]. eexists. split; [reflexivity |].
  split; [reflexivity |].
  intros x y z (Hx & Hy & Hz). cbn [fst snd] in *. cbn [item].
  assert (St : forall m i, (i < m)%nat -> stretched m i = i).
  { intros m i Hi. unfold stretched. destruct (Nat.eqb m 1) eqn:E; [| easy].
    apply Nat.eqb_eq in E. lia. }
  now rewrite !St.
Qed.

(** X11.  With an airway mask stored as 0 and 1 and a lobe volume of the
    same shape, the labels visited are exactly the lobe values found
    inside the airway, and the mask of a label is the part of that lobe
    inside the airway. *)
Theorem binary_airway_labels (l a : ndarray) :
  shape l = shape a ->
  (forall x y z, inside (shape l) x y z ->
     0 <= item l x y z < 256 /\ (item a x y z = 0 \/ item a x y z = 1)) ->
  exists al,
    multiply_uint8 l a = Ok al
    /\ shape al = shape l
    /\ (forall lab,
          In lab (unique_lobes al)
          <-> lab <> 0
              /\ exists x y z, inside (shape l) x y z
                               /\ item l x y z = lab /\ item a x y z = 1)
    /\ (forall lab x y z,
          lab <> 0 -> inside (shape l) x y z ->
          item (mask_eq al lab) x y z
          = if (item l x y z =? lab) && (item a x y z =? 1) then 1 else 0).
Proof.
  intros Hs Hv.
  destruct (multiply_same_shape l a Hs) as (al & Hal & Hshape & Hitem).
  exists al. split; [exact Hal |]. split; [exact Hshape |].
  assert (Hcell : forall x y z, inside (shape l) x y z ->
            item al x y z = if item a x y z =? 1 then item l x y z else 0).
  { intros x y z Hin. rewrite (Hitem x y z Hin).
    destruct (Hv x y z Hin) as [Hl [Ha | Ha]]; rewrite Ha.
    - now rewrite Z.mul_0_r.
    - rewrite Z.mul_1_r. now apply Z.mod_small. }
  split.
  - intros lab. rewrite unique_lobes_In, Hshape. split.
    + intros (Hne & x & y & z & Hin & E). split; [exact Hne |].
      exists x, y, z. split; [exact Hin |].
      rewrite (Hcell x y z Hin) in E.
      destruct (item a x y z =? 1) eqn:Ea.
      * apply Z.eqb_eq in Ea. now split.
      * now elim Hne.
    + intros (Hne & x & y & z & Hin & El & Ea). split; [exact Hne |].
      exists x, y, z. split; [exact Hin |].
      now rewrite (Hcell x y z Hin), Ea.
  - intros lab x y z Hne Hin. cbn [mask_eq item].
    rewrite (Hcell x y z Hin).
    destruct (item a x y z =? 1).
    + now rewrite andb_true_r.
    + rewrite andb_false_r. destruct (0 =? lab) eqn:E; [| reflexivity].
      apply Z.eqb_eq in E. now elim Hne.
Qed.

Lemma binary_airway_labels_witness :
  exists al,
    multiply_uint8 two_lobes (airway_line 1) = Ok al
    /\ shape al = shape two_lobes
    /\ (forall lab,
          In lab (unique_lobes al)
          <-> lab <> 0
              /\ exists x y z, inside (shape two_lobes) x y z
                               /\ item two_lobes x y z = lab
                               /\ item (airway_line 1) x y z = 1)
    /\ (forall lab x y z,
          lab <> 0 -> inside (shape two_lobes) x y z ->
          item (mask_eq al lab) x y z
          = if (item two_lobes x y z =? lab)
               && (item (airway_line 1) x y z =? 1) then 1 else 0).
Proof.
  apply (binary_airway_labels two_lobes (airway_line 1)).
  - reflexivity.
  - intros x y z Hin. cbn [two_lobes airway_line item].
    split.
    + destruct (Nat.eqb x 0); lia.
    + destruct (Nat.eqb y 0 && Nat.eqb z 0); [now right | now left].
Defined.

(** X12.  With an airway mask stored as 0 and 255 the product wraps: a
    lobe [v] inside the airway is visited under the label [256 - v]. *)
Theorem full_scale_airway_labels (l a : ndarray) :
  shape l = shape a ->
  (forall x y z, inside (shape l) x y z ->
     0 <= item l x y z < 256 /\ (item a x y z = 0 \/ item a x y z = 255)) ->
  exists al,
    multiply_uint8 l a = Ok al
    /\ forall lab,
         In lab (unique_lobes al)
         <-> exists x y z, inside (shape l) x y z
                           /\ item l x y z <> 0
                           /\ lab = 256 - item l x y z
                           /\ item a x y z = 255.
Proof.
  intros Hs Hv.
  destruct (multiply_same_shape l a Hs) as (al & Hal & Hshape & Hitem).
  exists al. split; [exact Hal |].
  assert (Hcell : forall x y z, inside (shape l) x y z ->
            item al x y z
            = if (item a x y z =? 255) && negb (item l x y z =? 0)
              then 256 - item l x y z else 0).
  { intros x y z Hin. rewrite (Hitem x y z Hin).
    destruct (Hv x y z Hin) as [Hl [Ha | Ha]]; rewrite Ha.
    - now rewrite Z.mul_0_r.
    - cbn [Z.eqb Pos.eqb andb]. destruct (item l x y z =? 0) eqn:E0.
      + apply Z.eqb_eq in E0. now rewrite E0.
      + apply Z.eqb_neq in E0. cbn [negb].
        symmetry. apply (Z.mod_unique_pos _ _ (item l x y z - 1)); lia. }
  intros lab. rewrite unique_lobes_In, Hshape. split.
  - intros (Hne & x & y & z & Hin & E). exists x, y, z.
    split; [exact Hin |]. rewrite (Hcell x y z Hin) in E.
    destruct (item a x y z =? 255) eqn:Ea; [| now elim Hne].
    destruct (item l x y z =? 0) eqn:El; [now elim Hne |].
    apply Z.eqb_eq in Ea. apply Z.eqb_neq in El. cbn in E. now repeat split.
  - intros (x & y & z & Hin & El & E & Ea).
    destruct (Hv x y z Hin) as [Hl _]. split; [lia |].
    exists x, y, z. split; [exact Hin |].
    rewrite (Hcell x y z Hin), Ea. apply Z.eqb_neq in El. rewrite El.
    cbn. now symmetry.
Qed.

Lemma full_scale_airway_labels_witness :
  exists al,
    multiply_uint8 two_lobes (airway_line 255) = Ok al
    /\ forall lab,
         In lab (unique_lobes al)
         <-> exists x y z, inside (shape two_lobes) x y z
                           /\ item two_lobes x y z <> 0
                           /\ lab = 256 - item two_lobes x y z
                           /\ item (airway_line 255) x y z = 255.
Proof.
  apply (full_scale_airway_labels two_lobes (airway_line 255)).
  - reflexivity.
  - intros x y z Hin. cbn [two_lobes airway_line item].
    split.
    + destruct (Nat.eqb x 0); lia.
    + destruct (Nat.eqb y 0 && Nat.eqb z 0); [now right | now left].
Defined.

End LobeFacts.

(** ** The keys of the result files *)

Module NameFacts.
Import Ascii String List ListNotations Names.

Local Open Scope nat_scope.

Lemma str_eqb_eq (a b : str) : str_eqb a b = true <-> a = b.
Proof.
  revert b. induction a as [| x a IH]; intros [| y b]; cbn [str_eqb];
    try (split; [discriminate | intros E; discriminate]);
    [split; reflexivity |].
  rewrite andb_true_iff, Ascii.eqb_eq, IH. split.
  - now intros [-> ->].
  - intros E. inversion E. now split.
Qed.

Lemma str_eqb_refl (a : str) : str_eqb a a = true.
Proof.
  now apply str_eqb_eq.
Qed.

Lemma str_eqb_neq (a b : str) : str_eqb a b = false <-> a <> b.
Proof.
  destruct (str_eqb a b) eqn:E.
  - apply str_eqb_eq in E. split; [discriminate | contradiction].
  - split; [| reflexivity]. intros _ H. apply str_eqb_eq in H. congruence.
Qed.

Lemma rfind_absent (s : str) (c : Ascii.ascii) :
  ~ In c s -> rfind s c = None.
Proof.
  induction s as [| x t IH]; intros H; [reflexivity |].
  cbn [rfind]. rewrite IH by (intros Hin; apply H; now right).
  destruct (Ascii.eqb x c) eqn:E; [| reflexivity].
  apply Ascii.eqb_eq in E. exfalso. apply H. now left.
Qed.

Lemma rfind_last (a b : str) (c : Ascii.ascii) :
  ~ In c b -> rfind (a ++ c :: b) c = Some (length a).
Proof.
  intros H. induction a as [| x a IH].
  - cbn [app rfind length]. rewrite (rfind_absent b c H).
    now rewrite Ascii.eqb_refl.
  - cbn [app rfind length]. now rewrite IH.
Qed.

Lemma firstn_exact {A} (a b : list A) : firstn (length a) (a ++ b) = a.
Proof.
  rewrite firstn_app, Nat.sub_diag, firstn_all. cbn [firstn]. apply app_nil_r.
Qed.

Lemma skipn_exact {A} (a b : list A) : skipn (length a) (a ++ b) = b.
Proof.
  rewrite skipn_app, Nat.sub_diag, skipn_all. reflexivity.
Qed.

Lemma startswith_prefix (s p : str) :
  startswith s p = true <-> exists post, s = p ++ post.
Proof.
  revert s. induction p as [| x p IH]; intros s.
  - split; [intros _; now exists s | intros _; now destruct s].
  - destruct s as [| y s]; cbn [startswith].
    + split; [discriminate | intros [post E]; discriminate].
    + rewrite andb_true_iff, Ascii.eqb_eq, IH. split.
      * intros [-> [post ->]]. now exists post.
      * intros [post E]. inversion E. split; [reflexivity | now exists post].
Qed.

Lemma replace_from_skip (old new : str) (k : nat) (s : str) :
  replace_from old new k s = replace_from old new 0 (skipn k s).
Proof.
  revert k. induction s as [| c t IH]; intros k.
  - now rewrite skipn_nil.
  - destruct k as [| k]; [reflexivity |]. cbn [replace_from skipn]. apply IH.
Qed.

Lemma replace_from_match (o : Ascii.ascii) (old new s : str) :
  startswith s (o :: old) = true ->
  replace_from (o :: old) new 0 s
  = new ++ replace_from (o :: old) new 0 (skipn (length (o :: old)) s).
Proof.
  intros H. destruct s as [| c t]; [discriminate |].
  cbn [replace_from]. rewrite H. f_equal.
  replace (length (o :: old) - 1) with (length old) by (cbn [length]; lia).
  now rewrite replace_from_skip.
Qed.

Lemma replace_from_pass (old new : str) (c : Ascii.ascii) (t : str) :
  startswith (c :: t) old = false ->
  replace_from old new 0 (c :: t) = c :: replace_from old new 0 t.
Proof.
  intros H. cbn [replace_from]. now rewrite H.
Qed.

(** A pattern whose first character does not come back in it cannot
    start in a non-empty [base] and end in a copy of the pattern appended
    to it. *)
Lemma startswith_short (d : ascii) (b r q : str) :
  ~ In d q -> startswith (b ++ d :: r) q = startswith b q.
Proof.
  revert q. induction b as [| x b IH]; intros q Hd.
  - destruct q as [| y q]; [reflexivity |]. cbn [app startswith].
    destruct (Ascii.eqb y d) eqn:E; [| reflexivity].
    apply Ascii.eqb_eq in E. exfalso. apply Hd. now left.
  - destruct q as [| y q]; [reflexivity |]. cbn [app startswith].
    rewrite IH; [reflexivity |]. intros Hin. apply Hd. now right.
Qed.

Lemma startswith_app_own (d : ascii) (p base : str) :
  ~ In d p -> base <> [] ->
  startswith (base ++ d :: p) (d :: p) = startswith base (d :: p).
Proof.
  intros Hd Hne. destruct base as [| x base]; [now elim Hne |].
  cbn [app startswith]. now rewrite startswith_short.
Qed.

Lemma startswith_nii_app (base : str) :
  base <> [] ->
  startswith (base ++ lit ".nii") (lit ".nii") = startswith base (lit ".nii").
Proof.
  apply (startswith_app_own "." (lit "nii")).
  cbn. intros [E | [E | [E | []]]]; discriminate.
Qed.

Lemma replace_nii_suffix (base : str) :
  replace_from (lit ".nii") [] 0 (base ++ lit ".nii")
  = replace_from (lit ".nii") [] 0 base.
Proof.
  remember (length base) as n eqn:En. revert base En.
  induction n as [n IH] using lt_wf_ind. intros base En.
  destruct base as [| c t]; [reflexivity |].
  assert (Hs : startswith ((c :: t) ++ lit ".nii") (lit ".nii")
               = startswith (c :: t) (lit ".nii")).
  { apply startswith_nii_app. discriminate. }
  destruct (startswith (c :: t) (lit ".nii")) eqn:E.
  - change (lit ".nii") with ("."%char :: lit "nii") in *.
    rewrite (replace_from_match _ _ _ _ E), (replace_from_match _ _ _ _ Hs).
    f_equal.
    apply startswith_prefix in E as [post E]. rewrite E, <- app_assoc.
    rewrite !skipn_exact.
    apply (IH (length post)); [| reflexivity].
    subst n. rewrite E, length_app. cbn. lia.
  - change ((c :: t) ++ lit ".nii") with (c :: (t ++ lit ".nii")) in *.
    rewrite (replace_from_pass _ _ _ _ E), (replace_from_pass _ _ _ _ Hs).
    f_equal. apply (IH (length t)); [subst n; cbn; lia | reflexivity].
Qed.

Lemma replace_from_absent (o : Ascii.ascii) (old new s : str) :
  (forall pre post, s <> pre ++ (o :: old) ++ post) ->
  replace_from (o :: old) new 0 s = s.
Proof.
  induction s as [| c t IH]; intros H; [reflexivity |].
  rewrite replace_from_pass.
  - f_equal. apply IH. intros pre post E. apply (H (c :: pre) post).
    now rewrite E.
  - destruct (startswith (c :: t) (o :: old)) eqn:E; [| reflexivity].
    apply startswith_prefix in E as [post E]. now elim (H [] post).
Qed.

Lemma stem_nii_gz (base : str) :
  stem (base ++ lit ".nii.gz") = base ++ lit ".nii".
Proof.
  unfold stem.
  change (base ++ lit ".nii.gz")
    with (base ++ lit ".nii" ++ "."%char :: lit "gz").
  rewrite app_assoc, rfind_last.
  2:{ cbn. intros [E | [E | []]]; discriminate. }
  rewrite firstn_exact.
  replace ((0 <? length (base ++ lit ".nii"))
           && (length (base ++ lit ".nii")
               <? length ((base ++ lit ".nii") ++ "."%char :: lit "gz") - 1))
    with true; [reflexivity |].
  symmetry. rewrite !length_app. cbn [length lit String.list_ascii_of_string].
  apply andb_true_intro. split; apply Nat.ltb_lt; lia.
Qed.

Lemma case_number_replace (base : str) :
  case_number (base ++ lit ".nii.gz") = replace base (lit ".nii") [].
Proof.
  unfold case_number. rewrite stem_nii_gz. exact (replace_nii_suffix base).
Qed.

Lemma case_number_plain (base : str) :
  (forall pre post, base <> pre ++ lit ".nii" ++ post) ->
  case_number (base ++ lit ".nii.gz") = base.
Proof.
  intros H. rewrite case_number_replace.
  exact (replace_from_absent _ _ _ _ H).
Qed.

(** X13.  The key under which [process_folder] stores the file
    [base.nii.gz] is [base] with every occurrence of [.nii] removed; it is
    [base] itself when [.nii] does not occur in it, and the files
    [base.nii.gz] and [base.nii.nii.gz] share their key. *)
Theorem case_number_of_name (base : str) :
  case_number (base ++ lit ".nii.gz") = replace base (lit ".nii") []
  /\ ((forall pre post, base <> pre ++ lit ".nii" ++ post) ->
      case_number (base ++ lit ".nii.gz") = base)
  /\ case_number ((base ++ lit ".nii") ++ lit ".nii.gz")
     = case_number (base ++ lit ".nii.gz").
Proof.
  split; [apply case_number_replace |]. split.
  - apply case_number_plain.
  - rewrite !case_number_replace. exact (replace_nii_suffix base).
Qed.

Lemma case_number_of_name_witness :
  case_number (lit "case_07.nii.gz") = lit "case_07".
Proof.
  apply (proj1 (proj2 (case_number_of_name (lit "case_07")))).
  intros pre post E. cbn in E.
  do 7 (destruct pre as [| ? pre]; [discriminate |]).
  destruct pre; discriminate.
Defined.

Lemma not_in_app {A} (x : A) (a b : list A) :
  ~ In x a -> ~ In x b -> ~ In x (a ++ b).
Proof.
  intros Ha Hb H. apply in_app_or in H. tauto.
Qed.

Lemma splitext_gz (base : str) :
  ~ In "/"%char base ->
  splitext (base ++ lit ".nii.gz") = (base ++ lit ".nii", lit ".gz").
Proof.
  intros Hs. unfold splitext.
  rewrite (rfind_absent _ "/").
  2:{ apply not_in_app; [exact Hs |].
      cbn. intros H. repeat (destruct H as [H | H]; [discriminate |]).
      exact H. }
  change (base ++ lit ".nii.gz")
    with (base ++ lit ".nii" ++ "."%char :: lit "gz").
  rewrite app_assoc, rfind_last.
  2:{ cbn. intros [E | [E | []]]; discriminate. }
  cbn [Nat.leb andb skipn]. rewrite Nat.sub_0_r, firstn_exact, skipn_exact.
  rewrite existsb_app. cbn. now rewrite orb_true_r.
Qed.

Lemma splitext_nii (base : str) :
  ~ In "/"%char base ->
  splitext (base ++ lit ".nii")
  = if forallb (fun c => Ascii.eqb c ".") base
    then (base ++ lit ".nii", [])
    else (base, lit ".nii").
Proof.
  intros Hs. unfold splitext.
  rewrite (rfind_absent _ "/").
  2:{ apply not_in_app; [exact Hs |].
      cbn. intros H. repeat (destruct H as [H | H]; [discriminate |]).
      exact H. }
  change (base ++ lit ".nii") with (base ++ "."%char :: lit "nii").
  rewrite rfind_last.
  2:{ cbn. intros [E | [E | [E | []]]]; discriminate. }
  cbn [Nat.leb andb skipn]. rewrite Nat.sub_0_r, firstn_exact, skipn_exact.
  replace (existsb (fun c => negb (Ascii.eqb c ".")) base)
    with (negb (forallb (fun c => Ascii.eqb c ".") base)).
  - now destruct (forallb _ base).
  - clear. induction base as [| c t IH]; [reflexivity |].
    cbn [forallb existsb]. rewrite negb_andb. now rewrite IH.
Qed.

(** X14.  The key under which the batch script stores a listed file
    [base.nii.gz] is [base], unless [base] is empty or consists of dots
    only: then the key keeps the [.nii]. *)
Theorem identifier_of_name (base : str) :
  ~ In "/"%char base ->
  endswith (base ++ lit ".nii.gz") (lit ".nii.gz") = true
  /\ identifier (base ++ lit ".nii.gz")
     = if forallb (fun c => Ascii.eqb c ".") base
       then base ++ lit ".nii" else base.
Proof.
  intros Hs. split.
  - unfold endswith. rewrite length_app.
    replace (length base + length (lit ".nii.gz") - length (lit ".nii.gz"))
      with (length base) by lia.
    rewrite skipn_exact. apply andb_true_intro. split.
    + apply Nat.leb_le. lia.
    + reflexivity.
  - unfold identifier. rewrite (splitext_gz base Hs). cbn [fst].
    rewrite (splitext_nii base Hs). now destruct (forallb _ base).
Qed.

Lemma identifier_of_name_witness :
  endswith (lit "case_07.nii.gz") (lit ".nii.gz") = true
  /\ identifier (lit "case_07.nii.gz") = lit "case_07".
Proof.
  apply (identifier_of_name (lit "case_07")).
  cbn. intros H. repeat (destruct H as [H | H]; [discriminate |]). exact H.
Defined.

Lemma split_first_app (a b : str) (c : ascii) :
  ~ In c a -> split_first (a ++ c :: b) c = a.
Proof.
  induction a as [| x a IH]; intros H; cbn [app split_first].
  - now rewrite Ascii.eqb_refl.
  - destruct (Ascii.eqb x c) eqn:E.
    + apply Ascii.eqb_eq in E. exfalso. apply H. now left.
    + f_equal. apply IH. intros Hin. apply H. now right.
Qed.

Lemma basename_join (dir name : str) :
  ~ In "/"%char name -> basename (dir ++ "/"%char :: name) = name.
Proof.
  intros H. unfold basename. rewrite rfind_last by exact H.
  replace (S (length dir)) with (length (dir ++ ["/"%char]))
    by (rewrite length_app; cbn [length]; lia).
  change (dir ++ "/"%char :: name) with (dir ++ ["/"%char] ++ name).
  rewrite app_assoc. apply skipn_exact.
Qed.

(** X15.  On a file [base.nii.gz] whose [base] is not empty and has
    neither a dot nor a slash, the three scripts use the same key: [base]. *)
Theorem keys_agree_on_plain_names (dir base : str) :
  base <> [] -> ~ In "."%char base -> ~ In "/"%char base ->
  case_number (base ++ lit ".nii.gz") = base
  /\ identifier (base ++ lit ".nii.gz") = base
  /\ patient_id (dir ++ "/"%char :: base ++ lit ".nii.gz") = base.
Proof.
  intros Hne Hdot Hsl. split; [| split].
  - unfold case_number. rewrite stem_nii_gz.
    change (replace (base ++ lit ".nii") (lit ".nii") [])
      with (replace_from (lit ".nii") [] 0 (base ++ lit ".nii")).
    rewrite replace_nii_suffix.
    apply (replace_from_absent "." (lit "nii")).
    intros pre post E. apply Hdot. rewrite E.
    apply in_or_app. right. now left.
  - unfold identifier. rewrite (splitext_gz base Hsl). cbn [fst].
    rewrite (splitext_nii base Hsl).
    destruct base as [| c t]; [now elim Hne |]. cbn [forallb].
    destruct (Ascii.eqb c ".") eqn:E; [| reflexivity].
    apply Ascii.eqb_eq in E. exfalso. apply Hdot. now left.
  - unfold patient_id. rewrite basename_join.
    + change (base ++ lit ".nii.gz") with (base ++ "."%char :: lit "nii.gz").
      now apply split_first_app.
    + apply not_in_app; [exact Hsl |].
      cbn. intros H. repeat (destruct H as [H | H]; [discriminate |]).
      exact H.
Qed.

Lemma keys_agree_on_plain_names_witness :
  case_number (lit "RBH012.nii.gz") = lit "RBH012"
  /\ identifier (lit "RBH012.nii.gz") = lit "RBH012"
  /\ patient_id (lit "outputs/segmentations/RBH012.nii.gz") = lit "RBH012".
Proof.
  apply (keys_agree_on_plain_names (lit "outputs/segmentations")
                                   (lit "RBH012")).
  - discriminate.
  - cbn. intros H. repeat (destruct H as [H | H]; [discriminate |]). exact H.
  - cbn. intros H. repeat (destruct H as [H | H]; [discriminate |]). exact H.
Defined.

End NameFacts.

(** ** The batch drivers *)

Module DriverFacts.
Import Ascii String List ListNotations.
Import Fractal Float Tortuosity Names Lobes Drivers.
Import Examples Segmentations.
Import FractalFacts TortuosityFacts NameFacts LobeFacts.

(** *** The result dict *)

Lemma dict_get_set_same {V} (d : dict V) (k : str) (v : V) :
  dict_get (dict_set d k v) k = Some v.
Proof.
  induction d as [| [k' v'] d IH]; cbn [dict_set dict_get].
  - now rewrite str_eqb_refl.
  - destruct (str_eqb k k') eqn:E; cbn [dict_get].
    + now rewrite str_eqb_refl.
    + now rewrite E.
Qed.

Lemma dict_get_set_other {V} (d : dict V) (k k' : str) (v : V) :
  k <> k' -> dict_get (dict_set d k v) k' = dict_get d k'.
Proof.
  intros Hne. induction d as [| [k0 v0] d IH]; cbn [dict_set dict_get].
  - apply not_eq_sym in Hne. apply str_eqb_neq in Hne. now rewrite Hne.
  - destruct (str_eqb k k0) eqn:E; cbn [dict_get].
    + apply str_eqb_eq in E. subst k0.
      apply not_eq_sym in Hne. apply str_eqb_neq in Hne. now rewrite Hne.
    + now rewrite IH.
Qed.

Lemma dict_set_keys {V} (d : dict V) (k : str) (v : V) :
  map fst (dict_set d k v)
  = if existsb (str_eqb k) (map fst d) then map fst d else map fst d ++ [k].
Proof.
  induction d as [| [k' v'] d IH]; cbn [dict_set map fst existsb app];
    [reflexivity |].
  destruct (str_eqb k k') eqn:E; cbn [orb map fst].
  - apply str_eqb_eq in E. now subst.
  - rewrite IH. now destruct (existsb (str_eqb k) (map fst d)).
Qed.

Lemma existsb_str_eqb (k : str) (l : list str) :
  existsb (str_eqb k) l = true <-> In k l.
Proof.
  rewrite existsb_exists. split.
  - intros (x & Hx & E). apply str_eqb_eq in E. now subst.
  - intros H. exists k. split; [exact H | apply str_eqb_refl].
Qed.

Lemma dict_set_fresh {V} (d : dict V) (k : str) (v : V) :
  ~ In k (map fst d) -> dict_set d k v = d ++ [(k, v)].
Proof.
  induction d as [| [k' v'] d IH]; intros H; cbn [dict_set app];
    [reflexivity |].
  destruct (str_eqb k k') eqn:E.
  - apply str_eqb_eq in E. exfalso. apply H. left. now subst.
  - f_equal. apply IH. intros Hin. apply H. now right.
Qed.

Lemma dict_set_NoDup {V} (d : dict V) (k : str) (v : V) :
  NoDup (map fst d) -> NoDup (map fst (dict_set d k v)).
Proof.
  intros H. rewrite dict_set_keys.
  destruct (existsb (str_eqb k) (map fst d)) eqn:E; [exact H |].
  assert (Hk : ~ In k (map fst d)).
  { intros Hin. apply existsb_str_eqb in Hin. congruence. }
  apply NoDup_app; [exact H | repeat constructor; intros [] |].
  intros x Hx [<- | []]. contradiction.
Qed.

(** *** A loop that stores the results of the items that succeed *)

Section Collect.

Context {X V : Type} (key : X -> str) (val : X -> option V).

Local Abbreviation step :=
  (fun (d : dict V) (x : X) =>
     match val x with
     | Some v => dict_set d (key x) v
     | None => d
     end).

Lemma collect_found (xs : list X) (d : dict V) (k : str) (v : V) :
  dict_get (fold_left step xs d) k = Some v ->
  dict_get d k = Some v
  \/ exists x, In x xs /\ key x = k /\ val x = Some v.
Proof.
  revert d. induction xs as [| x xs IH]; intros d H; [now left |].
  cbn [fold_left] in H. apply IH in H as [H | (y & Hy & Hk & Hv)].
  - destruct (val x) as [w |] eqn:Ev; [| now left].
    destruct (list_eq_dec ascii_dec (key x) k) as [E | N].
    + subst k. rewrite dict_get_set_same in H. inversion H; subst w.
      right. exists x. repeat split; [now left | exact Ev].
    + rewrite dict_get_set_other in H by exact N. now left.
  - right. exists y. repeat split; [now right | exact Hk | exact Hv].
Qed.

Lemma collect_kept (xs : list X) (d : dict V) (k : str) :
  (forall x, In x xs -> key x = k -> val x = None) ->
  dict_get (fold_left step xs d) k = dict_get d k.
Proof.
  revert d. induction xs as [| x xs IH]; intros d H; [reflexivity |].
  cbn [fold_left]. rewrite IH by (intros y Hy; apply H; now right).
  destruct (val x) as [w |] eqn:Ev; [| reflexivity].
  apply dict_get_set_other. intros E.
  specialize (H x (or_introl eq_refl) E). congruence.
Qed.

Lemma collect_last (pre post : list X) (x : X) (v : V) (d : dict V) :
  val x = Some v ->
  (forall y, In y post -> key y = key x -> val y = None) ->
  dict_get (fold_left step (pre ++ x :: post) d) (key x) = Some v.
Proof.
  intros Hv Hpost. rewrite fold_left_app. cbn [fold_left].
  rewrite (collect_kept post _ (key x) Hpost), Hv.
  apply dict_get_set_same.
Qed.

Lemma collect_NoDup (xs : list X) (d : dict V) :
  NoDup (map fst d) -> NoDup (map fst (fold_left step xs d)).
Proof.
  revert d. induction xs as [| x xs IH]; intros d H; [exact H |].
  cbn [fold_left]. apply IH. destruct (val x); [| exact H].
  now apply dict_set_NoDup.
Qed.

Lemma collect_distinct (xs : list X) (d : dict V) :
  NoDup (map key xs) ->
  (forall x, In x xs -> ~ In (key x) (map fst d)) ->
  fold_left step xs d
  = d ++ flat_map (fun x => match val x with
                            | Some v => [(key x, v)]
                            | None => []
                            end) xs.
Proof.
  revert d. induction xs as [| x xs IH]; intros d Hnd Hd.
  - cbn. now rewrite app_nil_r.
  - cbn [fold_left flat_map]. cbn [map] in Hnd.
    apply NoDup_cons_iff in Hnd as [Hx Hnd].
    destruct (val x) as [v |] eqn:Ev.
    + rewrite IH.
      * rewrite dict_set_fresh by (apply Hd; now left).
        now rewrite <- app_assoc.
      * exact Hnd.
      * intros y Hy. rewrite dict_set_keys.
        destruct (existsb (str_eqb (key x)) (map fst d)).
        -- apply Hd. now right.
        -- intros Hin. apply in_app_or in Hin as [Hin | [E | []]].
           ++ revert Hin. apply Hd. now right.
           ++ apply Hx. rewrite E. now apply in_map.
    + apply IH; [exact Hnd |]. intros y Hy. apply Hd. now right.
Qed.

End Collect.

(** *** fractal.py: [process_folder] *)

(** X16.  The dict of [process_folder]: every entry comes from a file of
    the folder that was read and measured without an exception, under the
    key of that file; a measured file has its value under its key unless a
    later measured file has the same key; no key occurs twice. *)
Theorem process_folder_entries (ReadImage : str -> option ndarray)
    (nifti_files : list str) :
  (forall k fd,
     dict_get (process_folder ReadImage nifti_files) k = Some fd ->
     exists f, In f nifti_files /\ case_number f = k
               /\ measure ReadImage f = Some fd)
  /\ (forall pre f post fd,
        nifti_files = pre ++ f :: post ->
        measure ReadImage f = Some fd ->
        (forall g, In g post -> case_number g = case_number f ->
                   measure ReadImage g = None) ->
        dict_get (process_folder ReadImage nifti_files) (case_number f)
        = Some fd)
  /\ NoDup (map fst (process_folder ReadImage nifti_files)).
Proof.
  unfold process_folder. split; [| split].
  - intros k fd H.
    apply (collect_found case_number (measure ReadImage)) in H
      as [H | H]; [discriminate | exact H].
  - intros pre f post fd -> Hf Hpost.
    now apply (collect_last case_number (measure ReadImage)).
  - apply (collect_NoDup case_number (measure ReadImage)). constructor.
Qed.

Lemma origin_voxel_dimension :
  fractal_dimension_3D origin_voxel None 1 20 0 = Ok 0%R.
Proof.
  unfold fractal_dimension_3D. rewrite fit_input_origin_voxel.
  cbn [bind fst snd map].
  rewrite polyfit1_single by (apply ln_inv_scale_neq_0; lia).
  cbn [bind fst]. f_equal. rewrite ln_1. unfold Rdiv. ring.
Qed.

(** A folder in which only [a.nii.gz] can be read. *)
Lemma process_folder_entries_witness :
  dict_get (process_folder
              (fun name => if str_eqb name (lit "a.nii.gz")
                           then Some origin_voxel else None)
              [lit "a.nii.gz"; lit "b.nii.gz"])
           (lit "a")
  = Some 0%R.
Proof.
  apply (proj1 (proj2 (process_folder_entries
                         (fun name => if str_eqb name (lit "a.nii.gz")
                                      then Some origin_voxel else None)
                         [lit "a.nii.gz"; lit "b.nii.gz"]))
               [] (lit "a.nii.gz") [lit "b.nii.gz"] 0%R).
  - reflexivity.
  - unfold measure. cbn [str_eqb lit list_ascii_of_string Ascii.eqb
                         Bool.eqb andb].
    now rewrite origin_voxel_dimension.
  - intros g [<- | []] _. reflexivity.
Defined.

Lemma flat_map_map {A B C} (f : A -> B) (g : B -> list C) (l : list A) :
  flat_map g (map f l) = flat_map (fun x => g (f x)) l.
Proof.
  induction l as [| x l IH]; [reflexivity |]. cbn [map flat_map].
  now rewrite IH.
Qed.

(** X17.  On files [base.nii.gz] with distinct bases in which [.nii] does
    not occur, [process_folder] returns one entry per file that was read
    and measured, under its base, in the order of the files; the files
    that raise leave no trace. *)
Theorem process_folder_plain_names (ReadImage : str -> option ndarray)
    (bases : list str) :
  NoDup bases ->
  (forall b, In b bases -> forall pre post, b <> pre ++ lit ".nii" ++ post) ->
  process_folder ReadImage (map (fun b => b ++ lit ".nii.gz") bases)
  = flat_map (fun b => match measure ReadImage (b ++ lit ".nii.gz") with
                       | Some fd => [(b, fd)]
                       | None => []
                       end) bases.
Proof.
  intros Hnd Hplain. unfold process_folder.
  assert (Hkey : forall b, In b bases ->
                   case_number (b ++ lit ".nii.gz") = b).
  { intros b Hb. apply case_number_plain. now apply Hplain. }
  rewrite (collect_distinct case_number (measure ReadImage)).
  - cbn [app]. rewrite flat_map_map. apply flat_map_ext_in.
    intros b Hb. now rewrite (Hkey b Hb).
  - rewrite map_map, (map_ext_in _ (fun b => b)), map_id;
      [exact Hnd | exact Hkey].
  - intros x _ [].
Qed.

Lemma process_folder_plain_names_witness :
  process_folder (fun name => if str_eqb name (lit "a.nii.gz")
                              then Some origin_voxel else None)
                 [lit "a.nii.gz"; lit "b.nii.gz"]
  = [(lit "a", 0%R)].
Proof.
  pose proof (process_folder_plain_names
                (fun name => if str_eqb name (lit "a.nii.gz")
                             then Some origin_voxel else None)
                [lit "a"; lit "b"]) as H.
  unfold measure in H.
  cbn [map flat_map app str_eqb lit list_ascii_of_string Ascii.eqb
       Bool.eqb andb] in H.
  rewrite origin_voxel_dimension in H. apply H.
  - constructor; [| constructor; [| constructor]].
    + intros [E | []]. discriminate.
    + intros [].
  - intros b [<- | [<- | []]] pre post E; cbn in E;
      do 2 (destruct pre as [| ? pre]; [discriminate |]); discriminate.
Defined.

(** *** batch_tortuosity.py: [main] *)

Lemma fold_left_ext {A B} (f g : A -> B -> A) (l : list B) (a : A) :
  (forall x y, f x y = g x y) -> fold_left f l a = fold_left g l a.
Proof.
  intros H. revert a. induction l as [| y l IH]; intros a; [reflexivity |].
  cbn [fold_left]. now rewrite H, IH.
Qed.

Lemma compute_tortuosity_nothing_retained (df : list branch) (thr : R) :
  df_tort (Float64 df) thr = [] ->
  compute_tortuosity (Float64 df) thr = Ok (NaN, NaN).
Proof.
  intros H. unfold compute_tortuosity. rewrite H.
  unfold series_sum, series_mean. cbn.
  destruct (Req_dec_T 0 0) as [_ | N]; [| now elim N].
  now rewrite signed_inf_zero.
Qed.

(** X18.  A listed file that ends in [.nii.gz] and whose branch table can
    be built always gets an entry (unless a later file takes its key): the
    pair returned by [compute_tortuosity], which is (NaN, NaN) when no
    branch is longer than the threshold. *)
Theorem main_entry (branch_table : str -> option (list branch))
    (pre post : list str) (fname : str) (df : list branch) :
  endswith fname (lit ".nii.gz") = true ->
  branch_table fname = Some df ->
  (forall g, In g post -> identifier g = identifier fname ->
             endswith g (lit ".nii.gz") = false \/ branch_table g = None) ->
  exists m w,
    dict_get (main branch_table (pre ++ fname :: post)) (identifier fname)
    = Some (m, w)
    /\ compute_tortuosity (Float64 df) default_length_threshold = Ok (m, w)
    /\ (df_tort (Float64 df) default_length_threshold = []
        -> m = NaN /\ w = NaN).
Proof.
  intros Hend Hdf Hpost.
  set (val := fun f => if endswith f (lit ".nii.gz")
                       then process_file branch_table f else None).
  assert (Hmain : forall l,
            main branch_table l
            = fold_left (fun d x => match val x with
                                    | Some v => dict_set d (identifier x) v
                                    | None => d
                                    end) l []).
  { intros l. unfold main. apply fold_left_ext. intros d x. unfold val.
    now destruct (endswith x (lit ".nii.gz")). }
  destruct (compute_tortuosity (Float64 df) default_length_threshold)
    as [[m w] | e] eqn:Ec; [| discriminate].
  exists m, w. split; [| split].
  - rewrite Hmain. apply (collect_last identifier val).
    + unfold val, process_file. now rewrite Hend, Hdf, Ec.
    + intros g Hg Hk. unfold val, process_file.
      destruct (Hpost g Hg Hk) as [E | E]; rewrite E; [reflexivity |].
      now destruct (endswith g (lit ".nii.gz")).
  - reflexivity.
  - intros Hnone. rewrite (compute_tortuosity_nothing_retained df _ Hnone) in Ec.
    inversion Ec. now split.
Qed.

(** A folder with one mask whose only branch is a closed loop, and a
    text file. *)
Lemma main_entry_witness :
  exists m w,
    dict_get (main (fun _ => Some [straight 0 5])
                   ([lit "notes.txt"] ++ lit "case_07.nii.gz" :: []))
             (identifier (lit "case_07.nii.gz"))
    = Some (m, w)
    /\ compute_tortuosity (Float64 [straight 0 5]) default_length_threshold
       = Ok (m, w)
    /\ (df_tort (Float64 [straight 0 5]) default_length_threshold = []
        -> m = NaN /\ w = NaN).
Proof.
  apply (main_entry (fun _ => Some [straight 0 5]) [lit "notes.txt"] []
                    (lit "case_07.nii.gz") [straight 0 5]).
  - reflexivity.
  - reflexivity.
  - intros g [].
Defined.

(** *** The per-lobe scripts *)

Lemma lobe_dimensions_entries (al : ndarray) (lobes : list (Z * R)) :
  lobe_dimensions al = Ok lobes ->
  map fst lobes = unique_lobes al
  /\ forall lab fd, In (lab, fd) lobes ->
       fractal_dimension_3D (mask_eq al lab) None 1 20 0 = Ok fd.
Proof.
  unfold lobe_dimensions. intros H. apply mapM_Forall2 in H.
  induction H as [| lab [lab' fd] labels lobes' Hhd _ IH].
  - split; [reflexivity | intros ? ? []].
  - destruct (fractal_dimension_3D (mask_eq al lab) None 1 20 0)
      as [d |] eqn:Ed; [| discriminate].
    cbn [bind] in Hhd. inversion Hhd; subst lab' fd.
    destruct IH as [IH1 IH2]. split.
    + cbn [map fst]. now rewrite IH1.
    + intros l f [E | Hin]; [inversion E; now subst | now apply IH2].
Qed.

(** X19.  A patient whose two images are read and multiplied is recorded
    by [calculate_lobe_fractals] when the dimension of every visited label
    is returned, with one entry per label in ascending order; a single
    label on which [fractal_dimension_3D] raises removes the whole
    patient from the results. *)
Theorem patient_fractals_all_or_nothing (lobe_directory : str)
    (exists_file : str -> bool) (ReadImage : str -> option ndarray)
    (airway_file : str) (airway lobe al : ndarray) :
  exists_file (lobe_file lobe_directory (patient_id airway_file)) = true ->
  ReadImage airway_file = Some airway ->
  ReadImage (lobe_file lobe_directory (patient_id airway_file)) = Some lobe ->
  multiply_uint8 lobe airway = Ok al ->
  ((forall lab, In lab (unique_lobes al) ->
      returns (fractal_dimension_3D (mask_eq al lab) None 1 20 0)) ->
   exists lobes,
     calculate_lobe_fractals lobe_directory exists_file ReadImage
                             [airway_file]
     = [(patient_id airway_file, lobes)]
     /\ map fst lobes = unique_lobes al
     /\ forall lab fd, In (lab, fd) lobes ->
          fractal_dimension_3D (mask_eq al lab) None 1 20 0 = Ok fd)
  /\ (forall lab, In lab (unique_lobes al) ->
        raises (fractal_dimension_3D (mask_eq al lab) None 1 20 0) ->
        calculate_lobe_fractals lobe_directory exists_file ReadImage
                                [airway_file]
        = []).
Proof.
  intros Hex Ha Hl Hal.
  assert (Hp : patient_fractals lobe_directory exists_file ReadImage
                                airway_file
               = match lobe_dimensions al with
                 | Ok lobes => Some (patient_id airway_file, lobes)
                 | Raise _ => None
                 end).
  { unfold patient_fractals. rewrite Hex, Ha, Hl, Hal. reflexivity. }
  unfold calculate_lobe_fractals. cbn [flat_map]. rewrite Hp, app_nil_r.
  split.
  - intros Hall.
    destruct (mapM_returns
                (fun lobe_label =>
                   fd <- fractal_dimension_3D (mask_eq al lobe_label)
                                              None 1 20 0 ;;
                   Ok (lobe_label, fd))
                (unique_lobes al)) as [lobes Hlobes].
    { intros lab Hlab. destruct (Hall lab Hlab) as [fd ->]. now eexists. }
    fold (lobe_dimensions al) in Hlobes. rewrite Hlobes.
    exists lobes. split; [reflexivity |].
    now apply lobe_dimensions_entries.
  - intros lab Hlab [e He].
    destruct (lobe_dimensions al) as [lobes |] eqn:El; [| reflexivity].
    exfalso. unfold lobe_dimensions in El.
    destruct (ReductionFacts.mapM_In _ _ _ lab El Hlab) as (y & Hy & _).
    rewrite He in Hy. discriminate.
Qed.

(** Two lobes on a 2 x 2 x 2 grid: the mask of lobe 2 lies beyond the last
    bin edge of the only scale, its fit has no point, and the patient is
    not recorded. *)
Lemma patient_fractals_all_or_nothing_witness :
  calculate_lobe_fractals
    (lit "lobes") (fun _ => true)
    (fun path => if str_eqb path (lit "seg/RBH1.nii.gz")
                 then Some (airway_line 1) else Some two_lobes)
    [lit "seg/RBH1.nii.gz"]
  = [].
Proof.
  eapply (proj2 (patient_fractals_all_or_nothing
                   (lit "lobes") (fun _ => true)
                   (fun path => if str_eqb path (lit "seg/RBH1.nii.gz")
                                then Some (airway_line 1) else Some two_lobes)
                   (lit "seg/RBH1.nii.gz") (airway_line 1) two_lobes _
                   eq_refl eq_refl eq_refl eq_refl) 2).
  - vm_compute. right. now left.
  - exists TypeError. unfold fractal_dimension_3D.
    match goal with
    | |- context [fit_input ?a ?m ?n ?k ?o] =>
        replace (fit_input a m n k o) with (@Ok (list Z * list Z) ([], []))
          by (vm_compute; reflexivity)
    end.
    reflexivity.
Defined.

Lemma lobe_tortuosities_entries
    (branch_table : str -> ndarray -> option (list branch))
    (airway_file : str) (al : ndarray) (labels : list Z) :
  (forall lab, In lab labels -> In lab (unique_lobes al)) ->
  ((forall lab, In lab labels ->
      branch_table airway_file (mask_eq al lab) <> None) ->
   exists lobes,
     lobe_tortuosities branch_table airway_file al labels = Some lobes
     /\ map fst lobes = labels
     /\ forall lab figures, In (lab, figures) lobes ->
          exists df,
            branch_table airway_file (mask_eq al lab) = Some df
            /\ compute_tortuosity (Float64 df) default_length_threshold
               = Ok figures)
  /\ (forall lab, In lab labels ->
        branch_table airway_file (mask_eq al lab) = None ->
        lobe_tortuosities branch_table airway_file al labels = None).
Proof.
  induction labels as [| lab labels IH]; intros Hsub.
  - split; [| intros ? []]. intros _. exists []. split; [reflexivity |].
    split; [reflexivity | intros ? ? []].
  - destruct (IH (fun l Hl => Hsub l (or_intror Hl))) as [IH1 IH2].
    cbn [lobe_tortuosities].
    rewrite (label_mask_any al lab (Hsub lab (or_introl eq_refl))).
    cbn [negb]. split.
    + intros Hall.
      destruct (branch_table airway_file (mask_eq al lab)) as [df |] eqn:Eb.
      2:{ now elim (Hall lab (or_introl eq_refl)). }
      destruct (compute_tortuosity (Float64 df) default_length_threshold)
        as [figures | e] eqn:Ec; [| discriminate].
      destruct (IH1 (fun l Hl => Hall l (or_intror Hl)))
        as (lobes & -> & Hkeys & Hvals).
      exists ((lab, figures) :: lobes). split; [reflexivity |]. split.
      * cbn [map fst]. now rewrite Hkeys.
      * intros l f [E | Hin]; [| now apply Hvals].
        inversion E; subst l f. now exists df.
    + intros l [<- | Hin] Hnone.
      * now rewrite Hnone.
      * destruct (branch_table airway_file (mask_eq al lab)) as [df |];
          [| reflexivity].
        destruct (compute_tortuosity (Float64 df) default_length_threshold);
          [| reflexivity].
        now rewrite (IH2 l Hin Hnone).
Qed.

(** X20.  A patient whose two images are read and multiplied is recorded
    by [calculate_lobe_tortuosity] exactly when the branch table of every
    visited label can be built; the record then has an entry for every
    visited label, in ascending order: no label is skipped by the
    [np.any] guard, and [compute_tortuosity] never makes the loop fail. *)
Theorem patient_tortuosity_complete (lobe_directory : str)
    (exists_file : str -> bool) (ReadImage : str -> option ndarray)
    (branch_table : str -> ndarray -> option (list branch))
    (airway_file : str) (airway lobe al : ndarray) :
  exists_file (lobe_file lobe_directory (patient_id airway_file)) = true ->
  ReadImage airway_file = Some airway ->
  ReadImage (lobe_file lobe_directory (patient_id airway_file)) = Some lobe ->
  multiply_uint8 lobe airway = Ok al ->
  ((forall lab, In lab (unique_lobes al) ->
      branch_table airway_file (mask_eq al lab) <> None) ->
   exists lobes,
     calculate_lobe_tortuosity lobe_directory exists_file ReadImage
                               branch_table [airway_file]
     = [(patient_id airway_file, lobes)]
     /\ map fst lobes = unique_lobes al
     /\ forall lab figures, In (lab, figures) lobes ->
          exists df,
            branch_table airway_file (mask_eq al lab) = Some df
            /\ compute_tortuosity (Float64 df) default_length_threshold
               = Ok figures)
  /\ (forall lab, In lab (unique_lobes al) ->
        branch_table airway_file (mask_eq al lab) = None ->
        calculate_lobe_tortuosity lobe_directory exists_file ReadImage
                                  branch_table [airway_file]
        = []).
Proof.
  intros Hex Ha Hl Hal.
  assert (Hp : patient_tortuosity lobe_directory exists_file ReadImage
                                  branch_table airway_file
               = match lobe_tortuosities branch_table airway_file al
                                         (unique_lobes al) with
                 | Some lobes => Some (patient_id airway_file, lobes)
                 | None => None
                 end).
  { unfold patient_tortuosity. rewrite Hex, Ha, Hl, Hal. reflexivity. }
  unfold calculate_lobe_tortuosity. cbn [flat_map]. rewrite Hp, app_nil_r.
  destruct (lobe_tortuosities_entries branch_table airway_file al
              (unique_lobes al) (fun l Hl => Hl)) as [H1 H2].
  split.
  - intros Hall. destruct (H1 Hall) as (lobes & -> & Hkeys & Hvals).
    exists lobes. now repeat split.
  - intros lab Hlab Hnone. now rewrite (H2 lab Hlab Hnone).
Qed.

Lemma patient_tortuosity_complete_witness :
  exists lobes,
    calculate_lobe_tortuosity
      (lit "lobes") (fun _ => true)
      (fun path => if str_eqb path (lit "seg/RBH1.nii.gz")
                   then Some (airway_line 1) else Some two_lobes)
      (fun _ _ => Some (rows two_branches))
      [lit "seg/RBH1.nii.gz"]
    = [(lit "RBH1", lobes)]
    /\ map fst lobes = [1; 2].
Proof.
  destruct (proj1 (patient_tortuosity_complete
                     (lit "lobes") (fun _ => true)
                     (fun path => if str_eqb path (lit "seg/RBH1.nii.gz")
                                  then Some (airway_line 1)
                                  else Some two_lobes)
                     (fun _ _ => Some (rows two_branches))
                     (lit "seg/RBH1.nii.gz") (airway_line 1) two_lobes _
                     eq_refl eq_refl eq_refl eq_refl))
    as (lobes & H1 & H2 & _).
  - intros lab _. discriminate.
  - exists lobes. split; [exact H1 | exact H2].
Defined.

End DriverFacts.

(** ** The loop over the grid offsets *)

Module OffsetFacts.
Import Fractal Examples FractalFacts.

Lemma Qle_bool_left (a a' v : Q) :
  (a == a')%Q -> Qle_bool a v = Qle_bool a' v.
Proof.
  intros E. apply eq_true_iff_eq. rewrite !Qle_bool_iff. now rewrite E.
Qed.

Lemma Qle_bool_both (a a' b b' : Q) :
  (a == a')%Q -> (b == b')%Q -> Qle_bool a b = Qle_bool a' b'.
Proof.
  intros Ea Eb. apply eq_true_iff_eq. rewrite !Qle_bool_iff.
  now rewrite Ea, Eb.
Qed.

Lemma searchsorted_right_Qeq (e e' : list Q) (v : Q) :
  Forall2 Qeq e e' ->
  Np.searchsorted_right e v = Np.searchsorted_right e' v.
Proof.
  unfold Np.searchsorted_right. induction 1 as [| a a' e e' Ha _ IH];
    [reflexivity |].
  cbn [filter]. rewrite (Qle_bool_left a a' v Ha).
  destruct (Qle_bool a' v); cbn [length]; now rewrite IH.
Qed.

Lemma monotonic_Qeq (e e' : list Q) :
  Forall2 Qeq e e' -> Np.monotonic e = Np.monotonic e'.
Proof.
  induction 1 as [| a a' e e' Ha He IH]; [reflexivity |].
  cbn [Np.monotonic]. destruct He as [| b b' e e' Hb He]; [reflexivity |].
  rewrite (Qle_bool_both a a' b b' Ha Hb). now rewrite IH.
Qed.

Lemma last_Qeq (e e' : list Q) (d : Q) :
  Forall2 Qeq e e' -> (last e d == last e' d)%Q.
Proof.
  induction 1 as [| a a' e e' Ha He IH]; [reflexivity |].
  destruct He as [| b b' e e' Hb He]; [exact Ha |]. exact IH.
Qed.

Lemma bin_number_Qeq (e e' : list Q) (v : Z) :
  Forall2 Qeq e e' -> Np.bin_number e v = Np.bin_number e' v.
Proof.
  intros H. unfold Np.bin_number.
  rewrite (searchsorted_right_Qeq e e' _ H).
  replace (Qeq_bool (inject_Z v) (last e 0%Q))
    with (Qeq_bool (inject_Z v) (last e' 0%Q)); [reflexivity |].
  apply eq_true_iff_eq. rewrite !Qeq_bool_iff.
  now rewrite (last_Qeq e e' 0%Q H).
Qed.

Lemma histogramdd_Qeq (sample : list (Z * Z * Z))
    (ex ex' ey ey' ez ez' : list Q) :
  Forall2 Qeq ex ex' -> Forall2 Qeq ey ey' -> Forall2 Qeq ez ez' ->
  Np.histogramdd sample ex ey ez = Np.histogramdd sample ex' ey' ez'.
Proof.
  intros Hx Hy Hz. unfold Np.histogramdd.
  destruct sample as [| p sample]; [reflexivity |].
  rewrite (monotonic_Qeq _ _ Hx), (monotonic_Qeq _ _ Hy),
    (monotonic_Qeq _ _ Hz).
  destruct (Np.monotonic ex' && Np.monotonic ey' && Np.monotonic ez');
    [| reflexivity].
  f_equal.
  assert (Hc : Np.core_cells ex ey ez = Np.core_cells ex' ey' ez').
  { unfold Np.core_cells.
    now rewrite (Forall2_length Hx), (Forall2_length Hy), (Forall2_length Hz). }
  rewrite Hc.
  assert (Hh : map (Np.Ncount ex ey ez) (p :: sample)
               = map (Np.Ncount ex' ey' ez') (p :: sample)).
  { apply map_ext. intros [[x y] z]. unfold Np.Ncount.
    now rewrite (bin_number_Qeq _ _ x Hx), (bin_number_Qeq _ _ y Hy),
      (bin_number_Qeq _ _ z Hz). }
  now rewrite Hh.
Qed.

Lemma bin_edges_Qeq (i : nat) (s : Z) (o o' : Q) :
  (o == o')%Q ->
  match bin_edges i s o, bin_edges i s o' with
  | Ok l, Ok l' => Forall2 Qeq l l'
  | Raise e, Raise e' => e = e'
  | _, _ => False
  end.
Proof.
  intros E. unfold bin_edges.
  destruct (Np.arange (Z.of_nat i) s) as [x | e]; cbn [bind]; [| reflexivity].
  constructor; [now rewrite E |].
  induction x as [| v x IH]; cbn [map]; constructor; [now rewrite E | exact IH].
Qed.

(** The count of a grid depends on the value of the offset only. *)
Lemma touched_at_Qeq (shp : nat * nat * nat) (vox : list (Z * Z * Z))
    (s : Z) (o o' : Q) :
  (o == o')%Q -> touched_at shp vox s o = touched_at shp vox s o'.
Proof.
  intros E. destruct shp as [[d0 d1] d2]. unfold touched_at.
  pose proof (bin_edges_Qeq d0 s o o' E) as H0.
  pose proof (bin_edges_Qeq d1 s o o' E) as H1.
  pose proof (bin_edges_Qeq d2 s o o' E) as H2.
  destruct (bin_edges d0 s o) as [ex |], (bin_edges d0 s o') as [ex' |];
    try contradiction; cbn [bind]; [| now subst].
  destruct (bin_edges d1 s o) as [ey |], (bin_edges d1 s o') as [ey' |];
    try contradiction; cbn [bind]; [| now subst].
  destruct (bin_edges d2 s o) as [ez |], (bin_edges d2 s o') as [ez' |];
    try contradiction; cbn [bind]; [| now subst].
  now rewrite (histogramdd_Qeq vox ex ex' ey ey' ez ez' H0 H1 H2).
Qed.

(** The unshifted grid is always among the grids tried. *)
Lemma offsets_of_zero (n_offsets : nat) (s : Z) :
  exists o, In o (offsets_of n_offsets s) /\ (o == 0)%Q.
Proof.
  destruct n_offsets as [| [| d]].
  - exists 0%Q. split; [now left | reflexivity].
  - exists (inject_Z 0). split; [now left | reflexivity].
  - unfold offsets_of, Np.linspace. cbn [seq map].
    eexists. split; [now left |].
    unfold Qeq. cbn [Qnum Qden]. lia.
Qed.

(** X21.  Shifting the grid can only lower the count of a scale: when the
    count over any number of offsets is returned, so is the count of the
    unshifted grid (what [n_offsets = 0] records), and the former is at
    most the latter. *)
Theorem offsets_only_lower (shp : nat * nat * nat) (vox : list (Z * Z * Z))
    (n_offsets : nat) (s c : Z) :
  box_count shp vox n_offsets s = Ok c ->
  exists c0, box_count shp vox 0 s = Ok c0 /\ c <= c0.
Proof.
  intros H. unfold box_count in H.
  destruct (touched_row shp vox n_offsets s) as [row |] eqn:Er;
    [| discriminate].
  cbn [bind] in H. apply np_min_spec in H as [_ Hmin].
  destruct (offsets_of_zero n_offsets s) as (o & Ho & Eo).
  unfold touched_row in Er.
  destruct (ReductionFacts.mapM_In _ _ _ o Er Ho) as (c0 & Hc0 & Hin).
  exists c0. split; [| now apply Hmin].
  rewrite box_count_no_offsets. now rewrite <- (touched_at_Qeq _ _ _ o 0 Eo).
Qed.

(** Two neighbouring voxels at scale 2, with three offsets. *)
Lemma offsets_only_lower_witness :
  exists c0, box_count (shape two_voxels) (voxels_of two_voxels) 0 2 = Ok c0
             /\ 1 <= c0.
Proof.
  apply (offsets_only_lower (shape two_voxels) (voxels_of two_voxels) 3 2 1).
  vm_compute. reflexivity.
Defined.

End OffsetFacts.
